(** * Rose AI voice front-end: the real-time audio pipeline

  A shallow embedding of [hooks/useLiveSession] (the capture callback, the
  playback scheduler and the session life cycle), of the visualizer loop of
  [components/VoiceView.tsx], and of the PCM helpers of [utils/audio].
  The hook and the component are embedded from their source; the source of
  [utils/audio] is not at hand, and its three functions are modelled from
  sections 4.1 and 4.2 of the specification (each says so).
  Around them: the auto-disconnect effect of [components/VoiceView.tsx],
  the text conversation of [components/ChatView.tsx], and the mode switch
  of [App.tsx], each embedded from its source.

  Conventions of the embedding.
  - A JavaScript number is an exact rational ([Q]); equalities between
    computed numbers are stated with [==].  Rounding of doubles is not
    modelled.  The volume, which is computed with a square root, is an
    exact real ([R]) or [NaN].
  - A React state cell ([useState]) and a ref ([useRef]) are fields of one
    record; a setter takes effect at once.
  - Every host object (audio context, node, stream, ...) is a handle drawn
    from a counter; every call into the host is appended to a log, so that
    "was stopped", "was closed" or "was never asked for" are statements
    about that log.
  - A handler runs to completion before the next one starts (the host's
    event loop); in [LiveSession] the [await]s inside [connect] and
    [onmessage] are taken in one step, and so is the [then] of the session
    promise in the capture callback.  [Overlap] cuts the two handlers at
    their [await]s, so that other handlers run in between.
  - Statements that may throw live in a state-and-exception monad [Js] with
    [try_catch] for the source's try/catch blocks. *)

From Stdlib Require Import ZArith QArith Qabs Qround List String Ascii Bool Lia Lqa.
From Stdlib Require Reals Qreals Lra.
Import ListNotations.

(** ** JavaScript numbers *)

Module Num.

Import Stdlib.Reals.Reals Stdlib.Reals.Qreals.
Local Open Scope Q_scope.

(** [Math.max(a, b)]. *)
Definition Math_max (a b : Q) : Q := if Qle_bool a b then b else a.

(** [Math.min(a, b)]. *)
Definition Math_min (a b : Q) : Q := if Qle_bool a b then a else b.

(** A number that need not be rational, or [NaN]. *)
Definition Number : Type := option R.

Definition NaN : Number := None.

(** [Math.sqrt(x)]: the square root of a number that is not negative, and
    [NaN] for a negative number and for [NaN]. *)
Definition Math_sqrt (x : Number) : Number :=
  match x with
  | Some v => if Rlt_dec v 0 then NaN else Some (sqrt v)
  | None => NaN
  end.

(** [sum / length] where [sum] is 0 when [length] is: 0/0 is [NaN]. *)
Definition mean (sum : Q) (length : nat) : Number :=
  match length with
  | O => NaN
  | S _ => Some (Q2R (sum / inject_Z (Z.of_nat length)))
  end.

(** The number 0. *)
Definition zero : Number := Some 0%R.

(** Not a negative number: a number that is at least 0, or [NaN]. *)
Definition not_negative (x : Number) : Prop :=
  forall v, x = Some v -> (0 <= v)%R.

(** [Math.max(0.1, prev * 0.8 + rms * 2)]; [NaN] if an operand is. *)
Definition raised (prev rms : Number) : Number :=
  match prev, rms with
  | Some v, Some r =>
      Some (Rmax (1 / 10) (v * (8 / 10) + r * 2))%R
  | _, _ => NaN
  end.

(** [a += b] folded over an array: the sum of a list of numbers. *)
Definition Qsum (l : list Q) : Q := fold_left Qplus l 0.

End Num.

(** ** The monad of handlers: state and exceptions *)

Module JsMonad.

(** What a block of statements does: it completes with a value or throws. *)
Inductive Outcome (A : Type) : Type :=
| Returned (a : A)
| Thrown (message : string).

Arguments Returned {A} a.
Arguments Thrown {A} message.

Definition Js (St A : Type) : Type := St -> Outcome A * St.

Definition ret {St A} (a : A) : Js St A := fun s => (Returned a, s).

Definition bind {St A B} (m : Js St A) (k : A -> Js St B) : Js St B :=
  fun s =>
    match m s with
    | (Returned a, s') => k a s'
    | (Thrown e, s') => (Thrown e, s')
    end.

(** [throw new Error(message)]. *)
Definition throw {St A} (message : string) : Js St A :=
  fun s => (Thrown message, s).

(** [try { body } catch (e) { handler(e) }]: the state changes made by
    [body] before it threw are kept. *)
Definition try_catch {St A} (body : Js St A) (handler : string -> Js St A)
  : Js St A :=
  fun s =>
    match body s with
    | (Returned a, s') => (Returned a, s')
    | (Thrown e, s') => handler e s'
    end.

Definition modify {St} (f : St -> St) : Js St unit :=
  fun s => (Returned tt, f s).
Definition gets {St A} (f : St -> A) : Js St A :=
  fun s => (Returned (f s), s).

(** [if (c) { body }]. *)
Definition when {St} (c : bool) (body : Js St unit) : Js St unit :=
  if c then body else ret tt.

(** [if (ref.current) { body(ref.current) }]. *)
Definition when_some {St A} (o : option A) (body : A -> Js St unit)
  : Js St unit :=
  match o with
  | Some a => body a
  | None => ret tt
  end.

(** [collection.forEach(body)]; an exception leaving [body] ends the
    iteration. *)
Fixpoint for_each {St A} (l : list A) (body : A -> Js St unit)
  : Js St unit :=
  match l with
  | [] => ret tt
  | x :: rest => bind (body x) (fun _ => for_each rest body)
  end.

Definition outcome_of {St A} (r : Outcome A * St) : Outcome A := fst r.
Definition state_of {St A} (r : Outcome A * St) : St := snd r.

Declare Scope js_scope.
Delimit Scope js_scope with js.
Notation "x <- m ;; k" := (bind m (fun x => k))
  (at level 61, m at next level, right associativity) : js_scope.
Notation "m ;; k" := (bind m (fun _ => k))
  (at level 61, right associativity) : js_scope.

End JsMonad.

(** ** [utils/audio]: PCM encoding, base64 and decoding *)

Module Audio.

Import Num JsMonad.

(** A [Float32Array] of samples. *)
Definition AudioFrame : Type := list Q.

(** A [Uint8Array]: numbers in [0, 255]. *)
Definition Bytes : Type := list Z.

Definition is_byte (b : Z) : Prop := (0 <= b < 256)%Z.

(** *** Base64 *)

Definition base64_alphabet : list ascii :=
  list_ascii_of_string
    "ABCDEFGHIJKLMNOPQRSTUVWXYZabcdefghijklmnopqrstuvwxyz0123456789+/".

Definition pad_char : ascii := "="%char.

Definition sextet_char (n : Z) : ascii :=
  nth (Z.to_nat n) base64_alphabet pad_char.

Definition char_sextet (c : ascii) : option Z :=
  let n := Z.of_N (N_of_ascii c) in
  if ((65 <=? n) && (n <=? 90))%Z then Some (n - 65)%Z
  else if ((97 <=? n) && (n <=? 122))%Z then Some (n - 71)%Z
  else if ((48 <=? n) && (n <=? 57))%Z then Some (n + 4)%Z
  else if (n =? 43)%Z then Some 62%Z
  else if (n =? 47)%Z then Some 63%Z
  else None.

Definition is_pad (c : ascii) : bool := Ascii.eqb c pad_char.

(** Modelled from the spec: [encodeBase64] of [utils/audio], the
    "transport-safe textual encoding (base64)" of section 4.1: three bytes
    become four characters of the standard alphabet, and a last group of
    one or two bytes is padded with [=]. *)
Fixpoint encode_chars (bytes : Bytes) : list ascii :=
  match bytes with
  | [] => []
  | [a] =>
      [sextet_char (a / 4); sextet_char ((a mod 4) * 16);
       pad_char; pad_char]
  | [a; b] =>
      [sextet_char (a / 4); sextet_char ((a mod 4) * 16 + b / 16);
       sextet_char ((b mod 16) * 4); pad_char]
  | a :: b :: c :: rest =>
      sextet_char (a / 4)
      :: sextet_char ((a mod 4) * 16 + b / 16)
      :: sextet_char ((b mod 16) * 4 + c / 64)
      :: sextet_char (c mod 64)
      :: encode_chars rest
  end%Z.

Definition encodeBase64 (bytes : Bytes) : string :=
  string_of_list_ascii (encode_chars bytes).

(** The bytes of a padded base64 text, four characters at a time; [None]
    for any other text. *)
Fixpoint decode_chars (cs : list ascii) : option Bytes :=
  match cs with
  | [] => Some []
  | c1 :: c2 :: c3 :: c4 :: rest =>
      match char_sextet c1, char_sextet c2 with
      | Some s1, Some s2 =>
          let b1 := (s1 * 4 + s2 / 16)%Z in
          if is_pad c3 && is_pad c4 then
            match rest with
            | [] => Some [b1]
            | _ :: _ => None
            end
          else
            match char_sextet c3 with
            | Some s3 =>
                let b2 := ((s2 mod 16) * 16 + s3 / 4)%Z in
                if is_pad c4 then
                  match rest with
                  | [] => Some [b1; b2]
                  | _ :: _ => None
                  end
                else
                  match char_sextet c4, decode_chars rest with
                  | Some s4, Some tail =>
                      Some (b1 :: b2 :: ((s3 mod 4) * 64 + s4)%Z :: tail)
                  | _, _ => None
                  end
            | None => None
            end
      | _, _ => None
      end
  | _ => None
  end.

(** Modelled from the spec: [decodeBase64] of [utils/audio], the first
    step of section 4.2, "given a textually-encoded payload, decode to raw
    bytes"; text that is not padded base64 makes it throw. *)
Definition decodeBase64 {St} (base64 : string) : Js St Bytes :=
  match decode_chars (list_ascii_of_string base64) with
  | Some bytes => ret bytes
  | None => throw "InvalidCharacterError"
  end.

(** *** 16-bit PCM *)

(** The integer a number is truncated to when stored in a typed array. *)
Definition ToInteger (x : Q) : Z :=
  if Qle_bool 0 x then Qfloor x else Qceiling x.

(** The two bytes of a 16-bit integer, low byte first. *)
Definition int16_bytes (v : Z) : Bytes :=
  let u := (v mod 65536)%Z in [u mod 256; u / 256]%Z.

Definition int16_of_bytes (lo hi : Z) : Z :=
  let u := (lo + 256 * hi)%Z in
  if (u <? 32768)%Z then u else (u - 65536)%Z.

(** Modelled from the spec: the sample conversion of [createPcmBlob]
    (section 4.1), "each sample clamped to [-1, 1] then scaled to the
    signed 16-bit range": the clamped sample is scaled by 32768, truncated
    to an integer, and held within the signed 16-bit range
    [-32768, 32767], so that 1 becomes 32767. *)
Definition float_to_int16 (x : Q) : Z :=
  let s := Math_max (-1) (Math_min 1 x) in
  Z.max (-32768) (Z.min 32767 (ToInteger (s * 32768))).

Record Blob : Type := { data : string; mimeType : string }.

(** Modelled from the spec: [createPcmBlob] of [utils/audio] (section
    4.1): N samples become N little-endian 16-bit integers, wrapped in
    base64 beside the fixed MIME descriptor. *)
Definition createPcmBlob (frame : AudioFrame) : Blob :=
  {| data := encodeBase64 (flat_map int16_bytes (map float_to_int16 frame));
     mimeType := "audio/pcm;rate=16000" |}.

(** An [AudioBuffer] (one channel). *)
Record AudioBuffer : Type :=
  { channelData : list Q; sampleRate : Z }.

(** [audioBuffer.duration], in seconds. *)
Definition duration (b : AudioBuffer) : Q :=
  inject_Z (Z.of_nat (List.length (channelData b))) / inject_Z (sampleRate b).

(** Every two bytes read as one little-endian signed 16-bit integer;
    [None] when a byte is left over. *)
Fixpoint int16_view (bytes : Bytes) : option (list Z) :=
  match bytes with
  | [] => Some []
  | lo :: hi :: rest =>
      match int16_view rest with
      | Some vs => Some (int16_of_bytes lo hi :: vs)
      | None => None
      end
  | [_] => None
  end.

(** Modelled from the spec: [decodeAudioData] of [utils/audio] (section
    4.2): "reinterpret every 2 bytes as a little-endian signed 16-bit
    integer, normalize to floating-point [-1, 1]", at the given sample
    rate, mono; "fails with DecodeError if the decoded byte length is not a
    multiple of 2". *)
Definition decodeAudioData {St} (bytes : Bytes) (rate : Z) (numChannels : Z)
  : Js St AudioBuffer :=
  match int16_view bytes with
  | Some vs =>
      ret {| channelData := map (fun v => inject_Z v / 32768) vs;
             sampleRate := rate |}
  | None => throw "DecodeError"
  end.

(** [decodeAudioData(decodeBase64(payload), ctx, 24000, 1)]: what the
    session does with the payload of one message, and its result. *)
Definition decode_chunk {St} (payload : string) : Js St AudioBuffer :=
  bind (decodeBase64 payload) (fun bytes => decodeAudioData bytes 24000 1).

Definition decoded (payload : string) : Outcome AudioBuffer :=
  outcome_of (decode_chunk payload tt).

(** The distance between a sample and what comes back for it. *)
Definition sample_error (sent received : Q) : Q := Qabs (received - sent).

(** *** Predicates of the statements below *)

(** The check that one sextet survives the alphabet: its character
    reads back as the sextet and is not the padding. *)
Definition sextet_ok (k : nat) : bool :=
  let n := Z.of_nat k in
  match char_sextet (sextet_char n) with
  | Some m => Z.eqb m n && negb (is_pad (sextet_char n))
  | None => false
  end.

(** A value an [Int16Array] holds. *)
Definition is_int16 (v : Z) : Prop := (-32768 <= v <= 32767)%Z.

End Audio.

(** ** [hooks/useLiveSession] *)

Module LiveSession.

Import Num JsMonad Audio.
Local Open Scope string_scope.
Local Open Scope list_scope.
Local Open Scope Q_scope.
Local Open Scope js_scope.

(** A host object: audio context, node, stream, client, session. *)
Definition Handle : Type := nat.

(** *** The message of the remote session *)

Record InlineBlob : Type := { inline_data : option string }.
Record Part : Type := { inlineData : option InlineBlob }.
Record ModelTurn : Type := { parts : option (list Part) }.
Record ServerContent : Type :=
  { modelTurn : option ModelTurn; interrupted : option bool }.
Record LiveServerMessage : Type :=
  { serverContent : option ServerContent }.

(** [o?.f]. *)
Definition chain {A B} (o : option A) (f : A -> option B) : option B :=
  match o with
  | Some a => f a
  | None => None
  end.

(** [message.serverContent?.modelTurn?.parts?.[0]?.inlineData?.data]. *)
Definition base64Audio_of (message : LiveServerMessage) : option string :=
  chain (chain (chain (chain (chain (serverContent message) modelTurn)
                             parts)
                      (fun ps => nth_error ps 0))
               inlineData)
        inline_data.

(** Truthiness of a string-or-undefined: [undefined] and the empty string
    are falsy. *)
Definition truthy (o : option string) : option string :=
  match o with
  | Some EmptyString => None
  | other => other
  end.

(** Truthiness of [message.serverContent?.interrupted]. *)
Definition interrupted_of (message : LiveServerMessage) : bool :=
  match chain (serverContent message) interrupted with
  | Some true => true
  | _ => false
  end.

(** *** Calls into the host, in the order they are made *)

Inductive HostCall : Type :=
| console_log (text : string)
| console_error (args : list string)
| new_AudioContext (ctx : Handle) (rate : Z)
| createAnalyser (ctx analyser : Handle)
| set_fftSize (analyser : Handle) (size : Z)
| set_smoothingTimeConstant (analyser : Handle) (value : Q)
| node_connect (node target : Handle)
| node_connect_destination (node ctx : Handle)
| getUserMedia
| new_GoogleGenAI (client : Handle)
| live_connect (client session : Handle)
| createMediaStreamSource (ctx stream node : Handle)
| createScriptProcessor (ctx node : Handle) (bufferSize : Z)
| set_onaudioprocess (node : Handle)
| sendRealtimeInput (session : Handle) (media : Blob)
| createBufferSource (ctx node : Handle)
| set_buffer (node : Handle) (buffer : AudioBuffer)
| addEventListener_ended (node : Handle)
| node_start (node : Handle) (when : Q)
| node_stop (node : Handle)
| node_disconnect (node : Handle)
| tracks_stop (stream : Handle)
| context_close (ctx : Handle).

(** *** The state of the hook and of the host *)

Record World : Type :=
  { (* useState *)
    isConnected : bool;
    isSpeaking : bool;
    volume : Number;
    error : option string;
    (* useRef: audio contexts, nodes and stream *)
    inputContextRef : option Handle;
    outputContextRef : option Handle;
    scriptProcessorRef : option Handle;
    sourceNodeRef : option Handle;
    audioStreamRef : option Handle;
    inputAnalyserRef : option Handle;
    outputAnalyserRef : option Handle;
    (* useRef: audio queue *)
    nextStartTimeRef : Q;
    scheduledSourcesRef : list Handle;
    (* useRef: session *)
    sessionPromiseRef : option Handle;
    clientRef : option Handle;
    (* the host: next unused handle, calls made so far *)
    nextHandle : Handle;
    calls : list HostCall }.

Definition initial : World :=
  {| isConnected := false; isSpeaking := false; volume := zero;
     error := None;
     inputContextRef := None; outputContextRef := None;
     scriptProcessorRef := None; sourceNodeRef := None;
     audioStreamRef := None; inputAnalyserRef := None;
     outputAnalyserRef := None;
     nextStartTimeRef := 0; scheduledSourcesRef := [];
     sessionPromiseRef := None; clientRef := None;
     nextHandle := 0%nat; calls := [] |}.

Definition with_isConnected (v : bool) (w : World) : World :=
  let 'Build_World _ b c d e f g h i j k l m n o p q := w in
  Build_World v b c d e f g h i j k l m n o p q.
Definition with_isSpeaking (v : bool) (w : World) : World :=
  let 'Build_World a _ c d e f g h i j k l m n o p q := w in
  Build_World a v c d e f g h i j k l m n o p q.
Definition with_volume (v : Number) (w : World) : World :=
  let 'Build_World a b _ d e f g h i j k l m n o p q := w in
  Build_World a b v d e f g h i j k l m n o p q.
Definition with_error (v : option string) (w : World) : World :=
  let 'Build_World a b c _ e f g h i j k l m n o p q := w in
  Build_World a b c v e f g h i j k l m n o p q.
Definition with_inputContextRef (v : option Handle) (w : World) : World :=
  let 'Build_World a b c d _ f g h i j k l m n o p q := w in
  Build_World a b c d v f g h i j k l m n o p q.
Definition with_outputContextRef (v : option Handle) (w : World) : World :=
  let 'Build_World a b c d e _ g h i j k l m n o p q := w in
  Build_World a b c d e v g h i j k l m n o p q.
Definition with_scriptProcessorRef (v : option Handle) (w : World) : World :=
  let 'Build_World a b c d e f _ h i j k l m n o p q := w in
  Build_World a b c d e f v h i j k l m n o p q.
Definition with_sourceNodeRef (v : option Handle) (w : World) : World :=
  let 'Build_World a b c d e f g _ i j k l m n o p q := w in
  Build_World a b c d e f g v i j k l m n o p q.
Definition with_audioStreamRef (v : option Handle) (w : World) : World :=
  let 'Build_World a b c d e f g h _ j k l m n o p q := w in
  Build_World a b c d e f g h v j k l m n o p q.
Definition with_inputAnalyserRef (v : option Handle) (w : World) : World :=
  let 'Build_World a b c d e f g h i _ k l m n o p q := w in
  Build_World a b c d e f g h i v k l m n o p q.
Definition with_outputAnalyserRef (v : option Handle) (w : World) : World :=
  let 'Build_World a b c d e f g h i j _ l m n o p q := w in
  Build_World a b c d e f g h i j v l m n o p q.
Definition with_nextStartTimeRef (v : Q) (w : World) : World :=
  let 'Build_World a b c d e f g h i j k _ m n o p q := w in
  Build_World a b c d e f g h i j k v m n o p q.
Definition with_scheduledSourcesRef (v : list Handle) (w : World) : World :=
  let 'Build_World a b c d e f g h i j k l _ n o p q := w in
  Build_World a b c d e f g h i j k l v n o p q.
Definition with_sessionPromiseRef (v : option Handle) (w : World) : World :=
  let 'Build_World a b c d e f g h i j k l m _ o p q := w in
  Build_World a b c d e f g h i j k l m v o p q.
Definition with_clientRef (v : option Handle) (w : World) : World :=
  let 'Build_World a b c d e f g h i j k l m n _ p q := w in
  Build_World a b c d e f g h i j k l m n v p q.
Definition with_nextHandle (v : Handle) (w : World) : World :=
  let 'Build_World a b c d e f g h i j k l m n o _ q := w in
  Build_World a b c d e f g h i j k l m n o v q.
Definition with_calls (v : list HostCall) (w : World) : World :=
  let 'Build_World a b c d e f g h i j k l m n o p _ := w in
  Build_World a b c d e f g h i j k l m n o p v.

(** What the host decides when a handler runs. *)
Record Host : Type :=
  { (* process.env.API_KEY *)
    API_KEY : option string;
    (* outputContext.currentTime, in seconds *)
    currentTime : Q;
    (* navigator.mediaDevices.getUserMedia: granted, or rejected with a
       message *)
    microphone : Outcome unit;
    (* whether source.stop() throws for this node *)
    stop_throws : Handle -> bool }.

(** *** Host primitives *)

Definition call (c : HostCall) : Js World unit :=
  modify (fun w => with_calls (calls w ++ [c]) w).

(** A new host object. *)
Definition fresh : Js World Handle :=
  fun w => (Returned (nextHandle w), with_nextHandle (S (nextHandle w)) w).

(** A JavaScript [Set], in insertion order. *)
Definition Set_has (x : Handle) (s : list Handle) : bool :=
  existsb (Nat.eqb x) s.
Definition Set_add (x : Handle) (s : list Handle) : list Handle :=
  if Set_has x s then s else s ++ [x].
Definition Set_delete (x : Handle) (s : list Handle) : list Handle :=
  filter (fun y => negb (Nat.eqb x y)) s.
Definition Set_size (s : list Handle) : nat := List.length s.

(** [source.stop()]. *)
Definition source_stop (host : Host) (source : Handle) : Js World unit :=
  call (node_stop source) ;;
  if stop_throws host source then throw "InvalidStateError" else ret tt.

(** [scheduledSourcesRef.current.forEach(s => { try { s.stop(); }
    catch (e) {} })]. *)
Definition stop_all (host : Host) : Js World unit :=
  sources <- gets scheduledSourcesRef ;;
  for_each sources
    (fun s => try_catch (source_stop host s) (fun _ => ret tt)).

(** *** [cleanup] (also exported as [disconnect]) *)

Definition cleanup (host : Host) : Js World unit :=
  processor <- gets scriptProcessorRef ;;
  when_some processor
    (fun p => call (node_disconnect p) ;;
              modify (with_scriptProcessorRef None)) ;;
  sourceNode <- gets sourceNodeRef ;;
  when_some sourceNode
    (fun n => call (node_disconnect n) ;;
              modify (with_sourceNodeRef None)) ;;
  stream <- gets audioStreamRef ;;
  when_some stream
    (fun st => call (tracks_stop st) ;;
               modify (with_audioStreamRef None)) ;;
  stop_all host ;;
  modify (with_scheduledSourcesRef []) ;;
  inputContext <- gets inputContextRef ;;
  when_some inputContext
    (fun c => call (context_close c) ;;
              modify (with_inputContextRef None)) ;;
  outputContext <- gets outputContextRef ;;
  when_some outputContext
    (fun c => call (context_close c) ;;
              modify (with_outputContextRef None)) ;;
  modify (with_inputAnalyserRef None) ;;
  modify (with_outputAnalyserRef None) ;;
  modify (with_isConnected false) ;;
  modify (with_isSpeaking false) ;;
  modify (with_volume zero) ;;
  modify (with_nextStartTimeRef 0).

(** *** The callbacks registered by [connect] *)

Definition onopen : Js World unit :=
  call (console_log "Live Session Opened") ;;
  modify (with_isConnected true) ;;
  inputContext <- gets inputContextRef ;;
  stream <- gets audioStreamRef ;;
  match inputContext, stream with
  | Some ctx, Some st =>
      source <- fresh ;;
      call (createMediaStreamSource ctx st source) ;;
      modify (with_sourceNodeRef (Some source)) ;;
      analyser <- gets inputAnalyserRef ;;
      when_some analyser (fun a => call (node_connect source a)) ;;
      processor <- fresh ;;
      call (createScriptProcessor ctx processor 4096) ;;
      modify (with_scriptProcessorRef (Some processor)) ;;
      call (set_onaudioprocess processor) ;;
      call (node_connect source processor) ;;
      call (node_connect_destination processor ctx)
  | _, _ => ret tt
  end.

(** The loudness of one block: [sum] accumulates the squares, then
    [Math.sqrt(sum / inputData.length)].  The processor delivers blocks of
    4096 samples; for an empty block the quotient is 0/0, which is [NaN],
    and so is its square root. *)
Definition block_rms (inputData : AudioFrame) : Number :=
  let sum := fold_left (fun acc x => acc + x * x) inputData 0 in
  Math_sqrt (mean sum (List.length inputData)).

(** [processor.onaudioprocess], on one block of captured samples. *)
Definition onaudioprocess (inputData : AudioFrame) : Js World unit :=
  let rms := block_rms inputData in
  modify (fun w => with_volume (raised (volume w) rms) w) ;;
  let pcmBlob := createPcmBlob inputData in
  session <- gets sessionPromiseRef ;;
  when_some session (fun p => call (sendRealtimeInput p pcmBlob)).

(** The ['ended'] listener of one playback node. *)
Definition onended (source : Handle) : Js World unit :=
  modify (fun w =>
            with_scheduledSourcesRef
              (Set_delete source (scheduledSourcesRef w)) w) ;;
  sources <- gets scheduledSourcesRef ;;
  when (Nat.eqb (Set_size sources) 0) (modify (with_isSpeaking false)).

(** The audio branch of [onmessage], for a payload and the output
    context at hand. *)
Definition enqueue (host : Host) (payload : string) (ctx : Handle)
  : Js World unit :=
  modify (with_isSpeaking true) ;;
  modify (fun w =>
            with_nextStartTimeRef
              (Math_max (nextStartTimeRef w) (currentTime host)) w) ;;
  try_catch
    (audioBuffer <- decode_chunk payload ;;
     source <- fresh ;;
     call (createBufferSource ctx source) ;;
     call (set_buffer source audioBuffer) ;;
     analyser <- gets outputAnalyserRef ;;
     match analyser with
     | Some a => call (node_connect source a)
     | None => call (node_connect_destination source ctx)
     end ;;
     call (addEventListener_ended source) ;;
     startTime <- gets nextStartTimeRef ;;
     call (node_start source startTime) ;;
     modify (fun w =>
               with_scheduledSourcesRef
                 (Set_add source (scheduledSourcesRef w)) w) ;;
     modify (fun w =>
               with_nextStartTimeRef
                 (nextStartTimeRef w + duration audioBuffer) w))
    (fun err => call (console_error ["Audio decode error"; err])).

(** The interruption branch of [onmessage]. *)
Definition interrupt (host : Host) : Js World unit :=
  call (console_log "Model interrupted") ;;
  stop_all host ;;
  modify (with_scheduledSourcesRef []) ;;
  modify (with_nextStartTimeRef 0) ;;
  modify (with_isSpeaking false).

Definition onmessage (host : Host) (message : LiveServerMessage)
  : Js World unit :=
  let base64Audio := base64Audio_of message in
  outputContext <- gets outputContextRef ;;
  match truthy base64Audio, outputContext with
  | Some payload, Some ctx => enqueue host payload ctx
  | _, _ => ret tt
  end ;;
  when (interrupted_of message) (interrupt host).

Definition onclose (host : Host) : Js World unit :=
  call (console_log "Live Session Closed") ;;
  cleanup host.

Definition onerror (host : Host) (err : string) : Js World unit :=
  call (console_error ["Live Session Error"; err]) ;;
  modify (with_error (Some "Connection error. Please try again.")) ;;
  cleanup host.

(** *** [connect] *)

(** [e.message || "Failed to connect microphone"]. *)
Definition message_or_default (e : string) : string :=
  match e with
  | EmptyString => "Failed to connect microphone"
  | _ => e
  end.

Definition connect (host : Host) : Js World unit :=
  match truthy (API_KEY host) with
  | None => modify (with_error (Some "API Key missing"))
  | Some apiKey =>
      try_catch
        (modify (with_error None) ;;
         inputContext <- fresh ;;
         call (new_AudioContext inputContext 16000) ;;
         modify (with_inputContextRef (Some inputContext)) ;;
         inputAnalyser <- fresh ;;
         call (createAnalyser inputContext inputAnalyser) ;;
         modify (with_inputAnalyserRef (Some inputAnalyser)) ;;
         call (set_fftSize inputAnalyser 512) ;;
         call (set_smoothingTimeConstant inputAnalyser (1 # 2)) ;;
         outputContext <- fresh ;;
         call (new_AudioContext outputContext 24000) ;;
         modify (with_outputContextRef (Some outputContext)) ;;
         outputAnalyser <- fresh ;;
         call (createAnalyser outputContext outputAnalyser) ;;
         modify (with_outputAnalyserRef (Some outputAnalyser)) ;;
         call (set_fftSize outputAnalyser 512) ;;
         call (set_smoothingTimeConstant outputAnalyser (1 # 2)) ;;
         call (node_connect_destination outputAnalyser outputContext) ;;
         call getUserMedia ;;
         match microphone host with
         | Returned _ => ret tt
         | Thrown e => throw e
         end ;;
         stream <- fresh ;;
         modify (with_audioStreamRef (Some stream)) ;;
         client <- fresh ;;
         call (new_GoogleGenAI client) ;;
         modify (with_clientRef (Some client)) ;;
         session <- fresh ;;
         call (live_connect client session) ;;
         modify (with_sessionPromiseRef (Some session)))
        (fun e =>
           call (console_error [e]) ;;
           modify (with_error (Some (message_or_default e))) ;;
           cleanup host)
  end.

(** *** The session as a transition system *)

Inductive Event : Type :=
| Connect
| Disconnect
| OnOpen
| OnMessage (message : LiveServerMessage)
| OnClose
| OnError (err : string)
| AudioProcess (inputData : AudioFrame)
| Ended (source : Handle).

Definition dispatch (host : Host) (ev : Event) : Js World unit :=
  match ev with
  | Connect => connect host
  | Disconnect => cleanup host
  | OnOpen => onopen
  | OnMessage message => onmessage host message
  | OnClose => onclose host
  | OnError err => onerror host err
  | AudioProcess inputData => onaudioprocess inputData
  | Ended source => onended source
  end.

Definition step (w : World) (occurrence : Host * Event) : World :=
  state_of (dispatch (fst occurrence) (snd occurrence) w).

(** The state after a sequence of handler runs. *)
Definition run (trace : list (Host * Event)) (w : World) : World :=
  fold_left step trace w.

Definition reachable (w : World) : Prop :=
  exists trace, w = run trace initial.

(** *** What the statements below observe *)

(** The calls made between two states of one run. *)
Definition calls_since (before after : World) : list HostCall :=
  skipn (List.length (calls before)) (calls after).

(** The times at which playback nodes were asked to start, in order. *)
Definition start_times (cs : list HostCall) : list Q :=
  flat_map (fun c => match c with
                     | node_start _ t => [t]
                     | _ => []
                     end) cs.

Definition opt_call (c : Handle -> HostCall) (ref : option Handle)
  : list HostCall :=
  match ref with
  | Some h => [c h]
  | None => []
  end.

(** The releases [cleanup] owes in a state: one per resource held. *)
Definition releases (w : World) : list HostCall :=
  opt_call node_disconnect (scriptProcessorRef w)
  ++ opt_call node_disconnect (sourceNodeRef w)
  ++ opt_call tracks_stop (audioStreamRef w)
  ++ map node_stop (scheduledSourcesRef w)
  ++ opt_call context_close (inputContextRef w)
  ++ opt_call context_close (outputContextRef w).

(** The buffer a message plays: its payload, when it has one that
    decodes. *)
Definition chunk_buffer (message : LiveServerMessage)
  : option AudioBuffer :=
  match truthy (base64Audio_of message) with
  | Some payload =>
      match decoded payload with
      | Returned buffer => Some buffer
      | Thrown _ => None
      end
  | None => None
  end.

Definition chunk_duration (message : LiveServerMessage) : Q :=
  match chunk_buffer message with
  | Some buffer => duration buffer
  | None => 0
  end.

(** An audio message that decodes and does not interrupt. *)
Definition plays (message : LiveServerMessage) : Prop :=
  chunk_buffer message <> None /\ interrupted_of message = false.

(** A message whose payload does not decode, and which does not
    interrupt. *)
Definition corrupt (message : LiveServerMessage) (err : string) : Prop :=
  (exists payload, truthy (base64Audio_of message) = Some payload
                   /\ decoded payload = Thrown err)
  /\ interrupted_of message = false.

Definition message_event (occurrence : Host * LiveServerMessage)
  : Host * Event :=
  (fst occurrence, OnMessage (snd occurrence)).

(** Every message of the sequence arrives before the output clock has
    passed the end of the timeline. *)
Fixpoint on_time (w : World) (chunks : list (Host * LiveServerMessage))
  : Prop :=
  match chunks with
  | [] => True
  | chunk :: later =>
      currentTime (fst chunk) <= nextStartTimeRef w
      /\ on_time (step w (message_event chunk)) later
  end.

(** No buffer starts before the one before it has ended, and a buffer
    whose message arrived before that end starts exactly at it. *)
Fixpoint back_to_back (arrivals starts durations : list Q) : Prop :=
  match arrivals, starts, durations with
  | _ :: ((t' :: _) as ts), s :: ((s' :: _) as later), d :: ds =>
      s + d <= s'
      /\ (t' <= s + d -> s' == s + d)
      /\ back_to_back ts later ds
  | _, _, _ => True
  end.

(** Each buffer starts when the one before it ends. *)
Fixpoint gapless (starts durations : list Q) : Prop :=
  match starts, durations with
  | s :: ((s' :: _) as later), d :: ds => s' == s + d /\ gapless later ds
  | _, _ => True
  end.

(** What holds in every state of a session (see [invariant_reachable]). *)
Record Invariant (w : World) : Prop :=
  { scheduled_once : NoDup (scheduledSourcesRef w);
    contexts_differ :
      forall a b, inputContextRef w = Some a ->
                  outputContextRef w = Some b -> a <> b;
    nodes_differ :
      forall a b, scriptProcessorRef w = Some a ->
                  sourceNodeRef w = Some b -> a <> b;
    speaking_while_scheduled :
      scheduledSourcesRef w <> [] -> isSpeaking w = true;
    volume_nonneg : not_negative (volume w) }.

(** An event whose audio payload, if it is a message with one, decodes. *)
Definition decodes (ev : Event) : Prop :=
  match ev with
  | OnMessage message =>
      match truthy (base64Audio_of message) with
      | Some payload => exists buffer, decoded payload = Returned buffer
      | None => True
      end
  | _ => True
  end.

(** An occurrence of the capture callback delivers samples: the processor
    is created with blocks of 4096. *)
Definition captures_samples (occurrence : Host * Event) : Prop :=
  match snd occurrence with
  | AudioProcess inputData => inputData <> []
  | _ => True
  end.

(** [isSpeaking] only while something is scheduled. *)
Definition silent_when_idle (w : World) : Prop :=
  isSpeaking w = true -> scheduledSourcesRef w <> [].

(** A message that carries audio and nothing else. *)
Definition audio_message (payload : string) (stop : option bool)
  : LiveServerMessage :=
  {| serverContent :=
       Some {| modelTurn :=
                 Some {| parts :=
                           Some [ {| inlineData :=
                                       Some {| inline_data := Some payload |}
                                  |} ] |};
               interrupted := stop |} |}.

(** A message that only signals an interruption. *)
Definition interrupt_message : LiveServerMessage :=
  {| serverContent := Some {| modelTurn := None; interrupted := Some true |} |}.

(** *** Sample hosts and states *)

(** A browser with a key configured and a microphone that is granted,
    whose output clock reads [t]. *)
Definition browser (t : Q) : Host :=
  {| API_KEY := Some "key"; currentTime := t;
     microphone := Returned tt; stop_throws := fun _ => false |}.

(** A browser with no key configured. *)
Definition browser_without_key : Host :=
  {| API_KEY := None; currentTime := 0;
     microphone := Returned tt; stop_throws := fun _ => false |}.

(** The session once connected and opened. *)
Definition open_session : World :=
  run [(browser 0, Connect); (browser 0, OnOpen)] initial.

(** Two samples of silence; and one byte, which is not a whole sample. *)
Definition silence_payload : string := "AAAAAA==".
Definition corrupt_payload : string := "AA==".

(** Three chunks of two samples each, the output clock advancing by one
    sample between arrivals. *)
Definition first_chunk : Host * LiveServerMessage :=
  (browser 1, audio_message silence_payload None).
Definition later_chunks : list (Host * LiveServerMessage) :=
  [(browser (24001 # 24000), audio_message silence_payload None);
   (browser (24002 # 24000), audio_message silence_payload None)].

(** The open session with two buffers scheduled. *)
Definition playing_session : World :=
  run [(browser 1, OnMessage (audio_message silence_payload None));
       (browser 1, OnMessage (audio_message silence_payload None))]
      open_session.

(** *** Closed forms and relations of the statements below *)

(** The state [cleanup] leaves. *)
Definition cleaned (w : World) : World :=
  {| isConnected := false; isSpeaking := false; volume := zero;
     error := error w;
     inputContextRef := None; outputContextRef := None;
     scriptProcessorRef := None; sourceNodeRef := None;
     audioStreamRef := None; inputAnalyserRef := None;
     outputAnalyserRef := None;
     nextStartTimeRef := 0; scheduledSourcesRef := [];
     sessionPromiseRef := sessionPromiseRef w; clientRef := clientRef w;
     nextHandle := nextHandle w;
     calls := calls w ++ releases w |}.

(** The calls that schedule one decoded buffer. *)
Definition scheduling (w : World) (ctx : Handle) (buffer : AudioBuffer)
           (startTime : Q) : list HostCall :=
  [createBufferSource ctx (nextHandle w);
   set_buffer (nextHandle w) buffer;
   match outputAnalyserRef w with
   | Some a => node_connect (nextHandle w) a
   | None => node_connect_destination (nextHandle w) ctx
   end;
   addEventListener_ended (nextHandle w);
   node_start (nextHandle w) startTime].

(** The state after the audio branch of [onmessage]. *)
Definition after_audio (host : Host) (message : LiveServerMessage)
           (w : World) : World :=
  match truthy (base64Audio_of message), outputContextRef w with
  | Some payload, Some ctx => state_of (enqueue host payload ctx w)
  | _, _ => w
  end.

(** Each buffer of [starts] begins where the timeline ended before it. *)
Fixpoint follows (timeline_end : Q) (starts durations : list Q) : Prop :=
  match starts, durations with
  | [], [] => True
  | s :: ss, d :: ds => s == timeline_end /\ follows (s + d) ss ds
  | _, _ => False
  end.

(** Each start is the maximum of the timeline's end and the arrival. *)
Fixpoint follows_max (timeline_end : Q) (arrivals starts durations : list Q)
  : Prop :=
  match arrivals, starts, durations with
  | [], [], [] => True
  | t :: ts, s :: ss, d :: ds =>
      s = Math_max timeline_end t /\ follows_max (s + d) ts ss ds
  | _, _, _ => False
  end.

(** Everything but [isSpeaking], the timeline and the log. *)
Definition rest_of (w : World) : World :=
  with_isSpeaking false (with_nextStartTimeRef 0 (with_calls [] w)).

(** Two sessions that differ at most in [isSpeaking], in the log, and in a
    timeline that one of them has moved up to a clock reading [c] already
    past. *)
Definition agree (c : Q) (wa wb : World) : Prop :=
  rest_of wa = rest_of wb
  /\ (nextStartTimeRef wa == nextStartTimeRef wb
      \/ (nextStartTimeRef wb <= nextStartTimeRef wa
          /\ nextStartTimeRef wa <= c)).

(** The two sessions take the same step: the starts they ask for are
    equal and they still agree. *)
Definition same_step (c : Q) (wa wb wa' wb' : World) : Prop :=
  exists ma mb,
    calls wa' = calls wa ++ ma
    /\ calls wb' = calls wb ++ mb
    /\ Forall2 Qeq (start_times ma) (start_times mb)
    /\ agree c wa' wb'.

End LiveSession.

(** ** The visualizer loop of [components/VoiceView.tsx] *)

Module Visualizer.

Import Num JsMonad.
Local Open Scope string_scope.
Local Open Scope Q_scope.
Local Open Scope js_scope.

(** What [render] closes over: the hook's values at the time the effect
    ran. *)
Record Props : Type :=
  { isConnected : bool;
    isSpeaking : bool;
    inputAnalyser : option LiveSession.Handle;
    outputAnalyser : option LiveSession.Handle }.

(** Calls on the canvas, its 2d context, the analyser and the window.
    Points on a curve are named by the loop index (degrees), their
    coordinates being sines and cosines. *)
Inductive CanvasCall : Type :=
| set_canvas_size
| clearRect
| getByteFrequencyData (analyser : LiveSession.Handle)
| createRadialGradient (r0 r1 : Q)
| addColorStop (offset : Q)
| beginPath
| arc (radius : Q)
| set_fillStyle
| fill
| moveTo (degrees : nat)
| lineTo (degrees : nat)
| closePath
| set_strokeStyle
| set_lineWidth (width : Q)
| stroke
| requestAnimationFrame (request : nat)
| cancelAnimationFrame (request : nat).

(** What the host decides during one tick. *)
Record Host : Type :=
  { (* the bytes [getByteFrequencyData] writes, one per frequency bin *)
    frequencyData : list Z;
    (* whether this canvas call throws *)
    throws : CanvasCall -> bool }.

Record Screen : Type :=
  { animationRef : nat;
    timeRef : Q;
    (* the frame request the window still holds, if any *)
    pendingFrame : option nat;
    nextRequest : nat;
    drawn : list CanvasCall }.

Definition initial : Screen :=
  {| animationRef := 0; timeRef := 0; pendingFrame := None;
     nextRequest := 1; drawn := [] |}.

(** One call into the host: it throws or is carried out. *)
Definition canvas (host : Host) (c : CanvasCall) : Js Screen unit :=
  if throws host c then throw "canvas call failed"
  else modify (fun s =>
                 {| animationRef := animationRef s; timeRef := timeRef s;
                    pendingFrame := pendingFrame s;
                    nextRequest := nextRequest s;
                    drawn := drawn s ++ [c] |}).

(** [animationRef.current = requestAnimationFrame(render)]. *)
Definition request_next_frame (host : Host) : Js Screen unit :=
  request <- gets nextRequest ;;
  canvas host (requestAnimationFrame request) ;;
  modify (fun s =>
            {| animationRef := request; timeRef := timeRef s;
               pendingFrame := Some request;
               nextRequest := S request;
               drawn := drawn s |}).

(** The three band sums of the loop over [dataArray]:
    [i < range * 0.1] is bass, [i < range * 0.5] is mids, the rest treble. *)
Fixpoint band_sums (range : Q) (i : nat) (dataArray : list Z)
         (acc : Q * Q * Q) : Q * Q * Q :=
  match dataArray with
  | [] => acc
  | val :: rest =>
      let '(bass, mids, treble) := acc in
      let idx := inject_Z (Z.of_nat i) in
      band_sums range (S i) rest
        (if Qlt_le_dec idx (range * (1 # 10))
         then (bass + inject_Z val, mids, treble)
         else if Qlt_le_dec idx (range * (1 # 2))
              then (bass, mids + inject_Z val, treble)
              else (bass, mids, treble + inject_Z val))
  end.

(** [nBass], [nMids], [nTreble]. *)
Definition bands (dataArray : list Z) : Q * Q * Q :=
  match dataArray with
  | [] => (0, 0, 0)
  | _ :: _ =>
      let range := inject_Z (Z.of_nat (List.length dataArray)) in
      let '(bass, mids, treble) := band_sums range 0 dataArray (0, 0, 0) in
      (bass / (range * (1 # 10)) / 255,
       mids / (range * (4 # 10)) / 255,
       treble / (range * (1 # 2)) / 255)
  end.

(** [for (let i = 0; i <= 360; i += stride)]: the values of [i]. *)
Definition degrees (stride : nat) : list nat :=
  map (fun k => (k * stride)%nat) (seq 0 (S (360 / stride))).

Definition trace_curve (host : Host) (stride : nat) : Js Screen unit :=
  for_each (degrees stride)
    (fun i => if Nat.eqb i 0 then canvas host (moveTo i)
              else canvas host (lineTo i)).

Definition drawBlob (host : Host) : Js Screen unit :=
  canvas host beginPath ;;
  canvas host set_fillStyle ;;
  trace_curve host 2 ;;
  canvas host closePath ;;
  canvas host fill.

(** The statements of [render] before its last one: what one tick
    draws. *)
Definition draw (host : Host) (props : Props) : Js Screen unit :=
  canvas host set_canvas_size ;;
  canvas host clearRect ;;
  modify (fun s =>
            {| animationRef := animationRef s;
               timeRef := timeRef s + (1 # 100);
               pendingFrame := pendingFrame s;
               nextRequest := nextRequest s;
               drawn := drawn s |}) ;;
  (if isConnected props then
     let activeAnalyser :=
       if isSpeaking props then outputAnalyser props
       else inputAnalyser props in
     dataArray <-
       match activeAnalyser with
       | Some a =>
           canvas host (getByteFrequencyData a) ;; ret (frequencyData host)
       | None => ret []
       end ;;
     let '(nBass, nMids, nTreble) := bands dataArray in
     let baseRadius := 60 + nBass * 40 in
     (* 1. outer glow *)
     canvas host (createRadialGradient (baseRadius * (1 # 2))
                                       (baseRadius * 2 + nBass * 50)) ;;
     canvas host (addColorStop 0) ;;
     canvas host (addColorStop 1) ;;
     canvas host beginPath ;;
     canvas host (arc (baseRadius * 2)) ;;
     canvas host set_fillStyle ;;
     canvas host fill ;;
     (* 2. the two layers of the blob *)
     drawBlob host ;;
     drawBlob host ;;
     (* 3. the ring *)
     canvas host beginPath ;;
     canvas host set_strokeStyle ;;
     canvas host (set_lineWidth 2) ;;
     trace_curve host 1 ;;
     canvas host closePath ;;
     canvas host stroke
   else
     canvas host beginPath ;;
     canvas host (arc 50) ;;
     canvas host set_fillStyle ;;
     canvas host fill ;;
     canvas host set_strokeStyle ;;
     canvas host (set_lineWidth 1) ;;
     canvas host beginPath ;;
     canvas host (arc 60) ;;
     canvas host stroke).

(** [render]: one tick of the loop.  The request for the next frame is
    its last statement, and no statement of it is inside a [try]. *)
Definition render (host : Host) (props : Props) : Js Screen unit :=
  draw host props ;;
  request_next_frame host.

(** A display refresh: the window runs the callback it holds, once. *)
Definition frame (host : Host) (props : Props) : Js Screen unit :=
  pending <- gets pendingFrame ;;
  match pending with
  | Some _ =>
      modify (fun s =>
                {| animationRef := animationRef s; timeRef := timeRef s;
                   pendingFrame := None;
                   nextRequest := nextRequest s;
                   drawn := drawn s |}) ;;
      render host props
  | None => ret tt
  end.

(** The effect's cleanup: [cancelAnimationFrame(animationRef.current)]. *)
Definition cancel (host : Host) : Js Screen unit :=
  request <- gets animationRef ;;
  canvas host (cancelAnimationFrame request) ;;
  modify (fun s =>
            {| animationRef := animationRef s; timeRef := timeRef s;
               pendingFrame :=
                 match pendingFrame s with
                 | Some r => if Nat.eqb r request then None else Some r
                 | None => None
                 end;
               nextRequest := nextRequest s;
               drawn := drawn s |}).

(** The screen after a sequence of display refreshes; an exception that
    leaves a callback is reported by the window and the screen is kept. *)
Definition refresh (props : Props) (s : Screen) (host : Host) : Screen :=
  state_of (frame host props s).

Definition refreshes (props : Props) (hosts : list Host) (s : Screen)
  : Screen :=
  fold_left (refresh props) hosts s.

(** *** Sample hosts and screens *)

(** A canvas on which every call succeeds, with four frequency bins. *)
Definition sound_canvas : Host :=
  {| frequencyData := [200; 100; 50; 25]%Z; throws := fun _ => false |}.

(** A canvas whose [createRadialGradient] throws. *)
Definition failing_canvas : Host :=
  {| frequencyData := [200; 100; 50; 25]%Z;
     throws := fun c => match c with
                        | createRadialGradient _ _ => true
                        | _ => false
                        end |}.

Definition listening : Props :=
  {| isConnected := true; isSpeaking := false;
     inputAnalyser := Some 1%nat; outputAnalyser := Some 3%nat |}.

(** The screen after the effect has run [render] once. *)
Definition started : Screen :=
  state_of (render sound_canvas listening initial).

(** *** Predicates of the statements below *)

(** A block of statements that leaves the frame request alone, whether it
    returns or throws. *)
Definition quiet {A} (m : Js Screen A) : Prop :=
  forall s,
    pendingFrame (state_of (m s)) = pendingFrame s
    /\ nextRequest (state_of (m s)) = nextRequest s.

End Visualizer.

(** ** Scenarios of a session *)

Module SessionTraces.
Import Num JsMonad Audio LiveSession.
Local Open Scope string_scope.
Local Open Scope list_scope.
Local Open Scope Q_scope.

(** The calls with which [connect] builds the two contexts and their
    analysers, ending with the request for the microphone. *)
Definition acquisition (n : Handle) : list HostCall :=
  [new_AudioContext n 16000;
   createAnalyser n (S n);
   set_fftSize (S n) 512;
   set_smoothingTimeConstant (S n) (1 # 2);
   new_AudioContext (S (S n)) 24000;
   createAnalyser (S (S n)) (S (S (S n)));
   set_fftSize (S (S (S n))) 512;
   set_smoothingTimeConstant (S (S (S n))) (1 # 2);
   node_connect_destination (S (S (S n))) (S (S n));
   getUserMedia].

(** A browser whose user refuses the microphone. *)
Definition browser_without_microphone : Host :=
  {| API_KEY := Some "key"; currentTime := 0;
     microphone := Thrown "Permission denied";
     stop_throws := fun _ => false |}.

(** The ['ended'] events of the given playback nodes, in order. *)
Definition ended_events (host : Host) (sources : list Handle)
  : list (Host * Event) :=
  map (fun source => (host, Ended source)) sources.

(** A captured block whose samples are in the nominal range of a
    [Float32Array] of audio, -1 to 1. *)
Definition within_unit (inputData : AudioFrame) : Prop :=
  Forall (fun x => -1 <= x <= 1) inputData.

(** A captured block has samples, all of them in that range. *)
Definition capture_within_unit (occurrence : Host * Event) : Prop :=
  match snd occurrence with
  | AudioProcess inputData => inputData <> [] /\ within_unit inputData
  | _ => True
  end.

(** The audio contexts closed by a stretch of the log, in order. *)
Definition closed (cs : list HostCall) : list Handle :=
  flat_map (fun c => match c with
                     | context_close h => [h]
                     | _ => []
                     end) cs.

(** The audio contexts created by a stretch of the log, in order. *)
Definition created (cs : list HostCall) : list Handle :=
  flat_map (fun c => match c with
                     | new_AudioContext h _ => [h]
                     | _ => []
                     end) cs.

Definition held (ref : option Handle) : list Handle :=
  match ref with
  | Some h => [h]
  | None => []
  end.

(** The bookkeeping of audio contexts in a state: what the log has closed
    it has closed once and had created; the contexts the refs hold were
    created, are still open, and are two different ones. *)
Record Tidy (w : World) : Prop :=
  { closed_once : NoDup (closed (calls w));
    closed_known : forall h, In h (closed (calls w)) -> (h < nextHandle w)%nat;
    closed_created : incl (closed (calls w)) (created (calls w));
    held_open :
      forall h, In h (held (inputContextRef w) ++ held (outputContextRef w)) ->
                (h < nextHandle w)%nat
                /\ ~ In h (closed (calls w))
                /\ In h (created (calls w));
    held_differ : NoDup (held (inputContextRef w) ++ held (outputContextRef w)) }.

(** What one handler does to the contexts: nothing; or it closes the ones
    held and empties the refs; or it creates two and holds them; or it
    creates two and closes them at once. *)
Definition context_effect (w w' : World) (made : list HostCall) : Prop :=
  (closed made = [] /\ created made = []
   /\ inputContextRef w' = inputContextRef w
   /\ outputContextRef w' = outputContextRef w)
  \/ (closed made = held (inputContextRef w) ++ held (outputContextRef w)
      /\ created made = []
      /\ inputContextRef w' = None /\ outputContextRef w' = None)
  \/ (closed made = []
      /\ created made = [nextHandle w; S (S (nextHandle w))]
      /\ inputContextRef w' = Some (nextHandle w)
      /\ outputContextRef w' = Some (S (S (nextHandle w)))
      /\ (S (S (nextHandle w)) < nextHandle w')%nat)
  \/ (closed made = [nextHandle w; S (S (nextHandle w))]
      /\ created made = [nextHandle w; S (S (nextHandle w))]
      /\ inputContextRef w' = None /\ outputContextRef w' = None
      /\ (S (S (nextHandle w)) < nextHandle w')%nat).

(** A context that no ref holds any more and that was not closed. *)
Definition orphaned (h : Handle) (w : World) : Prop :=
  (h < nextHandle w)%nat
  /\ ~ In h (closed (calls w))
  /\ ~ In h (held (inputContextRef w) ++ held (outputContextRef w)).

End SessionTraces.

(** ** [hooks/useLiveSession]: the handlers split at their [await]s

  [onmessage] suspends at [await decodeAudioData(...)] and [connect] at
  [await navigator.mediaDevices.getUserMedia(...)]; other handlers can
  run before they go on.  Here each of the two is cut in two at that
  point: what runs when the handler is called, and what runs when the
  awaited promise has settled.  Run one right after the other, the two
  halves are the handler of [LiveSession] (see [onmessage_split] and
  [connect_split]). *)

Module Overlap.

Import Num JsMonad Audio LiveSession SessionTraces.
Local Open Scope string_scope.
Local Open Scope list_scope.
Local Open Scope Q_scope.
Local Open Scope js_scope.

(** What a suspended handler goes on with. *)
Inductive Pending : Type :=
| message_decode (message : LiveServerMessage) (payload : string)
                 (ctx : Handle)
| microphone_prompt.

(** The audio branch of [onmessage] up to its [await]. *)
Definition enqueue_begin (host : Host) : Js World unit :=
  modify (with_isSpeaking true) ;;
  modify (fun w =>
            with_nextStartTimeRef
              (Math_max (nextStartTimeRef w) (currentTime host)) w).

(** The audio branch of [onmessage] from its [await] on: the rest of the
    [try] block, and its [catch]. *)
Definition enqueue_resume (payload : string) (ctx : Handle)
  : Js World unit :=
  try_catch
    (audioBuffer <- decode_chunk payload ;;
     source <- fresh ;;
     call (createBufferSource ctx source) ;;
     call (set_buffer source audioBuffer) ;;
     analyser <- gets outputAnalyserRef ;;
     match analyser with
     | Some a => call (node_connect source a)
     | None => call (node_connect_destination source ctx)
     end ;;
     call (addEventListener_ended source) ;;
     startTime <- gets nextStartTimeRef ;;
     call (node_start source startTime) ;;
     modify (fun w =>
               with_scheduledSourcesRef
                 (Set_add source (scheduledSourcesRef w)) w) ;;
     modify (fun w =>
               with_nextStartTimeRef
                 (nextStartTimeRef w + duration audioBuffer) w))
    (fun err => call (console_error ["Audio decode error"; err])).

(** [onmessage] when it is called: with audio and an output context it
    runs up to the [await] and suspends; otherwise nothing in it awaits,
    and it runs to its end. *)
Definition onmessage_begin (host : Host) (message : LiveServerMessage)
  : Js World (option Pending) :=
  let base64Audio := base64Audio_of message in
  outputContext <- gets outputContextRef ;;
  match truthy base64Audio, outputContext with
  | Some payload, Some ctx =>
      enqueue_begin host ;;
      ret (Some (message_decode message payload ctx))
  | _, _ =>
      when (interrupted_of message) (interrupt host) ;;
      ret None
  end.

(** [onmessage] when the decoding has settled: the rest of the audio
    branch, then the interruption branch. *)
Definition onmessage_resume (host : Host) (message : LiveServerMessage)
           (payload : string) (ctx : Handle) : Js World unit :=
  enqueue_resume payload ctx ;;
  when (interrupted_of message) (interrupt host).

(** [connect] when it is called: without a key it returns; with one it
    runs up to [await getUserMedia] and suspends. *)
Definition connect_begin (host : Host) : Js World (option Pending) :=
  match truthy (API_KEY host) with
  | None => modify (with_error (Some "API Key missing")) ;; ret None
  | Some apiKey =>
      modify (with_error None) ;;
      inputContext <- fresh ;;
      call (new_AudioContext inputContext 16000) ;;
      modify (with_inputContextRef (Some inputContext)) ;;
      inputAnalyser <- fresh ;;
      call (createAnalyser inputContext inputAnalyser) ;;
      modify (with_inputAnalyserRef (Some inputAnalyser)) ;;
      call (set_fftSize inputAnalyser 512) ;;
      call (set_smoothingTimeConstant inputAnalyser (1 # 2)) ;;
      outputContext <- fresh ;;
      call (new_AudioContext outputContext 24000) ;;
      modify (with_outputContextRef (Some outputContext)) ;;
      outputAnalyser <- fresh ;;
      call (createAnalyser outputContext outputAnalyser) ;;
      modify (with_outputAnalyserRef (Some outputAnalyser)) ;;
      call (set_fftSize outputAnalyser 512) ;;
      call (set_smoothingTimeConstant outputAnalyser (1 # 2)) ;;
      call (node_connect_destination outputAnalyser outputContext) ;;
      call getUserMedia ;;
      ret (Some microphone_prompt)
  end.

(** [connect] when the prompt has been answered: the rest of the [try]
    block, and its [catch]. *)
Definition connect_resume (host : Host) : Js World unit :=
  try_catch
    (match microphone host with
     | Returned _ => ret tt
     | Thrown e => throw e
     end ;;
     stream <- fresh ;;
     modify (with_audioStreamRef (Some stream)) ;;
     client <- fresh ;;
     call (new_GoogleGenAI client) ;;
     modify (with_clientRef (Some client)) ;;
     session <- fresh ;;
     call (live_connect client session) ;;
     modify (with_sessionPromiseRef (Some session)))
    (fun e =>
       call (console_error [e]) ;;
       modify (with_error (Some (message_or_default e))) ;;
       cleanup host).

(** A suspended handler goes on. *)
Definition resume (host : Host) (p : Pending) : Js World unit :=
  match p with
  | message_decode message payload ctx =>
      onmessage_resume host message payload ctx
  | microphone_prompt => connect_resume host
  end.

(** A handler begun and gone on with at once. *)
Definition at_once (begin : Js World (option Pending)) (host : Host)
  : Js World unit :=
  p <- begin ;;
  when_some p (resume host).

(** *** The session with handlers that overlap *)

(** What the event loop runs in one go: a handler that does not await
    (or whose await nothing else falls into), the first half of
    [onmessage] or of [connect], or the second half of a suspended
    handler. *)
Inductive Moment : Type :=
| Whole (ev : Event)
| Arrives (message : LiveServerMessage)
| Asks
| Resumes (p : Pending).

Definition moment (w : World) (occurrence : Host * Moment) : World :=
  let host := fst occurrence in
  match snd occurrence with
  | Whole ev => step w (host, ev)
  | Arrives message => state_of (onmessage_begin host message w)
  | Asks => state_of (connect_begin host w)
  | Resumes p => state_of (resume host p w)
  end.

Definition moments (history : list (Host * Moment)) (w : World) : World :=
  fold_left moment history w.


(** The state in which a message that arrived in [w] goes on, other
    moments having run during its [await]. *)
Definition after_await (arrival : Host) (message : LiveServerMessage)
           (during : list (Host * Moment)) (w : World) : World :=
  moments during (state_of (onmessage_begin arrival message w)).

(** The state in which [connect], called in [w], gets its answer. *)
Definition after_prompt (asking : Host) (during : list (Host * Moment))
           (w : World) : World :=
  moments during (state_of (connect_begin asking w)).

(** What [cleanup] releases of what the session held before [connect],
    and the two contexts that [connect] made. *)
Definition held_then_made (w : World) : list HostCall :=
  opt_call node_disconnect (scriptProcessorRef w)
  ++ opt_call node_disconnect (sourceNodeRef w)
  ++ opt_call tracks_stop (audioStreamRef w)
  ++ map node_stop (scheduledSourcesRef w)
  ++ [context_close (nextHandle w);
      context_close (S (S (nextHandle w)))].

(** An interruption that arrives while the audio of a message is
    decoded. *)
Definition interrupted_meanwhile : list (Host * Moment) :=
  [(browser 1, Whole (OnMessage interrupt_message))].


(** The user presses the microphone button a second time while the
    prompt is open. *)
Definition pressed_again : list (Host * Moment) :=
  [(browser_without_microphone, Asks)].

End Overlap.

(** ** The visualizer loop over time *)

Module VisualizerLoop.
Import Num JsMonad Visualizer.
Local Open Scope list_scope.
Local Open Scope Q_scope.
Local Open Scope js_scope.

(** A canvas on which no call throws. *)
Definition steady (host : Host) : Prop :=
  forall c, throws host c = false.

(** A block of statements that returns and at most draws. *)
Definition paints {A} (m : Js Screen A) : Prop :=
  forall s, exists a made,
    m s = (Returned a,
           {| animationRef := animationRef s; timeRef := timeRef s;
              pendingFrame := pendingFrame s;
              nextRequest := nextRequest s;
              drawn := drawn s ++ made |}).

(** [animationRef] names the frame request the window holds, when it
    holds one. *)
Definition synced (s : Screen) : Prop :=
  forall request, pendingFrame s = Some request -> animationRef s = request.

(** What happens to the visualizer.  The effect runs [render]: at mount,
    and again after every render of the component, since its dependencies
    hold the [analysers] object, which is a new one at each render.  The
    display refreshes, which runs the callback of the frame requested, a
    [render] with the props of the effect run that made it.  The effect's
    cleanup, which React runs before it runs the effect again, cancels.
    (When the canvas is not mounted the effect returns at once: nothing
    happens.) *)
Inductive Beat : Type :=
| EffectRuns (props : Props)
| Refreshes (props : Props)
| EffectCleans.

Definition beat (s : Screen) (occurrence : Host * Beat) : Screen :=
  match snd occurrence with
  | EffectRuns props => state_of (render (fst occurrence) props s)
  | Refreshes props => refresh props s (fst occurrence)
  | EffectCleans => state_of (cancel (fst occurrence) s)
  end.

Definition beats (history : list (Host * Beat)) (s : Screen) : Screen :=
  fold_left beat history s.

(** The screens of the visualizer: what any history leaves, from the
    screen at mount. *)
Definition looping (s : Screen) : Prop :=
  exists history, s = beats history initial.

(** A block of statements that leaves [animationRef] alone, whether it
    returns or throws. *)
Definition keeps_ref {A} (m : Js Screen A) : Prop :=
  forall s, animationRef (state_of (m s)) = animationRef s.

(** The visualizer while the session is playing: the loop was set up at
    mount, refreshed, and set up again, with other props, when the
    session connected and when it began to speak. *)
Definition speaking : Props :=
  {| isConnected := true; isSpeaking := true;
     inputAnalyser := Some 1%nat; outputAnalyser := Some 3%nat |}.

Definition idle : Props :=
  {| isConnected := false; isSpeaking := false;
     inputAnalyser := None; outputAnalyser := None |}.

Definition playing_history : list (Host * Beat) :=
  [(sound_canvas, EffectRuns idle);
   (sound_canvas, Refreshes idle);
   (sound_canvas, EffectCleans);
   (sound_canvas, EffectRuns listening);
   (sound_canvas, Refreshes listening);
   (failing_canvas, Refreshes listening);
   (sound_canvas, EffectCleans);
   (sound_canvas, EffectRuns speaking);
   (sound_canvas, Refreshes speaking)].

(** Every entry of [dataArray] is a byte, as in a [Uint8Array]. *)
Definition all_bytes (dataArray : list Z) : Prop :=
  Forall (fun val => (0 <= val <= 255)%Z) dataArray.

(** The frequency data of a real analyser of this program at full scale:
    [fftSize] 512 gives 256 bins. *)
Definition full_scale : list Z := repeat 255%Z 256.

End VisualizerLoop.

(** ** JavaScript strings *)

Module JsText.

(** A string is its sequence of UTF-16 code units. *)
Definition JsString : Type := list N.

Definition of_ascii (s : string) : JsString :=
  map N_of_ascii (list_ascii_of_string s).

Definition same_text (a b : JsString) : bool :=
  if list_eq_dec N.eq_dec a b then true else false.

(** The code units [trim] removes: WhiteSpace and LineTerminator of
    ECMAScript. *)
Definition is_white_space (u : N) : bool :=
  existsb (N.eqb u)
          [0x0009; 0x000A; 0x000B; 0x000C; 0x000D; 0x0020; 0x00A0; 0x1680;
           0x2000; 0x2001; 0x2002; 0x2003; 0x2004; 0x2005; 0x2006; 0x2007;
           0x2008; 0x2009; 0x200A; 0x2028; 0x2029; 0x202F; 0x205F; 0x3000;
           0xFEFF]%N.

Fixpoint trimStart (s : JsString) : JsString :=
  match s with
  | [] => []
  | u :: rest => if is_white_space u then trimStart rest else s
  end.

Definition trimEnd (s : JsString) : JsString := rev (trimStart (rev s)).

(** [s.trim()]. *)
Definition trim (s : JsString) : JsString := trimEnd (trimStart s).

(** A string as a condition: the empty string is falsy. *)
Definition nonempty (s : JsString) : bool :=
  match s with
  | [] => false
  | _ :: _ => true
  end.

End JsText.

(** ** [components/ChatView.tsx]: the text conversation

  The component's state cells and its ref are the fields of [Chat]; the
  [await] inside [handleSend] splits it in two: [handleSend] runs up to
  the request, [resume] runs when the request has settled.  The scroll
  effect, which only moves the viewport, is not part of the model. *)

Module ChatView.

Import JsMonad JsText.
Local Open Scope string_scope.
Local Open Scope list_scope.
Local Open Scope nat_scope.
Local Open Scope js_scope.

Definition Handle : Type := nat.

(** [Message] of [types.ts]; a [Date] is its time in milliseconds. *)
Inductive Role : Type := user | model.

Record Message : Type :=
  { role : Role;
    text : JsString;
    timestamp : nat }.

Inductive HostCall : Type :=
| new_GoogleGenAI (client : Handle)
| chats_create (client chat : Handle) (history : list (Role * JsString))
| sendMessage (chat : Handle) (message : JsString)
| console_error (args : list JsString)
| preventDefault.

Record Chat : Type :=
  { messages : list Message;
    inputText : JsString;
    isLoading : bool;
    chatSessionRef : option Handle;
    (* the runs of [handleSend] suspended at their [await] *)
    awaiting : nat;
    nextHandle : Handle;
    calls : list HostCall }.

(** What the host decides when a handler runs. *)
Record Host : Type :=
  { (* process.env.API_KEY *)
    API_KEY : option JsString;
    (* new Date() *)
    now : nat }.

(** "Hey jaan. Missed me? " and the winking face U+1F609. *)
Definition greeting : JsString :=
  of_ascii "Hey jaan. Missed me? " ++ [0xD83D; 0xDE09]%N.

Definition apology : JsString :=
  of_ascii "Ugh, my connection is acting up. Say that again?".

(** The state at mount. *)
Definition initial (mounted : nat) : Chat :=
  {| messages := [ {| role := model; text := greeting;
                      timestamp := mounted |} ];
     inputText := [];
     isLoading := false;
     chatSessionRef := None;
     awaiting := 0;
     nextHandle := 0;
     calls := [] |}.

Definition setMessages (f : list Message -> list Message) (c : Chat) : Chat :=
  let 'Build_Chat a b d e f' g h := c in Build_Chat (f a) b d e f' g h.
Definition setInputText (v : JsString) (c : Chat) : Chat :=
  let 'Build_Chat a _ d e f g h := c in Build_Chat a v d e f g h.
Definition setIsLoading (v : bool) (c : Chat) : Chat :=
  let 'Build_Chat a b _ e f g h := c in Build_Chat a b v e f g h.
Definition with_chatSessionRef (v : option Handle) (c : Chat) : Chat :=
  let 'Build_Chat a b d _ f g h := c in Build_Chat a b d v f g h.
Definition with_awaiting (v : nat) (c : Chat) : Chat :=
  let 'Build_Chat a b d e _ g h := c in Build_Chat a b d e v g h.
Definition with_nextHandle (v : Handle) (c : Chat) : Chat :=
  let 'Build_Chat a b d e f _ h := c in Build_Chat a b d e f v h.
Definition with_calls (v : list HostCall) (c : Chat) : Chat :=
  let 'Build_Chat a b d e f g _ := c in Build_Chat a b d e f g v.

Definition call (c : HostCall) : Js Chat unit :=
  modify (fun w => with_calls (calls w ++ [c]) w).

Definition fresh : Js Chat Handle :=
  fun w => (Returned (nextHandle w), with_nextHandle (S (nextHandle w)) w).

(** [process.env.API_KEY] as a condition. *)
Definition truthy (key : option JsString) : option JsString :=
  match key with
  | Some k => if nonempty k then Some k else None
  | None => None
  end.

(** The effect on [isActive]: the chat session is created when the view
    is active, there is none yet, and a key is configured. *)
Definition create_session (host : Host) (isActive : bool) : Js Chat unit :=
  session <- gets chatSessionRef ;;
  match isActive, session, truthy (API_KEY host) with
  | true, None, Some _ =>
      ai <- fresh ;;
      call (new_GoogleGenAI ai) ;;
      chat <- fresh ;;
      call (chats_create ai chat
                         [(user, of_ascii "Hello"); (model, greeting)]) ;;
      modify (with_chatSessionRef (Some chat))
  | _, _, _ => ret tt
  end.

(** [handleSend] up to its [await]. *)
Definition handleSend (host : Host) : Js Chat unit :=
  input <- gets inputText ;;
  session <- gets chatSessionRef ;;
  loading <- gets isLoading ;;
  match session with
  | Some chat =>
      if negb (nonempty (trim input)) || loading then ret tt
      else
        let userMsg :=
          {| role := user; text := input; timestamp := now host |} in
        modify (setMessages (fun prev => prev ++ [userMsg])) ;;
        modify (setInputText []) ;;
        modify (setIsLoading true) ;;
        call (sendMessage chat (text userMsg)) ;;
        modify (fun c => with_awaiting (S (awaiting c)) c)
  | None => ret tt
  end.

(** [handleSend] from its [await] on: the request has resolved with the
    reply's text, or it was rejected (or the call itself threw, which the
    same [catch] receives). *)
Definition resume (host : Host) (result : Outcome JsString) : Js Chat unit :=
  try_catch
    (responseText <- (fun c => (result, c)) ;;
     let botMsg :=
       {| role := model; text := responseText; timestamp := now host |} in
     modify (setMessages (fun prev => prev ++ [botMsg])))
    (fun error =>
       call (console_error [of_ascii "Chat error"; of_ascii error]) ;;
       let errorMsg :=
         {| role := model; text := apology; timestamp := now host |} in
       modify (setMessages (fun prev => prev ++ [errorMsg]))) ;;
  modify (setIsLoading false).

Definition handleKeyPress (host : Host) (key : JsString) (shiftKey : bool)
  : Js Chat unit :=
  if same_text key (of_ascii "Enter") && negb shiftKey
  then call preventDefault ;; handleSend host
  else ret tt.

(** The [disabled] attribute of the send button. *)
Definition button_disabled (c : Chat) : bool :=
  isLoading c || negb (nonempty (trim (inputText c))).

(** *** The component as a transition system *)

Inductive Event : Type :=
| Effect (isActive : bool)
| Change (value : JsString)
| Click
| KeyDown (key : JsString) (shiftKey : bool)
| Settled (result : Outcome JsString).

(** A disabled button delivers no click; a request settles only if one is
    awaited. *)
Definition dispatch (host : Host) (ev : Event) : Js Chat unit :=
  match ev with
  | Effect isActive => create_session host isActive
  | Change value => modify (setInputText value)
  | Click =>
      disabled <- gets button_disabled ;;
      if disabled then ret tt else handleSend host
  | KeyDown key shiftKey => handleKeyPress host key shiftKey
  | Settled result =>
      pending <- gets awaiting ;;
      match pending with
      | O => ret tt
      | S n => modify (with_awaiting n) ;; resume host result
      end
  end.

Definition step (c : Chat) (occurrence : Host * Event) : Chat :=
  state_of (dispatch (fst occurrence) (snd occurrence) c).

Definition run (trace : list (Host * Event)) (c : Chat) : Chat :=
  fold_left step trace c.

(** *** What the statements below observe *)

Definition other (r : Role) : Role :=
  match r with
  | user => model
  | model => user
  end.

Definition is_user (m : Message) : bool :=
  match role m with
  | user => true
  | model => false
  end.

(** The roles take turns, starting with [expected]. *)
Fixpoint alternating (expected : Role) (ms : list Message) : Prop :=
  match ms with
  | [] => True
  | m :: rest => role m = expected /\ alternating (other expected) rest
  end.

(** The texts passed to [sendMessage], in order. *)
Definition sent (cs : list HostCall) : list JsString :=
  flat_map (fun c => match c with
                     | sendMessage _ message => [message]
                     | _ => []
                     end) cs.

(** The chats the requests were addressed to. *)
Definition addressed (cs : list HostCall) : list Handle :=
  flat_map (fun c => match c with
                     | sendMessage chat _ => [chat]
                     | _ => []
                     end) cs.

(** The chat sessions created, in order. *)
Definition created (cs : list HostCall) : list Handle :=
  flat_map (fun c => match c with
                     | chats_create _ chat _ => [chat]
                     | _ => []
                     end) cs.

(** The texts of the user's messages, in order. *)
Definition said (ms : list Message) : list JsString :=
  map text (filter is_user ms).

Definition held (ref : option Handle) : list Handle :=
  match ref with
  | Some h => [h]
  | None => []
  end.

(** The role of the last message. *)
Definition last_role (ms : list Message) : Role :=
  role (last ms {| role := model; text := []; timestamp := 0 |}).

(** What holds in every state of the component. *)
Record Orderly (c : Chat) : Prop :=
  { turns : alternating model (messages c);
    loading_parity : isLoading c = Nat.even (List.length (messages c));
    one_request : awaiting c = if isLoading c then 1 else 0;
    said_sent : sent (calls c) = said (messages c);
    said_something :
      Forall (fun t => trim t <> []) (said (messages c));
    one_session : created (calls c) = held (chatSessionRef c);
    same_session :
      forall chat, In chat (addressed (calls c)) ->
                   chatSessionRef c = Some chat }.

(** What the reply shows: the text, or the apology. *)
Definition shown (result : Outcome JsString) : JsString :=
  match result with
  | Returned responseText => responseText
  | Thrown _ => apology
  end.

Definition logged (result : Outcome JsString) : list HostCall :=
  match result with
  | Returned _ => []
  | Thrown error => [console_error [of_ascii "Chat error"; of_ascii error]]
  end.

(** What one handler can do to the conversation. *)
Inductive Move (c : Chat) : Chat -> Prop :=
| stays : Move c c
| types (value : JsString) : Move c (setInputText value c)
| notes : Move c (with_calls (calls c ++ [preventDefault]) c)
| sends (host : Host) (chat : Handle) (before : list HostCall) :
    chatSessionRef c = Some chat ->
    isLoading c = false ->
    trim (inputText c) <> [] ->
    sent before = [] -> created before = [] -> addressed before = [] ->
    Move c
         {| messages := messages c
                        ++ [ {| role := user; text := inputText c;
                                timestamp := now host |} ];
            inputText := [];
            isLoading := true;
            chatSessionRef := Some chat;
            awaiting := S (awaiting c);
            nextHandle := nextHandle c;
            calls := (calls c ++ before)
                     ++ [sendMessage chat (inputText c)] |}
| hears (host : Host) (result : Outcome JsString) (n : nat) :
    awaiting c = S n ->
    Move c
         {| messages := messages c
                        ++ [ {| role := model; text := shown result;
                                timestamp := now host |} ];
            inputText := inputText c;
            isLoading := false;
            chatSessionRef := chatSessionRef c;
            awaiting := n;
            nextHandle := nextHandle c;
            calls := calls c ++ logged result |}
| opens (host : Host) :
    chatSessionRef c = None ->
    truthy (API_KEY host) <> None ->
    Move c
         {| messages := messages c;
            inputText := inputText c;
            isLoading := isLoading c;
            chatSessionRef := Some (S (nextHandle c));
            awaiting := awaiting c;
            nextHandle := S (S (nextHandle c));
            calls := calls c
                     ++ [new_GoogleGenAI (nextHandle c);
                         chats_create (nextHandle c) (S (nextHandle c))
                           [(user, of_ascii "Hello"); (model, greeting)]]
         |}.

(** *** Sample hosts and states *)

Definition keyed (t : nat) : Host :=
  {| API_KEY := Some (of_ascii "key"); now := t |}.

Definition keyless (t : nat) : Host :=
  {| API_KEY := None; now := t |}.

(** The view is active, a session exists, and "hi " has been typed. *)
Definition typed : Chat :=
  run [(keyed 1, Effect true); (keyed 2, Change (of_ascii "hi "))]
      (initial 0).

End ChatView.

(** ** [components/VoiceView.tsx]: the component around the hook

  The effect "Auto-connect management" has no body but a cleanup, which
  closes over the [isActive] and [isConnected] of the render that set it
  up.  React runs the cleanup of the previous run when a dependency has
  changed at a commit (the third dependency, [disconnect], is the same
  function at every render), and then sets the effect up again.  A
  cleanup that changes the hook's state causes another render and
  commit. *)

Module VoiceView.

Import JsMonad.
Local Open Scope list_scope.
Local Open Scope js_scope.

(** What a cleanup closed over. *)
Record Closure : Type :=
  { isActive : bool;
    isConnected : bool }.

Record View : Type :=
  { (* the prop of the last render *)
    props_isActive : bool;
    (* the state of [useLiveSession] *)
    session : LiveSession.World;
    (* the cleanup of the effect's last run *)
    armed : Closure }.

(** The cleanup: [if (!isActive && isConnected) disconnect()]. *)
Definition auto_disconnect (host : LiveSession.Host) (closure : Closure)
  : Js LiveSession.World unit :=
  when (negb (isActive closure) && isConnected closure)
       (LiveSession.cleanup host).

(** The dependencies as the current render sees them. *)
Definition deps (v : View) : Closure :=
  {| isActive := props_isActive v;
     isConnected := LiveSession.isConnected (session v) |}.

Definition same_deps (a b : Closure) : bool :=
  Bool.eqb (isActive a) (isActive b)
  && Bool.eqb (isConnected a) (isConnected b).

(** One commit: if a dependency changed, the old cleanup runs and the
    effect is set up with the values of this render. *)
Definition commit (host : LiveSession.Host) (v : View) : View :=
  if same_deps (deps v) (armed v) then v
  else {| props_isActive := props_isActive v;
          session := state_of (auto_disconnect host (armed v) (session v));
          armed := deps v |}.

(** Render and commit until nothing changes: the second commit takes up
    what the cleanup run by the first one changed (see
    [rerender_settles]). *)
Definition rerender (host : LiveSession.Host) (v : View) : View :=
  commit host (commit host v).

(** The component at mount. *)
Definition mount (active : bool) : View :=
  {| props_isActive := active;
     session := LiveSession.initial;
     armed := {| isActive := active; isConnected := false |} |}.

Inductive Action : Type :=
| Props (active : bool)
| Hook (ev : LiveSession.Event).

Definition act (host : LiveSession.Host) (a : Action) (v : View) : View :=
  rerender host
    match a with
    | Props active =>
        {| props_isActive := active; session := session v;
           armed := armed v |}
    | Hook ev =>
        {| props_isActive := props_isActive v;
           session := LiveSession.step (session v) (host, ev);
           armed := armed v |}
    end.

(** The effect is set up for what the component shows. *)
Definition settled (v : View) : Prop := armed v = deps v.

End VoiceView.

(** ** [App.tsx]: the two views and the mode switch *)

Module App.

Local Open Scope list_scope.

(** [AppMode] of [types.ts]. *)
Inductive AppMode : Type := TEXT | VOICE.

Definition same_mode (a b : AppMode) : bool :=
  match a, b with
  | TEXT, TEXT | VOICE, VOICE => true
  | _, _ => false
  end.

Record Hosts : Type :=
  { chat_host : ChatView.Host;
    voice_host : LiveSession.Host }.

(** Both views stay mounted; [isActive] tells each whether it shows. *)
Record Page : Type :=
  { mode : AppMode;
    chat : ChatView.Chat;
    voice : VoiceView.View }.

(** [<ChatView isActive={mode === AppMode.TEXT} />] and
    [<VoiceView isActive={mode === AppMode.VOICE} />]. *)
Definition chat_active (m : AppMode) : bool := same_mode m TEXT.
Definition voice_active (m : AppMode) : bool := same_mode m VOICE.

(** The page at mount: [useState(AppMode.TEXT)], and the effects of both
    views have run once. *)
Definition mount (hosts : Hosts) : Page :=
  {| mode := TEXT;
     chat := ChatView.step (ChatView.initial (ChatView.now (chat_host hosts)))
                           (chat_host hosts,
                            ChatView.Effect (chat_active TEXT));
     voice := VoiceView.mount (voice_active TEXT) |}.

(** [setMode(m)]: setting the mode it already has renders nothing;
    otherwise both views render with their new [isActive], and the
    effects that depend on it run. *)
Definition setMode (hosts : Hosts) (m : AppMode) (p : Page) : Page :=
  if same_mode m (mode p) then p
  else {| mode := m;
          chat := ChatView.step (chat p)
                                (chat_host hosts,
                                 ChatView.Effect (chat_active m));
          voice := VoiceView.act (voice_host hosts)
                                 (VoiceView.Props (voice_active m))
                                 (voice p) |}.

Inductive Action : Type :=
| SetMode (m : AppMode)
| InChat (ev : ChatView.Event)
| InVoice (ev : LiveSession.Event).

Definition act (p : Page) (occurrence : Hosts * Action) : Page :=
  let hosts := fst occurrence in
  match snd occurrence with
  | SetMode m => setMode hosts m p
  | InChat ev =>
      {| mode := mode p;
         chat := ChatView.step (chat p) (chat_host hosts, ev);
         voice := voice p |}
  | InVoice ev =>
      {| mode := mode p;
         chat := chat p;
         voice := VoiceView.act (voice_host hosts) (VoiceView.Hook ev)
                                (voice p) |}
  end.

Definition run (trace : list (Hosts * Action)) (p : Page) : Page :=
  fold_left act trace p.

(** The views show what the mode says, and the effect of the voice view
    is set up for it. *)
Definition consistent (p : Page) : Prop :=
  VoiceView.props_isActive (voice p) = voice_active (mode p)
  /\ VoiceView.settled (voice p).

(** *** Sample hosts and pages *)

Definition desktop (t : nat) : Hosts :=
  {| chat_host := ChatView.keyed t;
     voice_host := LiveSession.browser (inject_Z (Z.of_nat t)) |}.

(** The user has opened the call view and the session is open. *)
Definition in_call : Page :=
  run [(desktop 1, SetMode VOICE);
       (desktop 2, InVoice LiveSession.Connect);
       (desktop 3, InVoice LiveSession.OnOpen)]
      (mount (desktop 0)).

End App.

(** * Proofs *)

(** ** Numbers *)

Module NumFacts.

Import Num.
Local Open Scope Q_scope.

Lemma Math_max_cases (a b : Q) :
  (a <= b /\ Math_max a b = b) \/ (b < a /\ Math_max a b = a).
Proof.
  unfold Math_max. destruct (Qle_bool a b) eqn:E.
  - left. split; [now apply Qle_bool_iff | reflexivity].
  - right. split; [|reflexivity].
    apply Qnot_le_lt. intros H. apply Qle_bool_iff in H. congruence.
Qed.

Lemma Math_min_cases (a b : Q) :
  (a <= b /\ Math_min a b = a) \/ (b < a /\ Math_min a b = b).
Proof.
  unfold Math_min. destruct (Qle_bool a b) eqn:E.
  - left. split; [now apply Qle_bool_iff | reflexivity].
  - right. split; [|reflexivity].
    apply Qnot_le_lt. intros H. apply Qle_bool_iff in H. congruence.
Qed.

(** Case analysis on every [Math.max] and [Math.min] in sight. *)
Ltac minmax_cases :=
  repeat match goal with
    | |- context [Math_min ?a ?b] =>
        let H := fresh in
        destruct (Math_min_cases a b) as [[? H]|[? H]];
        rewrite ?H in *; clear H
    | |- context [Math_max ?a ?b] =>
        let H := fresh in
        destruct (Math_max_cases a b) as [[? H]|[? H]];
        rewrite ?H in *; clear H
    | _ : context [Math_min ?a ?b] |- _ =>
        let H := fresh in
        destruct (Math_min_cases a b) as [[? H]|[? H]];
        rewrite ?H in *; clear H
    | _ : context [Math_max ?a ?b] |- _ =>
        let H := fresh in
        destruct (Math_max_cases a b) as [[? H]|[? H]];
        rewrite ?H in *; clear H
    end.

Lemma Math_max_floor (a b : Q) : a <= Math_max a b.
Proof. minmax_cases; lra. Qed.

Lemma Qle_bool_eq (a b a' b' : Q) :
  a == a' -> b == b' -> Qle_bool a b = Qle_bool a' b'.
Proof.
  intros Ha Hb.
  destruct (Qle_bool a b) eqn:E, (Qle_bool a' b') eqn:E'; try reflexivity.
  - apply Qle_bool_iff in E.
    assert (H : a' <= b') by lra. apply Qle_bool_iff in H. congruence.
  - apply Qle_bool_iff in E'.
    assert (H : a <= b) by lra. apply Qle_bool_iff in H. congruence.
Qed.

Lemma Qsum_from (l : list Q) (a : Q) :
  fold_left Qplus l a == a + Qsum l.
Proof.
  unfold Qsum. revert a.
  induction l as [|x l IH]; intros a; cbn [fold_left]; [lra|].
  rewrite (IH (a + x)), (IH (0 + x)). lra.
Qed.

Lemma Qsum_cons (x : Q) (l : list Q) : Qsum (x :: l) == x + Qsum l.
Proof. unfold Qsum at 1. cbn [fold_left]. rewrite Qsum_from. lra. Qed.

End NumFacts.

(** ** Numbers that need not be rational *)

Module NumberFacts.

Import Stdlib.Reals.Reals Stdlib.Reals.Qreals Num.
Local Open Scope R_scope.

Lemma zero_not_negative : not_negative zero.
Proof. intros v E. injection E as <-. apply Rle_refl. Qed.

Lemma raised_floor (prev rms : Number) (v : R) :
  raised prev rms = Some v -> 1 / 10 <= v.
Proof.
  destruct prev as [p|], rms as [r|]; cbn; intros E; try discriminate E.
  injection E as <-. apply Rmax_l.
Qed.

Lemma raised_not_negative (prev rms : Number) :
  not_negative (raised prev rms).
Proof.
  intros v E. apply raised_floor in E. Lra.lra.
Qed.

Lemma Q2R_nonneg (q : Q) : (0 <= q)%Q -> 0 <= Q2R q.
Proof.
  intros H. apply Qle_Rle in H. rewrite RMicromega.Q2R_0 in H. exact H.
Qed.

(** [Math.sqrt] of a number that is not negative is its square root. *)
Lemma Math_sqrt_spec (x : R) :
  0 <= x ->
  exists r, Math_sqrt (Some x) = Some r /\ 0 <= r /\ r * r = x.
Proof.
  intros Hx. exists (sqrt x). unfold Math_sqrt.
  destruct (Rlt_dec x 0) as [Hneg|_]; [Lra.lra|].
  split; [reflexivity|]. split; [apply sqrt_pos | now apply sqrt_sqrt].
Qed.

Lemma Math_sqrt_negative (x : R) : x < 0 -> Math_sqrt (Some x) = NaN.
Proof.
  intros Hx. unfold Math_sqrt.
  destruct (Rlt_dec x 0) as [_|Hpos]; [reflexivity | contradiction].
Qed.

End NumberFacts.

(** ** PCM and base64 *)

Module AudioFacts.

Import Num JsMonad Audio NumFacts.
Local Open Scope Q_scope.

(** *** Base64 *)

Lemma sextets_ok : forallb sextet_ok (seq 0 64) = true.
Proof. vm_compute. reflexivity. Qed.

Lemma sextet_ok_at (n : Z) :
  (0 <= n < 64)%Z -> sextet_ok (Z.to_nat n) = true.
Proof.
  intros Hn.
  apply (proj1 (forallb_forall sextet_ok (seq 0 64)) sextets_ok).
  apply in_seq. lia.
Qed.

Lemma char_sextet_char (n : Z) :
  (0 <= n < 64)%Z -> char_sextet (sextet_char n) = Some n.
Proof.
  intros Hn. pose proof (sextet_ok_at n Hn) as H.
  unfold sextet_ok in H. rewrite Z2Nat.id in H by lia.
  destruct (char_sextet (sextet_char n)) as [m|]; [|discriminate].
  apply andb_prop in H. destruct H as [H _].
  apply Z.eqb_eq in H. now subst.
Qed.

Lemma sextet_char_not_pad (n : Z) :
  (0 <= n < 64)%Z -> is_pad (sextet_char n) = false.
Proof.
  intros Hn. pose proof (sextet_ok_at n Hn) as H.
  unfold sextet_ok in H. rewrite Z2Nat.id in H by lia.
  destruct (char_sextet (sextet_char n)) as [m|]; [|discriminate].
  apply andb_prop in H. destruct H as [_ H].
  now apply negb_true_iff in H.
Qed.

Lemma is_pad_pad : is_pad pad_char = true.
Proof. reflexivity. Qed.

Lemma decode_quad (s1 s2 s3 s4 : Z) (rest : list ascii) :
  (0 <= s1 < 64)%Z -> (0 <= s2 < 64)%Z ->
  (0 <= s3 < 64)%Z -> (0 <= s4 < 64)%Z ->
  decode_chars (sextet_char s1 :: sextet_char s2 :: sextet_char s3
                :: sextet_char s4 :: rest)
  = match decode_chars rest with
    | Some tail =>
        Some ((s1 * 4 + s2 / 16) :: ((s2 mod 16) * 16 + s3 / 4)
              :: ((s3 mod 4) * 64 + s4) :: tail)%Z
    | None => None
    end.
Proof.
  intros H1 H2 H3 H4. cbn [decode_chars].
  rewrite !char_sextet_char by assumption.
  rewrite (sextet_char_not_pad s3 H3), (sextet_char_not_pad s4 H4).
  reflexivity.
Qed.

Lemma decode_pad1 (s1 s2 s3 : Z) :
  (0 <= s1 < 64)%Z -> (0 <= s2 < 64)%Z -> (0 <= s3 < 64)%Z ->
  decode_chars [sextet_char s1; sextet_char s2; sextet_char s3; pad_char]
  = Some [(s1 * 4 + s2 / 16); ((s2 mod 16) * 16 + s3 / 4)]%Z.
Proof.
  intros H1 H2 H3. cbn [decode_chars].
  rewrite !char_sextet_char by assumption.
  rewrite (sextet_char_not_pad s3 H3), is_pad_pad. reflexivity.
Qed.

Lemma decode_pad2 (s1 s2 : Z) :
  (0 <= s1 < 64)%Z -> (0 <= s2 < 64)%Z ->
  decode_chars [sextet_char s1; sextet_char s2; pad_char; pad_char]
  = Some [(s1 * 4 + s2 / 16)]%Z.
Proof.
  intros H1 H2. cbn [decode_chars].
  rewrite !char_sextet_char by assumption.
  rewrite is_pad_pad. reflexivity.
Qed.

Ltac byte_arith :=
  unfold is_byte in *; Z.div_mod_to_equations; lia.

Lemma base64_roundtrip_upto (n : nat) :
  forall bytes : Bytes,
    (List.length bytes <= n)%nat -> Forall is_byte bytes ->
    decode_chars (encode_chars bytes) = Some bytes.
Proof.
  induction n as [|n IH]; intros bytes Hlen Hb.
  - destruct bytes; [reflexivity | simpl in Hlen; lia].
  - destruct bytes as [|a [|b [|c rest]]].
    + reflexivity.
    + inversion Hb as [|? ? Ha _]; subst.
      cbn [encode_chars]. rewrite decode_pad2 by byte_arith.
      replace (a / 4 * 4 + a mod 4 * 16 / 16)%Z with a by byte_arith.
      reflexivity.
    + inversion Hb as [|? ? Ha Hb']; subst.
      inversion Hb' as [|? ? Hb0 _]; subst.
      cbn [encode_chars]. rewrite decode_pad1 by byte_arith.
      replace (a / 4 * 4 + (a mod 4 * 16 + b / 16) / 16)%Z
        with a by byte_arith.
      replace ((a mod 4 * 16 + b / 16) mod 16 * 16 + b mod 16 * 4 / 4)%Z
        with b by byte_arith.
      reflexivity.
    + inversion Hb as [|? ? Ha Hb']; subst.
      inversion Hb' as [|? ? Hb0 Hb'']; subst.
      inversion Hb'' as [|? ? Hc Hrest]; subst.
      cbn [encode_chars]. rewrite decode_quad by byte_arith.
      rewrite IH by (simpl in Hlen; auto; lia).
      replace (a / 4 * 4 + (a mod 4 * 16 + b / 16) / 16)%Z
        with a by byte_arith.
      replace ((a mod 4 * 16 + b / 16) mod 16 * 16
               + (b mod 16 * 4 + c / 64) / 4)%Z
        with b by byte_arith.
      replace ((b mod 16 * 4 + c / 64) mod 4 * 64 + c mod 64)%Z
        with c by byte_arith.
      reflexivity.
Qed.

Lemma base64_roundtrip (bytes : Bytes) :
  Forall is_byte bytes -> decode_chars (encode_chars bytes) = Some bytes.
Proof. apply (base64_roundtrip_upto (List.length bytes)). lia. Qed.

Lemma int16_bytes_are_bytes (v : Z) : Forall is_byte (int16_bytes v).
Proof.
  unfold int16_bytes, is_byte.
  repeat constructor; Z.div_mod_to_equations; lia.
Qed.

Lemma pcm_bytes_are_bytes (vs : list Z) :
  Forall is_byte (flat_map int16_bytes vs).
Proof.
  induction vs as [|v vs IH]; [constructor|].
  cbn [flat_map]. apply Forall_app. split; [apply int16_bytes_are_bytes | exact IH].
Qed.

Lemma int16_of_bytes_bytes (v : Z) :
  is_int16 v ->
  int16_of_bytes ((v mod 65536) mod 256) ((v mod 65536) / 256) = v.
Proof.
  unfold is_int16, int16_of_bytes. intros Hv.
  destruct (Z.ltb_spec ((v mod 65536) mod 256 + 256 * ((v mod 65536) / 256)) 32768);
    Z.div_mod_to_equations; lia.
Qed.

Lemma int16_view_bytes (vs : list Z) :
  Forall is_int16 vs -> int16_view (flat_map int16_bytes vs) = Some vs.
Proof.
  induction 1 as [|v vs Hv _ IH]; [reflexivity|].
  cbn [flat_map int16_bytes app int16_view]. rewrite IH.
  now rewrite int16_of_bytes_bytes.
Qed.

Lemma float_to_int16_is_int16 (x : Q) : is_int16 (float_to_int16 x).
Proof. unfold is_int16, float_to_int16. lia. Qed.

Lemma ToInteger_nonneg (x : Q) :
  0 <= x -> inject_Z (ToInteger x) <= x /\ x < inject_Z (ToInteger x) + 1.
Proof.
  intros Hx. unfold ToInteger.
  replace (Qle_bool 0 x) with true by (symmetry; now apply Qle_bool_iff).
  split; [apply Qfloor_le|].
  pose proof (Qlt_floor x) as H. rewrite inject_Z_plus in H. exact H.
Qed.

Lemma ToInteger_neg (x : Q) :
  x < 0 -> x <= inject_Z (ToInteger x) /\ inject_Z (ToInteger x) < x + 1.
Proof.
  intros Hx. unfold ToInteger.
  replace (Qle_bool 0 x) with false.
  2:{ symmetry. destruct (Qle_bool 0 x) eqn:E; [|reflexivity].
      apply Qle_bool_iff in E. lra. }
  split; [apply Qle_ceiling|].
  pose proof (Qceiling_lt x) as H.
  unfold Z.sub in H. rewrite inject_Z_plus in H.
  assert (E : inject_Z (- (1)) == -1) by reflexivity. lra.
Qed.

Lemma clamp_id (x : Q) :
  -1 <= x <= 1 -> Math_max (-1) (Math_min 1 x) == x.
Proof.
  intros Hx. minmax_cases; lra.
Qed.

(** What one sample becomes after encoding and decoding. *)
Lemma quantization_error (x : Q) :
  -1 <= x <= 1 ->
  sample_error x (inject_Z (float_to_int16 x) / 32768) <= 1 # 32768.
Proof.
  intros Hx. unfold sample_error, float_to_int16.
  pose proof (clamp_id x Hx) as Hs.
  set (s := Math_max (-1) (Math_min 1 x)) in *.
  unfold Qdiv. change (/ 32768) with (1 # 32768).
  set (t := ToInteger (s * 32768)).
  assert (Ht : s * 32768 - 1 < inject_Z t /\ inject_Z t < s * 32768 + 1).
  { destruct (Qlt_le_dec (s * 32768) 0) as [Hneg|Hpos].
    - destruct (ToInteger_neg _ Hneg). fold t in H, H0. split; lra.
    - destruct (ToInteger_nonneg _ Hpos). fold t in H, H0. split; lra. }
  destruct Ht as [Hlo Hhi].
  assert (Hmin : (-32768 <= t)%Z).
  { assert (-32769 < t)%Z; [|lia].
    rewrite Zlt_Qlt. change (inject_Z (-32769)) with (-32769 # 1). lra. }
  assert (Hmax : (t <= 32768)%Z).
  { assert (t < 32769)%Z; [|lia].
    rewrite Zlt_Qlt. change (inject_Z 32769) with 32769. lra. }
  destruct (Z.eq_dec t 32768) as [Etop|Hnot].
  - replace (Z.max (-32768) (Z.min 32767 t)) with 32767%Z by lia.
    rewrite Etop in Hhi. change (inject_Z 32768) with 32768 in Hhi.
    change (inject_Z 32767) with 32767.
    apply Qabs_Qle_condition. split; lra.
  - replace (Z.max (-32768) (Z.min 32767 t)) with t by lia.
    apply Qabs_Qle_condition. split; lra.
Qed.

Lemma ToInteger_eq (x y : Q) : x == y -> ToInteger x = ToInteger y.
Proof.
  intros H. unfold ToInteger.
  rewrite (Qle_bool_eq 0 x 0 y) by (lra || assumption).
  destruct (Qle_bool 0 y); [now apply Qfloor_comp | now apply Qceiling_comp].
Qed.

Lemma clamp_eq (x y : Q) :
  x == y ->
  Math_max (-1) (Math_min 1 x) == Math_max (-1) (Math_min 1 y).
Proof.
  intros H. minmax_cases; lra.
Qed.

Lemma float_to_int16_eq (x y : Q) :
  x == y -> float_to_int16 x = float_to_int16 y.
Proof.
  intros H. unfold float_to_int16.
  pose proof (clamp_eq x y H) as Hs.
  set (s := Math_max (-1) (Math_min 1 x)) in *.
  set (t := Math_max (-1) (Math_min 1 y)) in *.
  rewrite (ToInteger_eq (s * 32768) (t * 32768)); [reflexivity | lra].
Qed.

Lemma createPcmBlob_eq (frame frame' : AudioFrame) :
  Forall2 Qeq frame frame' -> createPcmBlob frame' = createPcmBlob frame.
Proof.
  intros H. unfold createPcmBlob. do 3 f_equal.
  induction H as [|x y l l' Hxy _ IH]; [reflexivity|].
  cbn [map]. rewrite IH. f_equal. symmetry. now apply float_to_int16_eq.
Qed.

Lemma decode_chunk_state {St} (payload : string) (s : St) :
  decode_chunk payload s = (decoded payload, s).
Proof.
  unfold decoded, decode_chunk, bind, decodeBase64, decodeAudioData, outcome_of.
  destruct (decode_chars (list_ascii_of_string payload)) as [bytes|];
    [|reflexivity].
  unfold ret. destruct (int16_view bytes); reflexivity.
Qed.

Lemma decoded_createPcmBlob (frame : AudioFrame) :
  decoded (data (createPcmBlob frame))
  = Returned
      {| channelData :=
           map (fun v => inject_Z v / 32768) (map float_to_int16 frame);
         sampleRate := 24000 |}.
Proof.
  unfold decoded, decode_chunk, bind, decodeBase64, createPcmBlob, data,
    encodeBase64.
  rewrite list_ascii_of_string_of_list_ascii.
  rewrite base64_roundtrip by apply pcm_bytes_are_bytes.
  unfold ret, decodeAudioData.
  rewrite int16_view_bytes; [reflexivity|].
  apply Forall_map, Forall_forall. intros x _.
  apply float_to_int16_is_int16.
Qed.

(** C8. For every frame whose samples lie in [-1, 1], decoding the
    encoded chunk succeeds and gives back every sample within one step of
    the 16-bit grid: the error is at most 1/32768.  Encoding depends on
    the values of the samples only: frames with equal samples have
    identical encodings. *)
Theorem pcm_roundtrip_within_one_step (frame : AudioFrame) :
  Forall (fun x => -1 <= x <= 1) frame ->
  exists buffer : AudioBuffer,
    decoded (data (createPcmBlob frame)) = Returned buffer
    /\ Forall2 (fun x y => sample_error x y <= 1 # 32768)
               frame (channelData buffer)
    /\ forall frame', Forall2 Qeq frame frame' ->
                      createPcmBlob frame' = createPcmBlob frame.
Proof.
  intros Hvalid. eexists. split; [apply decoded_createPcmBlob|].
  split; [|apply createPcmBlob_eq].
  cbn [channelData].
  induction Hvalid as [|x l Hx _ IH]; [constructor|].
  cbn [map]. constructor; [|exact IH].
  now apply quantization_error.
Qed.

(** The round trip on a frame of four samples, the full scale among
    them. *)
Lemma pcm_roundtrip_within_one_step_witness :
  exists buffer : AudioBuffer,
    decoded (data (createPcmBlob [9 # 10; -1; 1 # 3; 1])) = Returned buffer
    /\ Forall2 (fun x y => sample_error x y <= 1 # 32768)
               [9 # 10; -1; 1 # 3; 1] (channelData buffer)
    /\ forall frame', Forall2 Qeq [9 # 10; -1; 1 # 3; 1] frame' ->
                      createPcmBlob frame'
                      = createPcmBlob [9 # 10; -1; 1 # 3; 1].
Proof.
  assert (Hvalid : Forall (fun x => -1 <= x <= 1) [9 # 10; -1; 1 # 3; 1])
    by (repeat constructor; vm_compute; discriminate).
  exact (pcm_roundtrip_within_one_step [9 # 10; -1; 1 # 3; 1] Hvalid).
Defined.

End AudioFacts.

(** ** The session *)

Module SessionFacts.

Import Num JsMonad Audio LiveSession NumFacts NumberFacts AudioFacts.
Local Open Scope string_scope.
Local Open Scope list_scope.
Local Open Scope Q_scope.

(** *** Closed forms of the handlers *)

(** Both sides are records whose logs are nests of appends. *)
Ltac same_log :=
  cbn; repeat rewrite <- app_assoc; cbn [app]; rewrite ?app_nil_r;
  try reflexivity.

Lemma for_each_stop (host : Host) (l : list Handle) :
  forall w : World,
    for_each l (fun s => try_catch (source_stop host s) (fun _ => ret tt)) w
    = (Returned tt, with_calls (calls w ++ map node_stop l) w).
Proof.
  induction l as [|x l IH]; intros w.
  - destruct w; cbn. now rewrite app_nil_r.
  - cbn [for_each]. unfold bind at 1.
    assert (E : try_catch (source_stop host x) (fun _ => ret tt) w
                = (Returned tt, with_calls (calls w ++ [node_stop x]) w)).
    { unfold try_catch, source_stop, call, bind, modify, throw, ret.
      destruct (stop_throws host x); reflexivity. }
    rewrite E, IH. destruct w; same_log.
Qed.

Lemma stop_all_spec (host : Host) (w : World) :
  stop_all host w
  = (Returned tt,
     with_calls (calls w ++ map node_stop (scheduledSourcesRef w)) w).
Proof. unfold stop_all, bind, gets. apply for_each_stop. Qed.

Lemma bind_stop_all {B} (host : Host) (k : unit -> Js World B) (w : World) :
  bind (stop_all host) k w
  = k tt (with_calls (calls w ++ map node_stop (scheduledSourcesRef w)) w).
Proof. unfold bind. now rewrite stop_all_spec. Qed.

Lemma bind_decode_chunk {St B} (payload : string)
      (k : AudioBuffer -> Js St B) (s : St) :
  bind (decode_chunk payload) k s
  = match decoded payload with
    | Returned buffer => k buffer s
    | Thrown err => (Thrown err, s)
    end.
Proof. unfold bind. now rewrite decode_chunk_state. Qed.

Lemma cleanup_spec (host : Host) (w : World) :
  cleanup host w = (Returned tt, cleaned w).
Proof.
  destruct w as [a b c d ictx octx sp sn st ia oa ns srcs se cl nh cs].
  unfold cleanup, cleaned, releases.
  destruct sp, sn, st, ictx, octx;
    cbn -[stop_all]; rewrite bind_stop_all; same_log.
Qed.

Lemma interrupt_spec (host : Host) (w : World) :
  interrupt host w
  = (Returned tt,
     with_isSpeaking false
       (with_nextStartTimeRef 0
          (with_scheduledSourcesRef []
             (with_calls (calls w ++ console_log "Model interrupted"
                            :: map node_stop (scheduledSourcesRef w)) w)))).
Proof.
  destruct w. unfold interrupt.
  cbn -[stop_all]. rewrite bind_stop_all. same_log.
Qed.

Lemma enqueue_decoded (host : Host) (payload : string) (ctx : Handle)
      (buffer : AudioBuffer) (w : World) :
  decoded payload = Returned buffer ->
  enqueue host payload ctx w
  = (Returned tt,
     let startTime := Math_max (nextStartTimeRef w) (currentTime host) in
     with_nextStartTimeRef (startTime + duration buffer)
       (with_scheduledSourcesRef
          (Set_add (nextHandle w) (scheduledSourcesRef w))
          (with_calls (calls w ++ scheduling w ctx buffer startTime)
             (with_nextHandle (S (nextHandle w))
                (with_isSpeaking true w))))).
Proof.
  intros Hdec. destruct w. unfold enqueue, scheduling.
  cbn -[decode_chunk]. unfold try_catch.
  rewrite bind_decode_chunk, Hdec.
  destruct outputAnalyserRef0; same_log.
Qed.

Lemma enqueue_failed (host : Host) (payload : string) (ctx : Handle)
      (err : string) (w : World) :
  decoded payload = Thrown err ->
  enqueue host payload ctx w
  = (Returned tt,
     with_calls (calls w ++ [console_error ["Audio decode error"; err]])
       (with_nextStartTimeRef
          (Math_max (nextStartTimeRef w) (currentTime host))
          (with_isSpeaking true w))).
Proof.
  intros Hdec. destruct w. unfold enqueue.
  cbn -[decode_chunk]. unfold try_catch.
  rewrite bind_decode_chunk, Hdec. reflexivity.
Qed.

Lemma calls_since_app (w w' : World) (made : list HostCall) :
  calls w' = calls w ++ made -> calls_since w w' = made.
Proof.
  intros E. unfold calls_since. rewrite E, skipn_app, skipn_all.
  now rewrite Nat.sub_diag.
Qed.

Lemma enqueue_returns (host : Host) (payload : string) (ctx : Handle)
      (w : World) :
  enqueue host payload ctx w
  = (Returned tt, state_of (enqueue host payload ctx w)).
Proof.
  destruct (decoded payload) as [buffer|err] eqn:E.
  - now rewrite (enqueue_decoded host payload ctx buffer w E).
  - now rewrite (enqueue_failed host payload ctx err w E).
Qed.

Lemma onmessage_branches (host : Host) (message : LiveServerMessage)
      (w : World) :
  onmessage host message w
  = when (interrupted_of message) (interrupt host)
         (after_audio host message w).
Proof.
  unfold onmessage, after_audio, bind, gets.
  destruct (truthy (base64Audio_of message)) as [payload|];
    [destruct (outputContextRef w) as [ctx|]|]; try reflexivity.
  now rewrite enqueue_returns.
Qed.

Lemma onmessage_returns (host : Host) (message : LiveServerMessage)
      (w : World) :
  onmessage host message w
  = (Returned tt, state_of (onmessage host message w)).
Proof.
  rewrite onmessage_branches. unfold when.
  destruct (interrupted_of message); [|reflexivity].
  now rewrite interrupt_spec.
Qed.

Lemma Set_add_In (x y : Handle) (s : list Handle) :
  In y (Set_add x s) <-> y = x \/ In y s.
Proof.
  unfold Set_add, Set_has. destruct (existsb (Nat.eqb x) s) eqn:E.
  - split; [tauto|]. intros [->|H]; [|exact H].
    apply existsb_exists in E. destruct E as [z [Hz Hxz]].
    apply Nat.eqb_eq in Hxz. now subst.
  - rewrite in_app_iff. cbn. intuition.
Qed.

Lemma Set_add_NoDup (x : Handle) (s : list Handle) :
  NoDup s -> NoDup (Set_add x s).
Proof.
  intros H. unfold Set_add, Set_has.
  destruct (existsb (Nat.eqb x) s) eqn:E; [exact H|].
  apply NoDup_app; [exact H | repeat constructor; intros [] |].
  intros y Hy [Hxy|[]]. subst y.
  assert (existsb (Nat.eqb x) s = true); [|congruence].
  apply existsb_exists. exists x. split; [exact Hy | apply Nat.eqb_refl].
Qed.

Lemma Set_add_nonempty (x : Handle) (s : list Handle) : Set_add x s <> [].
Proof.
  unfold Set_add, Set_has. destruct (existsb (Nat.eqb x) s) eqn:E.
  - destruct s; [discriminate | discriminate].
  - destruct s; discriminate.
Qed.

(** What the audio branch leaves alone, and what it adds. *)
Lemma after_audio_frame (host : Host) (message : LiveServerMessage)
      (w : World) :
  let w1 := after_audio host message w in
  (exists made, calls w1 = calls w ++ made)
  /\ (forall s, In s (scheduledSourcesRef w) ->
                In s (scheduledSourcesRef w1))
  /\ outputContextRef w1 = outputContextRef w
  /\ outputAnalyserRef w1 = outputAnalyserRef w.
Proof.
  unfold after_audio.
  destruct (truthy (base64Audio_of message)) as [payload|];
    [destruct (outputContextRef w) as [ctx|] eqn:Ectx|].
  - destruct (decoded payload) as [buffer|err] eqn:E.
    + rewrite (enqueue_decoded host payload ctx buffer w E). destruct w; cbn in *.
      repeat split; eauto. intros s Hs. apply Set_add_In. now right.
    + rewrite (enqueue_failed host payload ctx err w E). destruct w; cbn in *.
      repeat split; eauto.
  - cbn. repeat split; auto. exists []. now rewrite app_nil_r.
  - cbn. repeat split; auto. exists []. now rewrite app_nil_r.
Qed.

Lemma audio_message_payload (payload : string) (stop : option bool) :
  payload <> "" ->
  truthy (base64Audio_of (audio_message payload stop)) = Some payload.
Proof. intros H. cbn. destruct payload; [contradiction | reflexivity]. Qed.

Lemma enqueue_decoded_fields (host : Host) (payload : string)
      (ctx : Handle) (buffer : AudioBuffer) (w : World) :
  decoded payload = Returned buffer ->
  let startTime := Math_max (nextStartTimeRef w) (currentTime host) in
  let w' := state_of (enqueue host payload ctx w) in
  calls w' = calls w ++ scheduling w ctx buffer startTime
  /\ nextStartTimeRef w' = startTime + duration buffer
  /\ scheduledSourcesRef w'
     = Set_add (nextHandle w) (scheduledSourcesRef w)
  /\ nextHandle w' = S (nextHandle w)
  /\ isSpeaking w' = true
  /\ outputContextRef w' = outputContextRef w
  /\ outputAnalyserRef w' = outputAnalyserRef w.
Proof.
  intros Hdec. cbv zeta.
  rewrite (enqueue_decoded host payload ctx buffer w Hdec).
  destruct w; cbn. repeat split; reflexivity.
Qed.

(** What the interruption branch leaves, whatever came before it. *)
Lemma onmessage_interrupted (host : Host) (message : LiveServerMessage)
      (w : World) :
  interrupted_of message = true ->
  outcome_of (onmessage host message w) = Returned tt
  /\ scheduledSourcesRef (state_of (onmessage host message w)) = []
  /\ isSpeaking (state_of (onmessage host message w)) = false
  /\ nextStartTimeRef (state_of (onmessage host message w)) = 0.
Proof.
  intros Hint. rewrite onmessage_branches, Hint. cbn [when].
  rewrite interrupt_spec. unfold outcome_of, state_of. cbn [fst snd].
  destruct (after_audio host message w). repeat split.
Qed.

(** C3. A message with [interrupted: true] stops every scheduled node
    (whether or not [stop] throws for some of them), empties the set, sets
    [isSpeaking] to false and resets the timeline to 0, from any state; the
    next buffer enqueued then starts at the output clock's current time. *)
Theorem interruption_resets_playback
        (host : Host) (message : LiveServerMessage) (w : World) :
  interrupted_of message = true ->
  outcome_of (onmessage host message w) = Returned tt
  /\ scheduledSourcesRef (state_of (onmessage host message w)) = []
  /\ isSpeaking (state_of (onmessage host message w)) = false
  /\ nextStartTimeRef (state_of (onmessage host message w)) = 0
  /\ (forall s, In s (scheduledSourcesRef w) ->
                In (node_stop s)
                   (calls_since w (state_of (onmessage host message w))))
  /\ (forall (later : Host) (payload : string) (buffer : AudioBuffer)
             (ctx : Handle),
         0 <= currentTime later ->
         outputContextRef (state_of (onmessage host message w)) = Some ctx ->
         payload <> "" ->
         decoded payload = Returned buffer ->
         In (node_start (nextHandle (state_of (onmessage host message w)))
                        (currentTime later))
            (calls_since
               (state_of (onmessage host message w))
               (state_of (onmessage later (audio_message payload None)
                                    (state_of (onmessage host message w)))))).
Proof.
  intros Hint.
  rewrite onmessage_branches, Hint. cbn [when].
  rewrite interrupt_spec.
  destruct (after_audio_frame host message w) as [[made Hmade] [Hkeep _]].
  set (w1 := after_audio host message w) in *.
  unfold outcome_of, state_of. cbn [fst snd].
  repeat split; try (destruct w1; reflexivity).
  - intros s Hs.
    rewrite (calls_since_app _ _
               (made ++ console_log "Model interrupted"
                     :: map node_stop (scheduledSourcesRef w1))).
    + apply in_or_app. right. right. apply in_map. now apply Hkeep.
    + destruct w1; cbn in *. now rewrite Hmade, <- app_assoc.
  - intros later payload buffer ctx Hclock Hctx Hpay Hdec.
    rewrite onmessage_branches.
    cbn [interrupted_of audio_message chain serverContent interrupted when].
    unfold after_audio.
    rewrite (audio_message_payload payload None Hpay), Hctx.
    cbn [ret snd].
    match goal with
    | |- In _ (calls_since ?a _) =>
        destruct (enqueue_decoded_fields later payload ctx buffer a Hdec)
          as [Hcalls _];
        rewrite (calls_since_app _ _ _ Hcalls)
    end.
    unfold scheduling. destruct w1; cbn.
    unfold Math_max. replace (Qle_bool 0 (currentTime later)) with true.
    + tauto.
    + symmetry. now apply Qle_bool_iff.
Qed.

(** *** The invariant *)

Lemma Set_delete_NoDup (x : Handle) (s : list Handle) :
  NoDup s -> NoDup (Set_delete x s).
Proof. apply NoDup_filter. Qed.

Ltac show_invariant :=
  constructor; cbn -[not_negative zero raised] in *;
  try solve [ assumption | constructor | congruence | lra
            | apply zero_not_negative | apply raised_not_negative
            | intros; congruence
            | intros a b Ha Hb; injection Ha as <-; injection Hb as <-; lia ].

Lemma invariant_initial : Invariant initial.
Proof. show_invariant. Qed.

Lemma invariant_cleaned (w : World) : Invariant (cleaned w).
Proof. show_invariant. Qed.

Lemma invariant_cleanup (host : Host) (w : World) :
  Invariant (state_of (cleanup host w)).
Proof. rewrite cleanup_spec. apply invariant_cleaned. Qed.

Lemma invariant_connect (host : Host) (w : World) :
  Invariant w -> Invariant (state_of (connect host w)).
Proof.
  intros [Hnd Hctx Hnodes Hsp Hvol]. unfold connect.
  destruct (truthy (API_KEY host)) as [apiKey|].
  - destruct w. unfold try_catch.
    destruct (microphone host) as [[]|err] eqn:Emic.
    + cbn in *. show_invariant.
    + cbn -[cleanup]. rewrite cleanup_spec. apply invariant_cleaned.
  - destruct w; cbn in *. show_invariant.
Qed.

Lemma invariant_onopen (w : World) :
  Invariant w -> Invariant (state_of (onopen w)).
Proof.
  intros [Hnd Hctx Hnodes Hsp Hvol]. destruct w. unfold onopen.
  cbn in *. destruct inputContextRef0, audioStreamRef0; cbn;
    try solve [show_invariant].
  destruct inputAnalyserRef0; cbn; show_invariant.
Qed.

Lemma invariant_onaudioprocess (inputData : AudioFrame) (w : World) :
  Invariant w -> Invariant (state_of (onaudioprocess inputData w)).
Proof.
  intros [Hnd Hctx Hnodes Hsp Hvol]. destruct w. unfold onaudioprocess.
  cbn -[block_rms createPcmBlob raised] in *.
  destruct sessionPromiseRef0; cbn -[block_rms createPcmBlob raised];
    show_invariant.
Qed.

Lemma invariant_onended (source : Handle) (w : World) :
  Invariant w -> Invariant (state_of (onended source w)).
Proof.
  intros [Hnd Hctx Hnodes Hsp Hvol]. destruct w. unfold onended.
  cbn -[Set_delete] in *. unfold Set_size.
  pose proof (Set_delete_NoDup source _ Hnd) as Hd.
  destruct (Set_delete source scheduledSourcesRef0) as [|x rest] eqn:E;
    cbn; show_invariant.
  intros _. apply Hsp. intros ->. discriminate.
Qed.

Lemma invariant_after_audio (host : Host) (message : LiveServerMessage)
      (w : World) :
  Invariant w -> Invariant (after_audio host message w).
Proof.
  intros Hinv. unfold after_audio.
  destruct (truthy (base64Audio_of message)) as [payload|];
    [destruct (outputContextRef w) as [ctx|] eqn:Ectx|]; try exact Hinv.
  destruct Hinv as [Hnd Hctx Hnodes Hsp Hvol].
  destruct (decoded payload) as [buffer|err] eqn:E.
  - rewrite (enqueue_decoded host payload ctx buffer w E).
    destruct w; cbn in *. show_invariant. now apply Set_add_NoDup.
  - rewrite (enqueue_failed host payload ctx err w E).
    destruct w; cbn in *. show_invariant.
Qed.

Lemma invariant_onmessage (host : Host) (message : LiveServerMessage)
      (w : World) :
  Invariant w -> Invariant (state_of (onmessage host message w)).
Proof.
  intros Hinv. rewrite onmessage_branches.
  pose proof (invariant_after_audio host message w Hinv) as H1.
  destruct (interrupted_of message); cbn [when]; [|exact H1].
  rewrite interrupt_spec. destruct H1 as [Hnd Hctx Hnodes Hsp Hvol].
  destruct (after_audio host message w); cbn in *. show_invariant.
Qed.

Lemma invariant_step (w : World) (occurrence : Host * Event) :
  Invariant w -> Invariant (step w occurrence).
Proof.
  intros Hinv. destruct occurrence as [host ev]. unfold step.
  destruct ev; cbn [fst snd dispatch].
  - now apply invariant_connect.
  - apply invariant_cleanup.
  - now apply invariant_onopen.
  - now apply invariant_onmessage.
  - unfold onclose, bind, call, modify. apply invariant_cleanup.
  - unfold onerror, bind, call, modify. apply invariant_cleanup.
  - now apply invariant_onaudioprocess.
  - now apply invariant_onended.
Qed.

Lemma invariant_run (trace : list (Host * Event)) :
  forall w, Invariant w -> Invariant (run trace w).
Proof.
  induction trace as [|occurrence trace IH]; intros w Hinv; [exact Hinv|].
  cbn [run fold_left]. apply IH. now apply invariant_step.
Qed.

Lemma invariant_reachable (w : World) : reachable w -> Invariant w.
Proof.
  intros [trace ->]. apply invariant_run, invariant_initial.
Qed.

(** *** Teardown *)

Lemma NoDup_stops (sources : list Handle) :
  NoDup sources -> NoDup (map node_stop sources).
Proof.
  induction 1 as [|x l Hx _ IH]; cbn; constructor; [|exact IH].
  rewrite in_map_iff. intros [y [Hy Hin]]. injection Hy as ->. contradiction.
Qed.

Lemma NoDup_stops_then (sources : list Handle) (after : list HostCall) :
  NoDup sources -> NoDup after ->
  (forall s, ~ In (node_stop s) after) ->
  NoDup (map node_stop sources ++ after).
Proof.
  intros Hs Ha Hdisj. apply NoDup_app; [now apply NoDup_stops | exact Ha |].
  intros c Hc. apply in_map_iff in Hc. destruct Hc as [s [<- _]]. apply Hdisj.
Qed.

Lemma not_in_stops_then (c : HostCall) (sources : list Handle)
      (after : list HostCall) :
  (forall s, c <> node_stop s) -> ~ In c after ->
  ~ In c (map node_stop sources ++ after).
Proof.
  intros Hc Ha Hin. apply in_app_or in Hin. destruct Hin as [Hin|Hin].
  - apply in_map_iff in Hin. destruct Hin as [s [Hs _]]. now apply (Hc s).
  - contradiction.
Qed.

Lemma NoDup_releases (w : World) : Invariant w -> NoDup (releases w).
Proof.
  intros [Hnd Hctx Hnodes _ _]. destruct w; unfold releases; cbn in *.
  assert (Htail : NoDup (map node_stop scheduledSourcesRef0
                         ++ opt_call context_close inputContextRef0
                         ++ opt_call context_close outputContextRef0)).
  { apply NoDup_stops_then; [exact Hnd | |].
    - destruct inputContextRef0 as [a|], outputContextRef0 as [b|]; cbn;
        repeat constructor; cbn; try tauto.
      intros [E|[]]. injection E as E. now apply (Hctx a b).
    - intros s. destruct inputContextRef0, outputContextRef0; cbn;
        intuition discriminate. }
  assert (Hrest : forall c, (forall s, c <> node_stop s) ->
                            (forall h, c <> context_close h) ->
                            ~ In c (map node_stop scheduledSourcesRef0
                                    ++ opt_call context_close inputContextRef0
                                    ++ opt_call context_close outputContextRef0)).
  { intros c Hstop Hclose. apply not_in_stops_then; [exact Hstop|].
    destruct inputContextRef0, outputContextRef0; cbn;
      intuition (eapply Hclose; eauto). }
  destruct scriptProcessorRef0 as [p|], sourceNodeRef0 as [n|],
           audioStreamRef0 as [st|]; cbn;
    repeat (constructor; cbn); try exact Htail;
    try (apply Hrest; intros; discriminate);
    intros Hin;
    repeat match goal with
      | H : _ \/ _ |- _ => destruct H as [H|H]
      | H : node_disconnect _ = node_disconnect _ |- _ =>
          injection H as H; now apply (Hnodes _ _ eq_refl eq_refl)
      | H : _ = _ |- _ => discriminate H
      end;
    try (revert Hin; apply Hrest; intros; discriminate).
Qed.

Lemma cleaned_cleaned (w : World) : cleaned (cleaned w) = cleaned w.
Proof. unfold cleaned, releases. cbn. now rewrite app_nil_r. Qed.

(** C2. [cleanup] never throws.  Run a second time, it changes nothing and
    calls nothing; run in the initial (idle) state, it changes nothing and
    calls nothing.  The calls of one run are one release for each resource
    held, and in every state of a session no resource is released twice
    by them. *)
Theorem cleanup_idempotent (first second : Host) (w : World) :
  reachable w ->
  outcome_of (cleanup first w) = Returned tt
  /\ cleanup second (state_of (cleanup first w))
     = (Returned tt, state_of (cleanup first w))
  /\ cleanup first initial = (Returned tt, initial)
  /\ calls_since w (state_of (cleanup first w)) = releases w
  /\ NoDup (releases w)
  /\ releases (state_of (cleanup first w)) = [].
Proof.
  intros Hreach. rewrite !cleanup_spec. cbn [outcome_of state_of fst snd].
  rewrite cleaned_cleaned. repeat split.
  - now apply calls_since_app.
  - now apply NoDup_releases, invariant_reachable.
Qed.

(** *** Speaking and the scheduled set *)

Lemma silent_cleaned (w : World) : silent_when_idle (cleaned w).
Proof. intros H. discriminate H. Qed.

Lemma silent_connect (host : Host) (w : World) :
  silent_when_idle w -> silent_when_idle (state_of (connect host w)).
Proof.
  intros Hw. unfold connect.
  destruct (truthy (API_KEY host)) as [apiKey|].
  - destruct w. unfold try_catch.
    destruct (microphone host) as [[]|err] eqn:Emic.
    + exact Hw.
    + cbn -[cleanup]. rewrite cleanup_spec. apply silent_cleaned.
  - destruct w. exact Hw.
Qed.

Lemma silent_onopen (w : World) :
  silent_when_idle w -> silent_when_idle (state_of (onopen w)).
Proof.
  intros Hw. destruct w. unfold onopen. cbn.
  destruct inputContextRef0, audioStreamRef0; cbn; try exact Hw.
  destruct inputAnalyserRef0; exact Hw.
Qed.

Lemma silent_onaudioprocess (inputData : AudioFrame) (w : World) :
  silent_when_idle w ->
  silent_when_idle (state_of (onaudioprocess inputData w)).
Proof.
  intros Hw. destruct w. unfold onaudioprocess.
  cbn -[block_rms createPcmBlob raised].
  destruct sessionPromiseRef0; exact Hw.
Qed.

Lemma silent_onended (source : Handle) (w : World) :
  silent_when_idle (state_of (onended source w)).
Proof.
  destruct w. unfold onended. cbn -[Set_delete].
  destruct (Set_delete source scheduledSourcesRef0) as [|x rest];
    intros H; cbn in *; [discriminate H | discriminate].
Qed.

Lemma silent_onmessage (host : Host) (message : LiveServerMessage)
      (w : World) :
  decodes (OnMessage message) ->
  silent_when_idle w ->
  silent_when_idle (state_of (onmessage host message w)).
Proof.
  intros Hdec Hw. rewrite onmessage_branches.
  destruct (interrupted_of message); cbn [when].
  - rewrite interrupt_spec. intros H.
    destruct (after_audio host message w). discriminate H.
  - unfold ret, state_of. cbn [snd]. unfold after_audio. cbn [decodes] in Hdec.
    destruct (truthy (base64Audio_of message)) as [payload|]; [|exact Hw].
    destruct (outputContextRef w) as [ctx|]; [|exact Hw].
    destruct Hdec as [buffer Hbuffer].
    destruct (enqueue_decoded_fields host payload ctx buffer w Hbuffer)
      as [_ [_ [Hset _]]].
    intros _. rewrite Hset. apply Set_add_nonempty.
Qed.

Lemma silent_step (w : World) (occurrence : Host * Event) :
  decodes (snd occurrence) ->
  silent_when_idle w -> silent_when_idle (step w occurrence).
Proof.
  intros Hdec Hw. destruct occurrence as [host ev]. unfold step.
  cbn [fst snd] in *. destruct ev; cbn [dispatch].
  - now apply silent_connect.
  - rewrite cleanup_spec. apply silent_cleaned.
  - now apply silent_onopen.
  - now apply silent_onmessage.
  - unfold onclose, bind, call, modify. rewrite cleanup_spec.
    apply silent_cleaned.
  - unfold onerror, bind, call, modify. rewrite cleanup_spec.
    apply silent_cleaned.
  - now apply silent_onaudioprocess.
  - apply silent_onended.
Qed.

(** As long as every audio payload decodes, [isSpeaking] is true exactly
    when a node is scheduled; the direction from scheduled to speaking
    needs no such condition ([invariant_reachable]). *)
Lemma speaking_iff_scheduled (trace : list (Host * Event)) :
  Forall (fun occurrence => decodes (snd occurrence)) trace ->
  isSpeaking (run trace initial) = true
  <-> scheduledSourcesRef (run trace initial) <> [].
Proof.
  intros Hdec. split.
  - assert (H : forall w, silent_when_idle w ->
                          silent_when_idle (run trace w)).
    { induction Hdec as [|occurrence trace Hocc _ IH]; intros w Hw;
        [exact Hw|].
      cbn [run fold_left]. apply IH. now apply silent_step. }
    apply H. intros Hinit. discriminate Hinit.
  - apply speaking_while_scheduled, invariant_reachable.
    now exists trace.
Qed.

(** An interruption while two buffers are scheduled. *)
Lemma interruption_resets_playback_witness :
  scheduledSourcesRef
    (state_of (onmessage (browser 2) interrupt_message playing_session)) = [].
Proof.
  exact (proj1 (proj2 (interruption_resets_playback
                         (browser 2) interrupt_message playing_session
                         eq_refl))).
Defined.

(** The sample states are states of a session. *)
Lemma open_session_reachable : reachable open_session.
Proof.
  exists [(browser 0, Connect); (browser 0, OnOpen)].
  vm_compute. reflexivity.
Qed.

Lemma playing_session_reachable : reachable playing_session.
Proof.
  exists [(browser 0, Connect); (browser 0, OnOpen);
          (browser 1, OnMessage (audio_message silence_payload None));
          (browser 1, OnMessage (audio_message silence_payload None))].
  vm_compute. reflexivity.
Qed.

(** Hanging up twice while two buffers are scheduled. *)
Lemma cleanup_idempotent_witness :
  cleanup (browser 3) (state_of (cleanup (browser 2) playing_session))
  = (Returned tt, state_of (cleanup (browser 2) playing_session)).
Proof.
  exact (proj1 (proj2 (cleanup_idempotent
                         (browser 2) (browser 3) playing_session
                         playing_session_reachable))).
Defined.

(** C6. With no API key configured, [connect] sets the error to
    "API Key missing" and returns: no other field changes (in particular
    the session stays unconnected when it was) and no call into the host
    is made, so the microphone is never asked for. *)
Theorem connect_without_api_key (host : Host) (w : World) :
  truthy (API_KEY host) = None ->
  connect host w = (Returned tt, with_error (Some "API Key missing") w)
  /\ error (state_of (connect host w)) = Some "API Key missing"
  /\ isConnected (state_of (connect host w)) = isConnected w
  /\ audioStreamRef (state_of (connect host w)) = audioStreamRef w
  /\ calls_since w (state_of (connect host w)) = []
  /\ ~ In getUserMedia (calls_since w (state_of (connect host w))).
Proof.
  intros Hkey. unfold connect. rewrite Hkey.
  unfold modify, state_of. cbn [snd].
  assert (E : calls_since w (with_error (Some "API Key missing") w) = []).
  { apply calls_since_app. destruct w; cbn. now rewrite app_nil_r. }
  rewrite E. destruct w; cbn. repeat split; auto.
Qed.

(** [connect] in the initial state of a browser without a key. *)
Lemma connect_without_api_key_witness :
  connect browser_without_key initial
  = (Returned tt, with_error (Some "API Key missing") initial).
Proof.
  exact (proj1 (connect_without_api_key browser_without_key initial
                                        eq_refl)).
Defined.

(** C10. When one message carries both an audio payload and
    [interrupted: true], the handler returns with the set empty,
    [isSpeaking] false and [nextStartTime] 0; and when the payload decodes
    (an output context being there), the calls of the handler are those
    that schedule the new node, then the log line of the interruption, then
    one [stop] per scheduled node, the new one included. *)
Theorem audio_then_interruption
        (host : Host) (message : LiveServerMessage) (payload : string)
        (w : World) :
  truthy (base64Audio_of message) = Some payload ->
  interrupted_of message = true ->
  outcome_of (onmessage host message w) = Returned tt
  /\ scheduledSourcesRef (state_of (onmessage host message w)) = []
  /\ isSpeaking (state_of (onmessage host message w)) = false
  /\ nextStartTimeRef (state_of (onmessage host message w)) = 0
  /\ forall (ctx : Handle) (buffer : AudioBuffer),
      outputContextRef w = Some ctx ->
      decoded payload = Returned buffer ->
      calls_since w (state_of (onmessage host message w))
      = scheduling w ctx buffer
          (Math_max (nextStartTimeRef w) (currentTime host))
        ++ console_log "Model interrupted"
        :: map node_stop (Set_add (nextHandle w) (scheduledSourcesRef w))
      /\ In (node_stop (nextHandle w))
            (map node_stop (Set_add (nextHandle w) (scheduledSourcesRef w))).
Proof.
  intros Hpay Hint.
  destruct (onmessage_interrupted host message w Hint)
    as [H1 [H2 [H3 H4]]].
  repeat (split; [assumption|]).
  intros ctx buffer Hctx Hdec. split.
  - rewrite onmessage_branches, Hint. cbn [when].
    rewrite interrupt_spec. unfold after_audio. rewrite Hpay, Hctx.
    destruct (enqueue_decoded_fields host payload ctx buffer w Hdec)
      as [Hcalls [_ [Hset _]]].
    apply calls_since_app.
    set (w1 := state_of (enqueue host payload ctx w)) in *.
    destruct w1; cbn in *. now rewrite Hcalls, Hset, <- app_assoc.
  - apply in_map, Set_add_In. now left.
Qed.

(** A message with audio and an interruption while two buffers are
    scheduled. *)
Lemma audio_then_interruption_witness :
  scheduledSourcesRef
    (state_of (onmessage (browser 2)
                         (audio_message silence_payload (Some true))
                         playing_session)) = [].
Proof.
  assert (Hpayload : truthy (base64Audio_of
                               (audio_message silence_payload (Some true)))
                     = Some silence_payload)
    by (vm_compute; reflexivity).
  exact (proj1 (proj2 (audio_then_interruption
                         (browser 2)
                         (audio_message silence_payload (Some true))
                         silence_payload playing_session
                         Hpayload eq_refl))).
Defined.

(** C4, at the input where the session departs from it: connected and
    opened, with nothing scheduled, the session receives a message whose
    payload is one byte long; decoding throws, and the handler leaves
    [isSpeaking] true with an empty set of scheduled nodes. *)
Lemma speaking_with_nothing_scheduled :
  reachable (step open_session
                  (browser 1, OnMessage (audio_message corrupt_payload None)))
  /\ isSpeaking
       (step open_session
             (browser 1, OnMessage (audio_message corrupt_payload None)))
     = true
  /\ scheduledSourcesRef
       (step open_session
             (browser 1, OnMessage (audio_message corrupt_payload None)))
     = [].
Proof.
  split; [|split; vm_compute; reflexivity].
  exists [(browser 0, Connect); (browser 0, OnOpen);
          (browser 1, OnMessage (audio_message corrupt_payload None))].
  vm_compute. reflexivity.
Qed.

(** *** The playback timeline *)

Lemma follows_gapless (s d : Q) (starts durations : list Q) :
  follows (s + d) starts durations ->
  gapless (s :: starts) (d :: durations).
Proof.
  revert s d durations.
  induction starts as [|s' starts IH]; intros s d durations H; [exact I|].
  destruct durations as [|d' durations]; [destruct H|].
  destruct H as [Hs Hrest]. cbn [gapless]. split; [exact Hs|].
  now apply IH.
Qed.

Lemma start_times_app (a b : list HostCall) :
  start_times (a ++ b) = start_times a ++ start_times b.
Proof. unfold start_times. apply flat_map_app. Qed.

Lemma start_times_scheduling (w : World) (ctx : Handle)
      (buffer : AudioBuffer) (t : Q) :
  start_times (scheduling w ctx buffer t) = [t].
Proof. unfold scheduling. destruct (outputAnalyserRef w); reflexivity. Qed.

Lemma step_message (host : Host) (message : LiveServerMessage) (w : World) :
  step w (message_event (host, message))
  = state_of (onmessage host message w).
Proof. reflexivity. Qed.

(** One message that plays: what it adds to the log and to the timeline. *)
Lemma plays_step (host : Host) (message : LiveServerMessage) (w : World)
      (ctx : Handle) :
  outputContextRef w = Some ctx ->
  plays message ->
  exists made,
    calls (step w (message_event (host, message))) = calls w ++ made
    /\ start_times made
       = [Math_max (nextStartTimeRef w) (currentTime host)]
    /\ nextStartTimeRef (step w (message_event (host, message)))
       = Math_max (nextStartTimeRef w) (currentTime host)
         + chunk_duration message
    /\ outputContextRef (step w (message_event (host, message))) = Some ctx.
Proof.
  intros Hctx [Hbuf Hint]. rewrite step_message, onmessage_branches, Hint.
  cbn [when]. unfold ret, state_of. cbn [snd].
  unfold after_audio, chunk_duration. unfold chunk_buffer in *.
  destruct (truthy (base64Audio_of message)) as [payload|]; [|congruence].
  destruct (decoded payload) as [buffer|err] eqn:Hdec; [|congruence].
  rewrite Hctx.
  destruct (enqueue_decoded_fields host payload ctx buffer w Hdec)
    as [Hcalls [Hns [_ [_ [_ [Hout _]]]]]].
  eexists. split; [exact Hcalls|]. split; [apply start_times_scheduling|].
  split; [exact Hns | congruence].
Qed.

Lemma on_time_run (chunks : list (Host * LiveServerMessage)) :
  forall (w : World) (ctx : Handle),
    outputContextRef w = Some ctx ->
    Forall (fun chunk => plays (snd chunk)) chunks ->
    on_time w chunks ->
    exists made,
      calls (run (map message_event chunks) w) = calls w ++ made
      /\ List.length (start_times made) = List.length chunks
      /\ follows (nextStartTimeRef w) (start_times made)
                 (map (fun chunk => chunk_duration (snd chunk)) chunks)
      /\ nextStartTimeRef (run (map message_event chunks) w)
         == nextStartTimeRef w
            + Qsum (map (fun chunk => chunk_duration (snd chunk)) chunks).
Proof.
  induction chunks as [|[host message] chunks IH];
    intros w ctx Hctx Hplays Htime.
  - exists []. cbn. rewrite app_nil_r. repeat split. unfold Qsum. cbn. lra.
  - inversion Hplays as [|? ? Hplay Hrest]; subst. cbn [snd] in Hplay.
    destruct Htime as [Hnow Hlater]. cbn [fst] in Hnow.
    destruct (plays_step host message w ctx Hctx Hplay)
      as [made1 [Hcalls1 [Hstart1 [Hns1 Hctx1]]]].
    destruct (IH _ ctx Hctx1 Hrest Hlater)
      as [made2 [Hcalls2 [Hlen2 [Hfollows2 Hns2]]]].
    exists (made1 ++ made2). cbn [map run fold_left].
    fold (run (map message_event chunks)
              (step w (message_event (host, message)))).
    rewrite Hcalls2, Hcalls1, <- app_assoc.
    split; [reflexivity|].
    rewrite start_times_app, Hstart1. cbn [app List.length].
    split; [now rewrite Hlen2|].
    cbn [follows snd]. rewrite Hns1 in Hfollows2, Hns2.
    split; [split; [minmax_cases; lra | exact Hfollows2]|].
    rewrite Hns2, Qsum_cons. minmax_cases; lra.
Qed.

Lemma follows_max_back_to_back (t s d : Q) (arrivals starts durations : list Q) :
  follows_max (s + d) arrivals starts durations ->
  back_to_back (t :: arrivals) (s :: starts) (d :: durations).
Proof.
  revert t s d starts durations.
  induction arrivals as [|t' arrivals IH]; intros t s d starts durations H.
  - destruct starts; exact I.
  - destruct starts as [|s' starts]; [exact I|].
    destruct durations as [|d' durations]; [destruct H|].
    destruct H as [Hs Hrest]. cbn [back_to_back].
    split; [rewrite Hs; apply Math_max_floor|].
    split; [intros Hearly; rewrite Hs; minmax_cases; lra|].
    now apply IH.
Qed.

Lemma plays_run (chunks : list (Host * LiveServerMessage)) :
  forall (w : World) (ctx : Handle),
    outputContextRef w = Some ctx ->
    Forall (fun chunk => plays (snd chunk)) chunks ->
    exists made,
      calls (run (map message_event chunks) w) = calls w ++ made
      /\ List.length (start_times made) = List.length chunks
      /\ follows_max (nextStartTimeRef w)
                     (map (fun chunk => currentTime (fst chunk)) chunks)
                     (start_times made)
                     (map (fun chunk => chunk_duration (snd chunk)) chunks).
Proof.
  induction chunks as [|[host message] chunks IH]; intros w ctx Hctx Hplays.
  - exists []. cbn. rewrite app_nil_r. repeat split.
  - inversion Hplays as [|? ? Hplay Hrest]; subst. cbn [snd] in Hplay.
    destruct (plays_step host message w ctx Hctx Hplay)
      as [made1 [Hcalls1 [Hstart1 [Hns1 Hctx1]]]].
    destruct (IH _ ctx Hctx1 Hrest) as [made2 [Hcalls2 [Hlen2 Hfollows2]]].
    exists (made1 ++ made2). cbn [map run fold_left].
    fold (run (map message_event chunks)
              (step w (message_event (host, message)))).
    rewrite Hcalls2, Hcalls1, <- app_assoc.
    split; [reflexivity|].
    rewrite start_times_app, Hstart1. cbn [app List.length].
    split; [now rewrite Hlen2|].
    cbn [follows_max fst snd]. rewrite Hns1 in Hfollows2.
    split; [reflexivity | exact Hfollows2].
Qed.

(** C1. In a sequence of audio messages with no interruption, the first
    buffer starts at [max(nextStartTime, currentTime)]; no buffer starts
    before the one before it has ended, and a buffer whose message arrives
    before the end of the timeline starts exactly at the previous start
    plus the previous duration.  When every message after the first
    arrives that early, the schedule has no gap and [nextStartTime] ends at
    the first start plus the sum of the durations, whatever the arrival
    times were. *)
Theorem timeline_gapless
        (w : World) (ctx : Handle) (first : Host * LiveServerMessage)
        (rest : list (Host * LiveServerMessage)) :
  outputContextRef w = Some ctx ->
  Forall (fun chunk => plays (snd chunk)) (first :: rest) ->
  exists later_starts : list Q,
    start_times
      (calls_since w (run (map message_event (first :: rest)) w))
    = Math_max (nextStartTimeRef w) (currentTime (fst first))
      :: later_starts
    /\ List.length later_starts = List.length rest
    /\ back_to_back
         (map (fun chunk => currentTime (fst chunk)) (first :: rest))
         (Math_max (nextStartTimeRef w) (currentTime (fst first))
          :: later_starts)
         (map (fun chunk => chunk_duration (snd chunk)) (first :: rest))
    /\ (on_time (step w (message_event first)) rest ->
        gapless
          (Math_max (nextStartTimeRef w) (currentTime (fst first))
           :: later_starts)
          (map (fun chunk => chunk_duration (snd chunk)) (first :: rest))
        /\ nextStartTimeRef (run (map message_event (first :: rest)) w)
           == Math_max (nextStartTimeRef w) (currentTime (fst first))
              + Qsum (map (fun chunk => chunk_duration (snd chunk))
                          (first :: rest))).
Proof.
  intros Hctx Hplays. destruct first as [host message].
  inversion Hplays as [|? ? Hplay Hrest]; subst. cbn [snd fst] in *.
  destruct (plays_step host message w ctx Hctx Hplay)
    as [made1 [Hcalls1 [Hstart1 [Hns1 Hctx1]]]].
  destruct (plays_run rest _ ctx Hctx1 Hrest)
    as [made2 [Hcalls2 [Hlen2 Hmax2]]].
  exists (start_times made2). cbn [map run fold_left].
  fold (run (map message_event rest)
            (step w (message_event (host, message)))).
  rewrite (calls_since_app _ _ (made1 ++ made2))
    by (now rewrite Hcalls2, Hcalls1, <- app_assoc).
  rewrite start_times_app, Hstart1. cbn [app fst snd].
  split; [reflexivity|]. split; [exact Hlen2|].
  rewrite Hns1 in Hmax2.
  split; [now apply follows_max_back_to_back|].
  intros Htime.
  destruct (on_time_run rest _ ctx Hctx1 Hrest Htime)
    as [made3 [Hcalls3 [_ [Hfollows3 Hns3]]]].
  rewrite Hcalls2 in Hcalls3. apply app_inv_head in Hcalls3. subst made3.
  rewrite Hns1 in Hfollows3, Hns3.
  split; [now apply follows_gapless|].
  rewrite Hns3, Qsum_cons. lra.
Qed.

(** *** A chunk that does not decode *)

Lemma start_times_stops (sources : list Handle) :
  start_times (map node_stop sources) = [].
Proof. induction sources; [reflexivity | exact IHsources]. Qed.

Lemma start_times_releases (w : World) : start_times (releases w) = [].
Proof.
  unfold releases. rewrite !start_times_app, start_times_stops.
  destruct (scriptProcessorRef w), (sourceNodeRef w), (audioStreamRef w),
    (inputContextRef w), (outputContextRef w); reflexivity.
Qed.

Ltac split_agree H :=
  destruct H as [Hrest Hns]; unfold rest_of in Hrest; cbn in Hrest, Hns;
  injection Hrest as; subst.

Lemma releases_agree (c : Q) (wa wb : World) :
  agree c wa wb -> releases wa = releases wb.
Proof. intros H. destruct wa, wb. split_agree H. reflexivity. Qed.

Lemma agree_cleaned (c : Q) (wa wb : World) :
  agree c wa wb -> agree c (cleaned wa) (cleaned wb).
Proof.
  intros H. destruct wa, wb. split_agree H.
  split; [reflexivity | left; reflexivity].
Qed.

Lemma same_step_refl (c : Q) (wa wb : World) :
  agree c wa wb -> same_step c wa wb wa wb.
Proof.
  intros H. exists [], []. rewrite !app_nil_r.
  repeat (split; [reflexivity|]). split; [constructor | exact H].
Qed.

Lemma same_step_cleaned (c : Q) (wa wb wa1 wb1 : World) :
  same_step c wa wb wa1 wb1 ->
  same_step c wa wb (cleaned wa1) (cleaned wb1).
Proof.
  intros [ma [mb [Ha [Hb [Hst Hag]]]]].
  exists (ma ++ releases wa1), (mb ++ releases wb1).
  unfold cleaned at 1 2. cbn [calls]. rewrite Ha, Hb, <- !app_assoc.
  split; [reflexivity|]. split; [reflexivity|].
  split; [|now apply agree_cleaned].
  rewrite !start_times_app, !start_times_releases, !app_nil_r. exact Hst.
Qed.

(** Steps that neither read the timeline nor start a node are settled by
    running them on both sides. *)
Ltac made_so_far := first [reflexivity | symmetry; apply app_nil_r].

Ltac same_by_running :=
  repeat rewrite <- app_assoc; cbn [app];
  eexists; eexists;
  split; [made_so_far|]; split; [made_so_far|];
  split; [cbn; constructor | split; [reflexivity | cbn; assumption]].

Lemma same_cleanup (c : Q) (host : Host) (wa wb : World) :
  agree c wa wb ->
  same_step c wa wb (state_of (cleanup host wa)) (state_of (cleanup host wb)).
Proof.
  intros H. rewrite !cleanup_spec. cbn [state_of snd].
  now apply same_step_cleaned, same_step_refl.
Qed.

Lemma same_onclose (c : Q) (host : Host) (wa wb : World) :
  agree c wa wb ->
  same_step c wa wb (state_of (onclose host wa)) (state_of (onclose host wb)).
Proof.
  intros H. unfold onclose, bind, call, modify. rewrite !cleanup_spec.
  cbn [state_of snd]. apply same_step_cleaned.
  destruct wa, wb. split_agree H. cbn. same_by_running.
Qed.

Lemma same_onerror (c : Q) (host : Host) (err : string) (wa wb : World) :
  agree c wa wb ->
  same_step c wa wb (state_of (onerror host err wa))
            (state_of (onerror host err wb)).
Proof.
  intros H. unfold onerror, bind, call, modify. rewrite !cleanup_spec.
  cbn [state_of snd]. apply same_step_cleaned.
  destruct wa, wb. split_agree H. cbn. same_by_running.
Qed.

Lemma same_connect (c : Q) (host : Host) (wa wb : World) :
  agree c wa wb ->
  same_step c wa wb (state_of (connect host wa)) (state_of (connect host wb)).
Proof.
  intros H. unfold connect.
  destruct (truthy (API_KEY host)) as [apiKey|].
  - unfold try_catch. destruct wa, wb. split_agree H.
    destruct (microphone host) as [[]|err] eqn:Emic.
    + cbn. same_by_running.
    + cbn -[cleanup]. rewrite !cleanup_spec. cbn [state_of snd].
      apply same_step_cleaned. cbn. same_by_running.
  - destruct wa, wb. split_agree H. cbn. same_by_running.
Qed.

Lemma same_onopen (c : Q) (wa wb : World) :
  agree c wa wb ->
  same_step c wa wb (state_of (onopen wa)) (state_of (onopen wb)).
Proof.
  intros H. destruct wa, wb. split_agree H. unfold onopen. cbn.
  match goal with
  | |- context [match ?i with Some _ => _ | None => _ end] =>
      destruct i as [ictx|]
  end; [|cbn; same_by_running].
  match goal with
  | |- context [match ?i with Some _ => _ | None => _ end] =>
      destruct i as [stream|]
  end; [|cbn; same_by_running].
  cbn.
  match goal with
  | |- context [when_some ?i _] => destruct i
  end; cbn; same_by_running.
Qed.

Lemma same_onaudioprocess (c : Q) (inputData : AudioFrame) (wa wb : World) :
  agree c wa wb ->
  same_step c wa wb (state_of (onaudioprocess inputData wa))
            (state_of (onaudioprocess inputData wb)).
Proof.
  intros H. destruct wa, wb. split_agree H. unfold onaudioprocess.
  cbn -[block_rms createPcmBlob raised].
  match goal with
  | |- context [when_some ?i _] => destruct i
  end; cbn -[block_rms createPcmBlob raised]; same_by_running.
Qed.

Lemma same_onended (c : Q) (source : Handle) (wa wb : World) :
  agree c wa wb ->
  same_step c wa wb (state_of (onended source wa))
            (state_of (onended source wb)).
Proof.
  intros H. destruct wa, wb. split_agree H. unfold onended.
  cbn -[Set_delete].
  match goal with
  | |- context [Set_delete ?x ?l] => destruct (Set_delete x l)
  end; cbn; same_by_running.
Qed.

Lemma same_step_trans (c : Q) (wa wb wa1 wb1 wa2 wb2 : World) :
  same_step c wa wb wa1 wb1 ->
  (agree c wa1 wb1 -> same_step c wa1 wb1 wa2 wb2) ->
  same_step c wa wb wa2 wb2.
Proof.
  intros [ma [mb [Ha [Hb [Hst Hag]]]]] Hnext.
  destruct (Hnext Hag) as [ma' [mb' [Ha' [Hb' [Hst' Hag']]]]].
  exists (ma ++ ma'), (mb ++ mb').
  rewrite Ha', Hb', Ha, Hb, <- !app_assoc, !start_times_app.
  repeat (split; [reflexivity|]).
  split; [now apply Forall2_app | exact Hag'].
Qed.

Lemma Math_max_agree (c ct a b : Q) :
  a == b \/ (b <= a /\ a <= c) -> c <= ct ->
  Math_max a ct == Math_max b ct.
Proof. intros [H|[H1 H2]] Hc; minmax_cases; lra. Qed.

Lemma same_after_audio (c : Q) (host : Host) (message : LiveServerMessage)
      (wa wb : World) :
  agree c wa wb -> c <= currentTime host ->
  same_step c wa wb (after_audio host message wa)
            (after_audio host message wb).
Proof.
  intros H Hc. unfold after_audio.
  destruct (truthy (base64Audio_of message)) as [payload|];
    [|now apply same_step_refl].
  assert (Hctx : outputContextRef wa = outputContextRef wb).
  { destruct wa, wb. split_agree H. reflexivity. }
  rewrite Hctx. destruct (outputContextRef wb) as [ctx|];
    [|now apply same_step_refl].
  destruct (decoded payload) as [buffer|err] eqn:Hdec.
  - rewrite !(enqueue_decoded host payload ctx buffer _ Hdec).
    cbn [state_of snd]. destruct wa, wb. split_agree H.
    unfold scheduling. cbn.
    eexists; eexists.
    split; [reflexivity|]. split; [reflexivity|].
    pose proof (Math_max_agree c (currentTime host) _ _ Hns Hc) as Hmax.
    split.
    + match goal with
      | |- context [match ?a with Some _ => _ | None => _ end] =>
          destruct a
      end; cbn; repeat constructor; exact Hmax.
    + split; [reflexivity|]. cbn. left. rewrite Hmax. reflexivity.
  - rewrite !(enqueue_failed host payload ctx err _ Hdec).
    cbn [state_of snd]. destruct wa, wb. split_agree H. cbn.
    eexists; eexists.
    split; [reflexivity|]. split; [reflexivity|].
    split; [cbn; constructor|].
    split; [reflexivity|]. cbn. left.
    now apply (Math_max_agree c).
Qed.

Lemma same_interrupt (c : Q) (host : Host) (wa wb : World) :
  agree c wa wb ->
  same_step c wa wb (state_of (interrupt host wa))
            (state_of (interrupt host wb)).
Proof.
  intros H. rewrite !interrupt_spec. cbn [state_of snd].
  destruct wa, wb. split_agree H. cbn.
  eexists; eexists.
  split; [reflexivity|]. split; [reflexivity|].
  split; [|split; [reflexivity | left; reflexivity]].
  change (Forall2 Qeq (start_times (map node_stop scheduledSourcesRef1))
                  (start_times (map node_stop scheduledSourcesRef1))).
  rewrite start_times_stops. constructor.
Qed.

Lemma same_onmessage (c : Q) (host : Host) (message : LiveServerMessage)
      (wa wb : World) :
  agree c wa wb -> c <= currentTime host ->
  same_step c wa wb (state_of (onmessage host message wa))
            (state_of (onmessage host message wb)).
Proof.
  intros H Hc. rewrite !onmessage_branches.
  pose proof (same_after_audio c host message wa wb H Hc) as Haudio.
  destruct (interrupted_of message); cbn [when]; [|exact Haudio].
  apply (same_step_trans c wa wb _ _ _ _ Haudio).
  apply same_interrupt.
Qed.

Lemma same_dispatch (c : Q) (occurrence : Host * Event) (wa wb : World) :
  agree c wa wb -> c <= currentTime (fst occurrence) ->
  same_step c wa wb (step wa occurrence) (step wb occurrence).
Proof.
  intros H Hc. destruct occurrence as [host ev]. unfold step.
  cbn [fst snd] in *. destruct ev; cbn [dispatch].
  - now apply same_connect.
  - now apply same_cleanup.
  - now apply same_onopen.
  - now apply same_onmessage.
  - now apply same_onclose.
  - now apply same_onerror.
  - now apply same_onaudioprocess.
  - now apply same_onended.
Qed.

Lemma same_run (c : Q) (later : list (Host * Event)) :
  forall wa wb : World,
    agree c wa wb ->
    Forall (fun occurrence => c <= currentTime (fst occurrence)) later ->
    same_step c wa wb (run later wa) (run later wb).
Proof.
  induction later as [|occurrence later IH]; intros wa wb H Hclock.
  - now apply same_step_refl.
  - inversion Hclock as [|? ? Hc Hrest]; subst. cbn [run fold_left].
    apply (same_step_trans c wa wb _ _ _ _
             (same_dispatch c occurrence wa wb H Hc)).
    intros H1. now apply IH.
Qed.

(** C5. A message whose payload does not decode makes [onmessage] return
    normally, having logged the error and nothing else; the session's
    connection, its session handle and its scheduled nodes are as before.
    Whatever handlers run afterwards, with an output clock that does not go
    back, the playback nodes are started at the same times as if that
    message had never arrived. *)
Theorem corrupt_chunk_is_skipped
        (host : Host) (message : LiveServerMessage) (err : string)
        (w : World) (ctx : Handle) (later : list (Host * Event)) :
  outputContextRef w = Some ctx ->
  corrupt message err ->
  Forall (fun occurrence => currentTime host <= currentTime (fst occurrence))
         later ->
  outcome_of (onmessage host message w) = Returned tt
  /\ calls_since w (state_of (onmessage host message w))
     = [console_error ["Audio decode error"; err]]
  /\ isConnected (state_of (onmessage host message w)) = isConnected w
  /\ sessionPromiseRef (state_of (onmessage host message w))
     = sessionPromiseRef w
  /\ scheduledSourcesRef (state_of (onmessage host message w))
     = scheduledSourcesRef w
  /\ Forall2 Qeq
       (start_times
          (calls_since (state_of (onmessage host message w))
                       (run later (state_of (onmessage host message w)))))
       (start_times (calls_since w (run later w))).
Proof.
  intros Hctx [[payload [Hpay Hdec]] Hint] Hclock.
  rewrite onmessage_branches, Hint. cbn [when].
  unfold after_audio. rewrite Hpay, Hctx.
  rewrite (enqueue_failed host payload ctx err w Hdec).
  unfold ret, outcome_of, state_of. cbn [fst snd].
  split; [reflexivity|].
  split; [apply calls_since_app; destruct w; reflexivity|].
  split; [destruct w; reflexivity|].
  split; [destruct w; reflexivity|].
  split; [destruct w; reflexivity|].
  match goal with
  | |- context [run later ?bad] =>
      assert (Hag : agree (currentTime host) bad w)
  end.
  { destruct w; split; [reflexivity|]. cbn.
    minmax_cases; [right | left]; lra. }
  destruct (same_run (currentTime host) later _ _ Hag Hclock)
    as [ma [mb [Ha [Hb [Hst _]]]]].
  now rewrite (calls_since_app _ _ _ Ha), (calls_since_app _ _ _ Hb).
Qed.

(** Three chunks of two samples, each arriving one sample after the one
    before: the timeline ends at the first start plus the three durations. *)
Lemma timeline_gapless_witness :
  nextStartTimeRef
    (run (map message_event (first_chunk :: later_chunks)) open_session)
  == Math_max (nextStartTimeRef open_session) (currentTime (fst first_chunk))
     + Qsum (map (fun chunk => chunk_duration (snd chunk))
                 (first_chunk :: later_chunks)).
Proof.
  assert (Hctx : outputContextRef open_session = Some 2%nat)
    by (vm_compute; reflexivity).
  assert (Hplays : Forall (fun chunk => plays (snd chunk))
                          (first_chunk :: later_chunks))
    by (unfold later_chunks; repeat constructor; vm_compute; discriminate).
  assert (Htime : on_time (step open_session (message_event first_chunk))
                          later_chunks)
    by (vm_compute; repeat split; discriminate).
  destruct (timeline_gapless open_session 2%nat first_chunk later_chunks
                             Hctx Hplays)
    as [later_starts [_ [_ [_ Hontime]]]].
  exact (proj2 (Hontime Htime)).
Defined.

(** A one-byte payload while two buffers are scheduled. *)
Lemma corrupt_chunk_is_skipped_witness :
  outcome_of (onmessage (browser 2) (audio_message corrupt_payload None)
                        playing_session)
  = Returned tt.
Proof.
  assert (Hctx : outputContextRef playing_session = Some 2%nat)
    by (vm_compute; reflexivity).
  assert (Hcorrupt : corrupt (audio_message corrupt_payload None)
                             "DecodeError").
  { split; [|reflexivity]. exists corrupt_payload.
    split; vm_compute; reflexivity. }
  assert (Hclock : Forall (fun occurrence =>
                             currentTime (browser 2)
                             <= currentTime (fst occurrence))
                          [(browser 3,
                            OnMessage (audio_message silence_payload None))])
    by (repeat constructor; vm_compute; discriminate).
  exact (proj1 (corrupt_chunk_is_skipped
                  (browser 2) (audio_message corrupt_payload None)
                  "DecodeError" playing_session 2%nat
                  [(browser 3,
                    OnMessage (audio_message silence_payload None))]
                  Hctx Hcorrupt Hclock)).
Defined.

End SessionFacts.

(** ** The volume *)

Module VolumeFacts.

Import Stdlib.Reals.Reals Stdlib.Reals.Qreals.
Import Num JsMonad Audio LiveSession NumFacts NumberFacts SessionFacts.
Local Open Scope string_scope.
Local Open Scope list_scope.
Local Open Scope R_scope.

(** The loop's accumulator holds the sum of the squares. *)
Lemma squares_sum (inputData : AudioFrame) (acc : Q) :
  (fold_left (fun a x => a + x * x) inputData acc
   == acc + fold_right Qplus 0 (map (fun x => x * x) inputData))%Q.
Proof.
  revert acc. induction inputData as [|x rest IH]; intros acc.
  - cbn. lra.
  - cbn [fold_left map fold_right]. rewrite IH. lra.
Qed.

Lemma squares_nonneg (inputData : AudioFrame) :
  (0 <= fold_right Qplus 0 (map (fun x => x * x) inputData))%Q.
Proof.
  induction inputData as [|x rest IH]; [cbn; lra|].
  cbn [map fold_right]. pose proof (Qpower.Qsqr_nonneg x) as Hx.
  cbn in Hx. nra.
Qed.

(** The loudness of a block that has samples is the square root of the
    mean of their squares. *)
Lemma block_rms_spec (inputData : AudioFrame) :
  inputData <> [] ->
  exists rms : R,
    block_rms inputData = Some rms
    /\ 0 <= rms
    /\ rms * rms
       = Q2R (fold_right Qplus 0%Q (map (fun x => (x * x)%Q) inputData)
              / inject_Z (Z.of_nat (List.length inputData))).
Proof.
  intros Hne. unfold block_rms, mean.
  destruct (List.length inputData) as [|n] eqn:Elen.
  - destruct inputData; [contradiction | discriminate Elen].
  - assert (Hn : (0 < inject_Z (Z.of_nat (S n)))%Q).
    { change 0%Q with (inject_Z 0). rewrite <- Zlt_Qlt. lia. }
    assert (E : Q2R (fold_left (fun a x => a + x * x)%Q inputData 0%Q
                     / inject_Z (Z.of_nat (S n)))
                = Q2R (fold_right Qplus 0%Q
                                  (map (fun x => (x * x)%Q) inputData)
                       / inject_Z (Z.of_nat (S n)))).
    { apply Qeq_eqR. rewrite squares_sum. apply Qdiv_comp; [lra | reflexivity]. }
    rewrite E. apply Math_sqrt_spec. apply Q2R_nonneg.
    apply Qle_shift_div_l; [exact Hn|].
    pose proof (squares_nonneg inputData). lra.
Qed.

Lemma onaudioprocess_volume (inputData : AudioFrame) (w : World) :
  volume (state_of (onaudioprocess inputData w))
  = raised (volume w) (block_rms inputData).
Proof.
  destruct w. unfold onaudioprocess.
  cbn -[block_rms createPcmBlob raised].
  destruct sessionPromiseRef0; reflexivity.
Qed.

(** A block without samples leaves the volume [NaN]. *)
Lemma empty_block_is_NaN (w : World) :
  volume (state_of (onaudioprocess [] w)) = NaN.
Proof.
  rewrite onaudioprocess_volume. unfold block_rms, mean, raised. cbn.
  now destruct (volume w).
Qed.

(** What one handler does to the volume: nothing, or [cleanup] resets
    it, or the capture callback raises it. *)
Lemma volume_step (w : World) (occurrence : Host * Event) :
  volume (step w occurrence) = volume w
  \/ volume (step w occurrence) = zero
  \/ exists inputData,
      snd occurrence = AudioProcess inputData
      /\ volume (step w occurrence)
         = raised (volume w) (block_rms inputData).
Proof.
  destruct occurrence as [host ev]. unfold step. cbn [fst snd].
  destruct ev; cbn [dispatch].
  - unfold connect. destruct (truthy (API_KEY host)) as [apiKey|].
    + destruct w. unfold try_catch.
      destruct (microphone host) as [[]|err] eqn:Emic.
      * left. reflexivity.
      * right. left. cbn -[cleanup]. now rewrite cleanup_spec.
    + left. destruct w; reflexivity.
  - right. left. now rewrite cleanup_spec.
  - left. destruct w. unfold onopen. cbn.
    destruct inputContextRef0, audioStreamRef0; cbn; try reflexivity.
    destruct inputAnalyserRef0; reflexivity.
  - left. rewrite onmessage_branches.
    assert (Haudio : volume (after_audio host message w) = volume w).
    { unfold after_audio.
      destruct (truthy (base64Audio_of message)) as [payload|];
        [|reflexivity].
      destruct (outputContextRef w) as [ctx|]; [|reflexivity].
      destruct (decoded payload) as [buffer|err] eqn:Hdec.
      - rewrite (enqueue_decoded host payload ctx buffer w Hdec).
        destruct w; reflexivity.
      - rewrite (enqueue_failed host payload ctx err w Hdec).
        destruct w; reflexivity. }
    destruct (interrupted_of message); cbn [when].
    + rewrite interrupt_spec. rewrite <- Haudio.
      destruct (after_audio host message w); reflexivity.
    + exact Haudio.
  - right. left. unfold onclose, bind, call, modify.
    now rewrite cleanup_spec.
  - right. left. unfold onerror, bind, call, modify.
    now rewrite cleanup_spec.
  - right. right. exists inputData. split; [reflexivity|].
    apply onaudioprocess_volume.
  - left. destruct w. unfold onended. cbn -[Set_delete].
    destruct (Set_delete source scheduledSourcesRef0); reflexivity.
Qed.

Lemma reachable_step (w : World) (occurrence : Host * Event) :
  reachable w -> reachable (step w occurrence).
Proof.
  intros [trace ->]. exists (trace ++ [occurrence]).
  unfold run. now rewrite fold_left_app.
Qed.

(** As long as every block has samples, the volume is a number. *)
Lemma volume_is_number (trace : list (Host * Event)) (w : World) :
  Forall captures_samples trace ->
  (exists v, volume w = Some v /\ 0 <= v) ->
  exists v, volume (run trace w) = Some v /\ 0 <= v.
Proof.
  intros Hblocks. revert w.
  induction Hblocks as [|occurrence later Hocc Hlater IH]; intros w Hw.
  - exact Hw.
  - unfold run. cbn [fold_left]. apply IH.
    destruct (volume_step w occurrence)
      as [E|[E|[inputData [Hev E]]]]; rewrite E.
    + exact Hw.
    + exists 0. split; [reflexivity | apply Rle_refl].
    + unfold captures_samples in Hocc. rewrite Hev in Hocc.
      destruct (block_rms_spec inputData Hocc) as [rms [Hrms _]].
      destruct Hw as [v [Hv _]]. rewrite Hv, Hrms. cbn [raised].
      eexists. split; [reflexivity|].
      eapply Rle_trans; [|apply Rmax_l]. Lra.lra.
Qed.

(** C7 (as amended). As long as every captured block has samples, the
    volume is a number that is at least 0 in every state of a session;
    a captured block sets it to [max(0.1, 0.8 * previous + 2 * rms)],
    where [rms] is the square root of the mean of the squares of the
    block's samples, and that is at least 0.1. *)
Theorem volume_floor (trace : list (Host * Event)) :
  Forall captures_samples trace ->
  exists v : R,
    volume (run trace initial) = Some v
    /\ 0 <= v
    /\ forall inputData : AudioFrame,
        inputData <> [] ->
        exists rms : R,
          0 <= rms
          /\ rms * rms
             = Q2R (fold_right Qplus 0%Q
                               (map (fun x => (x * x)%Q) inputData)
                    / inject_Z (Z.of_nat (List.length inputData)))
          /\ volume (state_of (onaudioprocess inputData
                                              (run trace initial)))
             = Some (Rmax (1 / 10) (v * (8 / 10) + rms * 2))
          /\ 1 / 10 <= Rmax (1 / 10) (v * (8 / 10) + rms * 2).
Proof.
  intros Hblocks.
  destruct (volume_is_number trace initial Hblocks) as [v [Hv Hpos]].
  { exists 0. split; [reflexivity | apply Rle_refl]. }
  exists v. split; [exact Hv|]. split; [exact Hpos|].
  intros inputData Hne.
  destruct (block_rms_spec inputData Hne) as [rms [Hrms [Hrms0 Hsq]]].
  exists rms. split; [exact Hrms0|]. split; [exact Hsq|].
  split; [|apply Rmax_l].
  rewrite onaudioprocess_volume, Hv, Hrms. reflexivity.
Qed.

(** The open session after one block of two half-scale samples. *)
Lemma volume_floor_witness :
  exists v : R,
    volume (run [(browser 0, Connect); (browser 0, OnOpen);
                 (browser 0, AudioProcess [1 # 2; -1 # 2]%Q)] initial)
    = Some v
    /\ 0 <= v
    /\ forall inputData : AudioFrame,
        inputData <> [] ->
        exists rms : R,
          0 <= rms
          /\ rms * rms
             = Q2R (fold_right Qplus 0%Q
                               (map (fun x => (x * x)%Q) inputData)
                    / inject_Z (Z.of_nat (List.length inputData)))
          /\ volume (state_of
                       (onaudioprocess
                          inputData
                          (run [(browser 0, Connect); (browser 0, OnOpen);
                                (browser 0,
                                 AudioProcess [1 # 2; -1 # 2]%Q)]
                               initial)))
             = Some (Rmax (1 / 10) (v * (8 / 10) + rms * 2))
          /\ 1 / 10 <= Rmax (1 / 10) (v * (8 / 10) + rms * 2).
Proof.
  assert (Hblocks : Forall captures_samples
                           [(browser 0, Connect); (browser 0, OnOpen);
                            (browser 0, AudioProcess [1 # 2; -1 # 2]%Q)]).
  { repeat (apply Forall_cons; [exact I|]).
    apply Forall_cons; [discriminate | apply Forall_nil]. }
  exact (volume_floor
           [(browser 0, Connect); (browser 0, OnOpen);
            (browser 0, AudioProcess [1 # 2; -1 # 2]%Q)] Hblocks).
Defined.

(** A block whose mean square is 1 takes the volume to 2 or more. *)
Lemma full_scale_block (host : Host) (inputData : AudioFrame) (w : World)
      (v v' : R) :
  volume w = Some v ->
  0 <= v ->
  inputData <> [] ->
  Q2R (fold_right Qplus 0%Q (map (fun x => (x * x)%Q) inputData)
       / inject_Z (Z.of_nat (List.length inputData))) = 1 ->
  volume (step w (host, AudioProcess inputData)) = Some v' ->
  2 <= v'.
Proof.
  intros Hv Hpos Hne Hone Hv'.
  unfold step in Hv'. cbn [fst snd dispatch] in Hv'.
  rewrite onaudioprocess_volume, Hv in Hv'.
  destruct (block_rms_spec inputData Hne) as [rms [Hrms [Hrms0 Hsq]]].
  rewrite Hone in Hsq. rewrite Hrms in Hv'. cbn [raised] in Hv'.
  injection Hv' as <-.
  assert (Hbig : v * (8 / 10) + rms * 2
                 <= Rmax (1 / 10) (v * (8 / 10) + rms * 2))
    by apply Rmax_r.
  Lra.nra.
Qed.

Lemma full_scale_mean :
  Q2R (fold_right Qplus 0%Q (map (fun x => (x * x)%Q) (repeat 1%Q 4096))
       / inject_Z (Z.of_nat (List.length (repeat 1%Q 4096)))) = 1.
Proof.
  rewrite <- RMicromega.Q2R_1. apply Qeq_eqR. vm_compute. reflexivity.
Qed.

Lemma open_session_volume : volume open_session = Some 0.
Proof. vm_compute. reflexivity. Qed.

(** C7 as the specification states it fails: after one block of 4096
    full-scale samples the volume of the open session is at least 2. *)
Lemma volume_exceeds_one :
  ~ (forall w : World,
        reachable w -> exists v, volume w = Some v /\ 0 <= v <= 1).
Proof.
  intros H.
  destruct (H (step open_session
                    (browser 0, AudioProcess (repeat 1%Q 4096))))
    as [v [Hv [_ Hle]]].
  - apply reachable_step, open_session_reachable.
  - assert (Hne : repeat 1%Q 4096 <> []).
    { change (repeat 1%Q 4096) with (1%Q :: repeat 1%Q 4095).
      discriminate. }
    pose proof (full_scale_block
                  (browser 0) (repeat 1%Q 4096) open_session 0 v
                  open_session_volume (Rle_refl 0) Hne full_scale_mean Hv)
      as Hbig.
    Lra.lra.
Qed.

End VolumeFacts.

(** ** The visualizer loop *)

Module VisualizerFacts.

Import Num JsMonad Visualizer.
Local Open Scope string_scope.
Local Open Scope list_scope.
Local Open Scope Q_scope.

Lemma quiet_ret {A} (a : A) : quiet (ret a).
Proof. intros s. split; reflexivity. Qed.

Lemma quiet_bind {A B} (m : Js Screen A) (k : A -> Js Screen B) :
  quiet m -> (forall a, quiet (k a)) -> quiet (bind m k).
Proof.
  intros Hm Hk s. unfold bind. specialize (Hm s).
  destruct (m s) as [[a|e] s1]; cbn [state_of snd] in *.
  - destruct (Hk a s1) as [H1 H2]. destruct Hm as [H3 H4].
    split; congruence.
  - exact Hm.
Qed.

Lemma quiet_canvas (host : Host) (c : CanvasCall) : quiet (canvas host c).
Proof.
  intros s. unfold canvas. destruct (throws host c); split; reflexivity.
Qed.

Lemma quiet_for_each {A} (l : list A) (body : A -> Js Screen unit) :
  (forall x, quiet (body x)) -> quiet (for_each l body).
Proof.
  intros Hbody. induction l as [|x l IH]; cbn [for_each].
  - apply quiet_ret.
  - apply quiet_bind; [apply Hbody | intros _; exact IH].
Qed.

Lemma quiet_trace_curve (host : Host) (stride : nat) :
  quiet (trace_curve host stride).
Proof.
  apply quiet_for_each. intros i.
  destruct (Nat.eqb i 0); apply quiet_canvas.
Qed.

Ltac quiet_steps :=
  repeat first
    [ apply quiet_canvas
    | apply quiet_ret
    | apply quiet_trace_curve
    | apply quiet_bind; [|intros ?] ].

Lemma quiet_drawBlob (host : Host) : quiet (drawBlob host).
Proof. unfold drawBlob. quiet_steps. Qed.

Lemma quiet_draw (host : Host) (props : Props) : quiet (draw host props).
Proof.
  unfold draw.
  apply quiet_bind; [apply quiet_canvas | intros _].
  apply quiet_bind; [apply quiet_canvas | intros _].
  apply quiet_bind; [intros s; split; reflexivity | intros _].
  destruct (isConnected props); [|quiet_steps].
  apply quiet_bind.
  - destruct (if isSpeaking props then outputAnalyser props
              else inputAnalyser props); quiet_steps.
  - intros dataArray. destruct (bands dataArray) as [[nBass nMids] nTreble].
    repeat (apply quiet_bind;
            [first [apply quiet_canvas | apply quiet_drawBlob
                   | apply quiet_trace_curve] | intros _]).
    apply quiet_canvas.
Qed.

(** What one run of [render] does to the frame request. *)
Lemma render_outcome (host : Host) (props : Props) (s : Screen) :
  match outcome_of (render host props s) with
  | Returned _ =>
      pendingFrame (state_of (render host props s)) = Some (nextRequest s)
      /\ animationRef (state_of (render host props s)) = nextRequest s
  | Thrown _ =>
      pendingFrame (state_of (render host props s)) = pendingFrame s
  end.
Proof.
  unfold render, bind. destruct (quiet_draw host props s) as [Hp Hn].
  destruct (draw host props s) as [[[]|e] s1]; cbn [state_of snd] in *.
  - unfold request_next_frame, bind, gets, canvas.
    destruct (throws host (requestAnimationFrame (nextRequest s1)));
      cbn; [exact Hp | now rewrite Hn].
  - exact Hp.
Qed.

Lemma frame_without_request (host : Host) (props : Props) (s : Screen) :
  pendingFrame s = None -> frame host props s = (Returned tt, s).
Proof. intros H. unfold frame, bind, gets. now rewrite H. Qed.

Lemma refreshes_without_request (props : Props) (hosts : list Host) :
  forall s, pendingFrame s = None -> refreshes props hosts s = s.
Proof.
  induction hosts as [|host hosts IH]; intros s H; [reflexivity|].
  cbn [refreshes fold_left]. unfold refresh at 2.
  rewrite (frame_without_request host props s H). cbn [state_of snd].
  now apply IH.
Qed.

Lemma frame_with_request (host : Host) (props : Props) (s : Screen)
      (request : nat) :
  pendingFrame s = Some request ->
  frame host props s
  = render host props
      {| animationRef := animationRef s; timeRef := timeRef s;
         pendingFrame := None; nextRequest := nextRequest s;
         drawn := drawn s |}.
Proof. intros H. unfold frame, bind, gets, modify. now rewrite H. Qed.

(** C9 (as amended). A tick that completes leaves the next frame
    requested.  A tick that throws leaves no frame requested: the loop has
    stopped, and no later display refresh draws anything or changes the
    screen. *)
Theorem render_loop_stops_on_exception
        (host : Host) (props : Props) (s : Screen) (request : nat) :
  pendingFrame s = Some request ->
  (outcome_of (frame host props s) = Returned tt ->
   pendingFrame (state_of (frame host props s)) = Some (nextRequest s))
  /\ (forall e, outcome_of (frame host props s) = Thrown e ->
                pendingFrame (state_of (frame host props s)) = None
                /\ forall later : list Host,
                    refreshes props later (state_of (frame host props s))
                    = state_of (frame host props s)).
Proof.
  intros Hreq. rewrite (frame_with_request host props s request Hreq).
  match goal with
  | |- context [render host props ?s0] =>
      pose proof (render_outcome host props s0) as H
  end.
  cbn [pendingFrame nextRequest] in H.
  split.
  - intros Hret. rewrite Hret in H. apply H.
  - intros e Hthrown. rewrite Hthrown in H.
    split; [exact H|]. intros later.
    now apply refreshes_without_request.
Qed.

(** A running loop whose tick meets a failing [createRadialGradient]: two
    more refreshes change nothing. *)
Lemma render_loop_stops_on_exception_witness :
  refreshes listening [sound_canvas; sound_canvas]
            (state_of (frame failing_canvas listening started))
  = state_of (frame failing_canvas listening started).
Proof.
  assert (Hpending : pendingFrame started = Some 1%nat)
    by (vm_compute; reflexivity).
  assert (Hthrown : outcome_of (frame failing_canvas listening started)
                    = Thrown "canvas call failed")
    by (vm_compute; reflexivity).
  exact (proj2 (proj2 (render_loop_stops_on_exception
                         failing_canvas listening started 1%nat Hpending)
                      "canvas call failed" Hthrown)
               [sound_canvas; sound_canvas]).
Defined.

(** C9 as the specification states it fails: on a canvas whose
    [createRadialGradient] throws, the tick of a running loop throws and
    leaves no frame requested. *)
Lemma throwing_tick_stops_loop :
  ~ (forall (host : Host) (props : Props) (s : Screen) (e : string),
        pendingFrame s <> None ->
        outcome_of (frame host props s) = Thrown e ->
        pendingFrame (state_of (frame host props s)) <> None).
Proof.
  intros H.
  assert (Hnone : pendingFrame
                    (state_of (frame failing_canvas listening started))
                  = None)
    by (vm_compute; reflexivity).
  apply (H failing_canvas listening started "canvas call failed");
    [vm_compute; discriminate | vm_compute; reflexivity | exact Hnone].
Qed.

End VisualizerFacts.

(** ** The session: more of what the handlers do *)

Module SessionExtras.

Import Num JsMonad Audio LiveSession SessionTraces.
Import NumFacts AudioFacts SessionFacts.
Local Open Scope string_scope.
Local Open Scope list_scope.
Local Open Scope Q_scope.

(** *** The audio branch, case by case *)

Lemma after_audio_cases (host : Host) (message : LiveServerMessage)
      (w : World) :
  after_audio host message w = w
  \/ (exists payload ctx buffer,
         outputContextRef w = Some ctx
         /\ decoded payload = Returned buffer
         /\ after_audio host message w
            = state_of (enqueue host payload ctx w))
  \/ (exists payload ctx err,
         outputContextRef w = Some ctx
         /\ decoded payload = Thrown err
         /\ after_audio host message w
            = state_of (enqueue host payload ctx w)).
Proof.
  unfold after_audio.
  destruct (truthy (base64Audio_of message)) as [payload|]; [|now left].
  destruct (outputContextRef w) as [ctx|]; [|now left].
  destruct (decoded payload) as [buffer|err] eqn:E.
  - right. left. now exists payload, ctx, buffer.
  - right. right. now exists payload, ctx, err.
Qed.

Lemma frames_over_rate_nonneg (n : nat) :
  0 <= inject_Z (Z.of_nat n) / inject_Z 24000.
Proof.
  apply Qle_shift_div_l; [reflexivity|]. rewrite Qmult_0_l.
  change 0 with (inject_Z 0). rewrite <- Zle_Qle. lia.
Qed.

Lemma decoded_duration_nonneg (payload : string) (buffer : AudioBuffer) :
  decoded payload = Returned buffer -> 0 <= duration buffer.
Proof.
  unfold decoded, decode_chunk, bind, decodeBase64, decodeAudioData,
    outcome_of.
  destruct (decode_chars (list_ascii_of_string payload)) as [bytes|];
    [|discriminate].
  unfold ret. destruct (int16_view bytes) as [vs|]; [|discriminate].
  cbn [fst]. intros H. injection H as <-. unfold duration.
  cbn [channelData sampleRate]. apply frames_over_rate_nonneg.
Qed.

(** The start times the audio branch asks for. *)
Lemma after_audio_starts (host : Host) (message : LiveServerMessage)
      (w : World) :
  exists made,
    calls (after_audio host message w) = calls w ++ made
    /\ (start_times made = []
        \/ start_times made
           = [Math_max (nextStartTimeRef w) (currentTime host)])
    /\ (nextStartTimeRef w <= nextStartTimeRef (after_audio host message w)).
Proof.
  destruct (after_audio_cases host message w)
    as [E|[[payload [ctx [buffer [Hctx [Hdec E]]]]]
          |[payload [ctx [err [Hctx [Hdec E]]]]]]]; rewrite E.
  - exists []. rewrite app_nil_r. repeat split; [now left | lra].
  - destruct (enqueue_decoded_fields host payload ctx buffer w Hdec)
      as [Hcalls [Hns _]].
    eexists. split; [exact Hcalls|].
    split; [right; apply start_times_scheduling|].
    rewrite Hns. pose proof (decoded_duration_nonneg payload buffer Hdec).
    pose proof (Math_max_floor (nextStartTimeRef w) (currentTime host)).
    lra.
  - rewrite (enqueue_failed host payload ctx err w Hdec). cbn [state_of snd].
    eexists. split; [destruct w; reflexivity|].
    split; [now left|]. destruct w; cbn. apply Math_max_floor.
Qed.


(** *** The timeline *)

(** X2. No handler moves [nextStartTime] backward: after any handler it is
    either reset to 0 (teardown, interruption) or at least what it was. *)
Theorem timeline_never_backward (w : World) (occurrence : Host * Event) :
  nextStartTimeRef (step w occurrence) = 0
  \/ nextStartTimeRef w <= nextStartTimeRef (step w occurrence).
Proof.
  destruct occurrence as [host ev]. unfold step. cbn [fst snd].
  destruct ev; cbn [dispatch].
  - unfold connect. destruct (truthy (API_KEY host)) as [apiKey|].
    + destruct w. unfold try_catch.
      destruct (microphone host) as [[]|err] eqn:Emic.
      * right. cbn. lra.
      * left. cbn -[cleanup]. now rewrite cleanup_spec.
    + right. destruct w; cbn. lra.
  - left. now rewrite cleanup_spec.
  - right. destruct w. unfold onopen. cbn.
    destruct inputContextRef0, audioStreamRef0; cbn; try lra.
    destruct inputAnalyserRef0; cbn; lra.
  - destruct (interrupted_of message) eqn:Hint.
    + left. apply (onmessage_interrupted host message w Hint).
    + right. rewrite onmessage_branches, Hint. cbn [when].
      destruct (after_audio_starts host message w) as [made [_ [_ Hle]]].
      exact Hle.
  - left. unfold onclose, bind, call, modify. now rewrite cleanup_spec.
  - left. unfold onerror, bind, call, modify. now rewrite cleanup_spec.
  - right. destruct w. unfold onaudioprocess.
    cbn -[block_rms createPcmBlob Math_max].
    destruct sessionPromiseRef0; cbn -[block_rms createPcmBlob Math_max]; lra.
  - right. destruct w. unfold onended. cbn -[Set_delete].
    destruct (Set_delete source scheduledSourcesRef0); cbn; lra.
Qed.

(** *** Messages that do nothing *)

(** X3. A message that does not interrupt and either carries no audio or
    arrives when there is no output context (before [connect], after a
    teardown) changes nothing and calls nothing. *)
Theorem message_ignored (host : Host) (message : LiveServerMessage)
        (w : World) :
  interrupted_of message = false ->
  truthy (base64Audio_of message) = None \/ outputContextRef w = None ->
  onmessage host message w = (Returned tt, w).
Proof.
  intros Hint Hnone. rewrite onmessage_branches, Hint. cbn [when].
  unfold after_audio.
  destruct Hnone as [-> | ->]; [reflexivity|].
  now destruct (truthy (base64Audio_of message)).
Qed.

(** Audio that arrives after the user has hung up. *)
Lemma message_ignored_witness :
  onmessage (browser 5) (audio_message silence_payload None)
            (state_of (cleanup (browser 4) playing_session))
  = (Returned tt, state_of (cleanup (browser 4) playing_session)).
Proof.
  assert (Hctx : outputContextRef
                   (state_of (cleanup (browser 4) playing_session)) = None)
    by (rewrite cleanup_spec; reflexivity).
  exact (message_ignored
           (browser 5) (audio_message silence_payload None)
           (state_of (cleanup (browser 4) playing_session))
           eq_refl (or_intror Hctx)).
Defined.

(** *** Connecting *)

(** X4. Only [onopen] marks the session connected: no other handler turns
    [isConnected] from false to true. *)
Theorem connected_only_by_onopen (w : World) (host : Host) (ev : Event) :
  isConnected w = false ->
  isConnected (step w (host, ev)) = true ->
  ev = OnOpen.
Proof.
  intros Hoff Hon. unfold step in Hon. cbn [fst snd] in Hon.
  destruct ev; cbn [dispatch] in Hon; try reflexivity; exfalso.
  - unfold connect in Hon. destruct (truthy (API_KEY host)) as [apiKey|].
    + destruct w. unfold try_catch in Hon.
      destruct (microphone host) as [[]|err] eqn:Emic.
      * cbn in *. congruence.
      * cbn -[cleanup] in Hon. rewrite cleanup_spec in Hon. discriminate Hon.
    + destruct w; cbn in *. congruence.
  - rewrite cleanup_spec in Hon. discriminate Hon.
  - rewrite onmessage_branches in Hon.
    assert (Haudio : isConnected (after_audio host message w) = false).
    { destruct (after_audio_cases host message w)
        as [E|[[payload [ctx [buffer [Hctx [Hdec E]]]]]
              |[payload [ctx [err [Hctx [Hdec E]]]]]]]; rewrite E.
      - exact Hoff.
      - rewrite (enqueue_decoded host payload ctx buffer w Hdec).
        destruct w; exact Hoff.
      - rewrite (enqueue_failed host payload ctx err w Hdec).
        destruct w; exact Hoff. }
    destruct (interrupted_of message); cbn [when] in Hon.
    + rewrite interrupt_spec in Hon.
      destruct (after_audio host message w); cbn in *. congruence.
    + unfold ret in Hon. cbn in Hon. congruence.
  - unfold onclose, bind, call, modify in Hon. rewrite cleanup_spec in Hon.
    discriminate Hon.
  - unfold onerror, bind, call, modify in Hon. rewrite cleanup_spec in Hon.
    discriminate Hon.
  - destruct w. unfold onaudioprocess in Hon.
    cbn -[block_rms createPcmBlob Math_max] in *.
    destruct sessionPromiseRef0; cbn -[block_rms createPcmBlob Math_max] in Hon;
      congruence.
  - destruct w. unfold onended in Hon. cbn -[Set_delete] in *.
    destruct (Set_delete source scheduledSourcesRef0); cbn in Hon; congruence.
Qed.

(** The session is marked connected when it opens. *)
Lemma connected_only_by_onopen_witness : OnOpen = OnOpen.
Proof.
  assert (Hoff : isConnected
                   (step initial (browser 0, Connect)) = false)
    by (vm_compute; reflexivity).
  assert (Hon : isConnected
                  (step (step initial (browser 0, Connect))
                        (browser 0, OnOpen)) = true)
    by (vm_compute; reflexivity).
  exact (connected_only_by_onopen
           (step initial (browser 0, Connect)) (browser 0) OnOpen Hoff Hon).
Defined.


(** X6. From any state, an error on the connection followed by a new
    [connect] (key configured, microphone granted) and the opening of the
    new session leaves the hook connected with the error message cleared,
    nothing scheduled, the timeline at 0, and only freshly created
    contexts, stream and nodes in the refs. *)
Theorem reconnect_after_error
        (failing retrying opening : Host) (err apiKey : string) (w : World) :
  truthy (API_KEY retrying) = Some apiKey ->
  microphone retrying = Returned tt ->
  isConnected (run [(failing, OnError err); (retrying, Connect);
                    (opening, OnOpen)] w) = true
  /\ error (run [(failing, OnError err); (retrying, Connect);
                 (opening, OnOpen)] w) = None
  /\ isSpeaking (run [(failing, OnError err); (retrying, Connect);
                      (opening, OnOpen)] w) = false
  /\ scheduledSourcesRef (run [(failing, OnError err); (retrying, Connect);
                               (opening, OnOpen)] w) = []
  /\ nextStartTimeRef (run [(failing, OnError err); (retrying, Connect);
                            (opening, OnOpen)] w) = 0
  /\ releases (run [(failing, OnError err); (retrying, Connect);
                    (opening, OnOpen)] w)
     = [node_disconnect (8 + nextHandle w)%nat;
        node_disconnect (7 + nextHandle w)%nat;
        tracks_stop (4 + nextHandle w)%nat;
        context_close (nextHandle w);
        context_close (2 + nextHandle w)%nat].
Proof.
  intros Hkey Hmic.
  remember (run [(failing, OnError err); (retrying, Connect);
                 (opening, OnOpen)] w) as w' eqn:E.
  unfold run in E. cbn [fold_left] in E. unfold step in E.
  cbn [fst snd dispatch] in E. unfold onerror, bind, call, modify in E.
  rewrite cleanup_spec in E. cbn [fst snd state_of] in E.
  unfold connect in E. rewrite Hkey in E.
  destruct w. unfold try_catch in E. cbn in E. rewrite Hmic in E.
  cbn in E. subst w'. cbn. repeat split; reflexivity.
Qed.

(** A session that fails while playing, then is connected again. *)
Lemma reconnect_after_error_witness :
  isConnected (run [(browser 2, OnError "closed"); (browser 3, Connect);
                    (browser 3, OnOpen)] playing_session) = true
  /\ error (run [(browser 2, OnError "closed"); (browser 3, Connect);
                 (browser 3, OnOpen)] playing_session) = None.
Proof.
  pose proof (reconnect_after_error
                (browser 2) (browser 3) (browser 3) "closed" "key"
                playing_session eq_refl eq_refl) as H.
  split.
  - exact (proj1 H).
  - exact (proj1 (proj2 H)).
Defined.

(** *** Playback that runs to its end *)

Lemma onended_fields (source : Handle) (w : World) :
  scheduledSourcesRef (state_of (onended source w))
  = Set_delete source (scheduledSourcesRef w)
  /\ isSpeaking (state_of (onended source w))
     = (if Nat.eqb
             (Set_size (Set_delete source (scheduledSourcesRef w))) 0%nat
        then false else isSpeaking w)
  /\ calls (state_of (onended source w)) = calls w.
Proof.
  destruct w. unfold onended. cbn -[Set_delete].
  destruct (Set_delete source scheduledSourcesRef0); cbn; repeat split.
Qed.

Lemma Set_delete_incl (source : Handle) (sources rest : list Handle) :
  incl sources (source :: rest) -> incl (Set_delete source sources) rest.
Proof.
  intros Hincl x Hx. unfold Set_delete in Hx.
  apply filter_In in Hx. destruct Hx as [Hin Hneq].
  destruct (Hincl x Hin) as [E|Hrest]; [|exact Hrest].
  subst x. rewrite Nat.eqb_refl in Hneq. discriminate Hneq.
Qed.

(** X7. Once every scheduled playback node has reported ['ended'] (in
    any order, possibly among reports of other nodes), nothing is
    scheduled, [isSpeaking] is false, and no call was made. *)
Theorem playback_runs_out (host : Host) (sources : list Handle) (w : World) :
  sources <> [] ->
  incl (scheduledSourcesRef w) sources ->
  scheduledSourcesRef (run (ended_events host sources) w) = []
  /\ isSpeaking (run (ended_events host sources) w) = false
  /\ calls (run (ended_events host sources) w) = calls w.
Proof.
  revert w. induction sources as [|source rest IH]; intros w Hne Hincl.
  - now contradiction Hne.
  - unfold ended_events, run. cbn [map fold_left].
    change (step w (host, Ended source))
      with (state_of (onended source w)).
    destruct (onended_fields source w) as [Hset [Hsp Hcalls]].
    pose proof (Set_delete_incl source _ rest Hincl) as Hincl'.
    rewrite <- Hset in Hincl'.
    destruct rest as [|next rest'].
    + cbn [map fold_left].
      assert (Hnil : Set_delete source (scheduledSourcesRef w) = []).
      { rewrite <- Hset.
        destruct (scheduledSourcesRef (state_of (onended source w)))
          as [|x xs]; [reflexivity|].
        destruct (Hincl' x (or_introl eq_refl)). }
      rewrite Hset, Hsp, Hcalls, Hnil. cbn. repeat split.
    + destruct (IH (state_of (onended source w))) as [H1 [H2 H3]];
        [discriminate | exact Hincl' |].
      unfold ended_events, run in H1, H2, H3.
      rewrite H1, H2, H3, Hcalls. repeat split.
Qed.

(** Both buffers of the playing session end. *)
Lemma playback_runs_out_witness :
  scheduledSourcesRef
    (run (ended_events (browser 2) (scheduledSourcesRef playing_session))
         playing_session) = []
  /\ isSpeaking
       (run (ended_events (browser 2) (scheduledSourcesRef playing_session))
            playing_session) = false.
Proof.
  assert (Hne : scheduledSourcesRef playing_session <> [])
    by (vm_compute; discriminate).
  pose proof (playback_runs_out
                (browser 2) (scheduledSourcesRef playing_session)
                playing_session Hne
                (incl_refl (scheduledSourcesRef playing_session))) as H.
  split.
  - exact (proj1 H).
  - exact (proj1 (proj2 H)).
Defined.


(** *** The audio contexts *)

Lemma closed_app (a b : list HostCall) : closed (a ++ b) = closed a ++ closed b.
Proof. apply flat_map_app. Qed.

Lemma created_app (a b : list HostCall) :
  created (a ++ b) = created a ++ created b.
Proof. apply flat_map_app. Qed.

Lemma closed_stops (sources : list Handle) : closed (map node_stop sources) = [].
Proof. induction sources; [reflexivity | exact IHsources]. Qed.

Lemma created_stops (sources : list Handle) :
  created (map node_stop sources) = [].
Proof. induction sources; [reflexivity | exact IHsources]. Qed.

Lemma closed_releases (w : World) :
  closed (releases w) = held (inputContextRef w) ++ held (outputContextRef w)
  /\ created (releases w) = [].
Proof.
  unfold releases. rewrite !closed_app, !created_app.
  rewrite closed_stops, created_stops.
  destruct (scriptProcessorRef w), (sourceNodeRef w), (audioStreamRef w),
    (inputContextRef w), (outputContextRef w); split; reflexivity.
Qed.

Lemma cleaned_contexts (w : World) :
  calls (cleaned w) = calls w ++ releases w
  /\ (nextHandle w <= nextHandle (cleaned w))%nat
  /\ context_effect w (cleaned w) (releases w).
Proof.
  split; [reflexivity|]. split; [apply Nat.le_refl|].
  right. left. destruct (closed_releases w) as [Hc Hn].
  repeat split; assumption.
Qed.

Lemma after_audio_contexts (host : Host) (message : LiveServerMessage)
      (w : World) :
  exists made,
    calls (after_audio host message w) = calls w ++ made
    /\ (nextHandle w <= nextHandle (after_audio host message w))%nat
    /\ closed made = [] /\ created made = []
    /\ inputContextRef (after_audio host message w) = inputContextRef w
    /\ outputContextRef (after_audio host message w) = outputContextRef w.
Proof.
  destruct (after_audio_cases host message w)
    as [E|[[payload [ctx [buffer [Hctx [Hdec E]]]]]
          |[payload [ctx [err [Hctx [Hdec E]]]]]]]; rewrite E.
  - exists []. rewrite app_nil_r. repeat split. apply Nat.le_refl.
  - rewrite (enqueue_decoded host payload ctx buffer w Hdec).
    exists (scheduling w ctx buffer
                       (Math_max (nextStartTimeRef w) (currentTime host))).
    destruct w. cbn. split; [reflexivity|].
    split; [apply Nat.le_succ_diag_r|].
    destruct outputAnalyserRef0; repeat split.
  - rewrite (enqueue_failed host payload ctx err w Hdec).
    exists [console_error ["Audio decode error"; err]].
    destruct w. cbn. split; [reflexivity|].
    repeat split. apply Nat.le_refl.
Qed.

Ltac log_grows :=
  cbn; repeat rewrite <- app_assoc; cbn [app];
  eexists; split; [made_so_far|]; split; [lia|].

Lemma step_contexts (w : World) (occurrence : Host * Event) :
  exists made,
    calls (step w occurrence) = calls w ++ made
    /\ (nextHandle w <= nextHandle (step w occurrence))%nat
    /\ context_effect w (step w occurrence) made.
Proof.
  destruct occurrence as [host ev]. unfold step. cbn [fst snd].
  destruct ev; cbn [dispatch].
  - unfold connect. destruct (truthy (API_KEY host)) as [apiKey|].
    + unfold try_catch.
      destruct (microphone host) as [[]|err] eqn:Emic.
      * destruct w. log_grows.
        right. right. left. cbn. repeat split. lia.
      * destruct w. cbn -[cleanup].
        rewrite cleanup_spec. cbn [state_of snd].
        unfold cleaned, releases.
        destruct scriptProcessorRef0, sourceNodeRef0, audioStreamRef0;
          log_grows; right; right; right; cbn;
          rewrite !closed_app, !created_app, closed_stops, created_stops;
          cbn; repeat split; lia.
    + destruct w. log_grows. left. repeat split.
  - rewrite cleanup_spec. exists (releases w). apply cleaned_contexts.
  - destruct w. unfold onopen.
    destruct inputContextRef0, audioStreamRef0;
      try destruct inputAnalyserRef0; log_grows; left; repeat split.
  - rewrite onmessage_branches.
    destruct (after_audio_contexts host message w)
      as [made [Hcalls [Hnext [Hcl [Hcr [Hin Hout]]]]]].
    destruct (interrupted_of message); cbn [when].
    + rewrite interrupt_spec. cbn [state_of snd].
      exists (made ++ console_log "Model interrupted"
                :: map node_stop
                     (scheduledSourcesRef (after_audio host message w))).
      destruct (after_audio host message w). cbn in *.
      rewrite Hcalls, <- app_assoc. split; [reflexivity|].
      split; [exact Hnext|]. left.
      rewrite closed_app, created_app, Hcl, Hcr. cbn.
      rewrite closed_stops, created_stops. repeat split; assumption.
    + exists made. unfold ret. cbn [state_of snd].
      split; [exact Hcalls|]. split; [exact Hnext|]. left.
      repeat split; assumption.
  - unfold onclose, bind, call, modify. rewrite cleanup_spec.
    cbn [state_of snd]. unfold cleaned, releases, context_effect.
    destruct w.
    destruct scriptProcessorRef0, sourceNodeRef0, audioStreamRef0,
      inputContextRef0, outputContextRef0; log_grows;
      right; left; cbn;
      rewrite ?closed_app, ?created_app, ?closed_stops, ?created_stops;
      cbn; repeat split.
  - unfold onerror, bind, call, modify. rewrite cleanup_spec.
    cbn [state_of snd]. unfold cleaned, releases, context_effect.
    destruct w.
    destruct scriptProcessorRef0, sourceNodeRef0, audioStreamRef0,
      inputContextRef0, outputContextRef0; log_grows;
      right; left; cbn;
      rewrite ?closed_app, ?created_app, ?closed_stops, ?created_stops;
      cbn; repeat split.
  - destruct w. unfold onaudioprocess.
    destruct sessionPromiseRef0;
      cbn -[block_rms createPcmBlob Math_max];
      eexists; (split; [made_so_far|]); (split; [lia|]); left;
      repeat split.
  - destruct w. unfold onended. cbn -[Set_delete].
    exists []. rewrite app_nil_r.
    destruct (Set_delete source scheduledSourcesRef0); cbn;
      (split; [reflexivity|]); (split; [lia|]); left; repeat split.
Qed.


Lemma tidy_initial : Tidy initial.
Proof.
  split; cbn.
  - constructor.
  - intros h [].
  - intros h [].
  - intros h [].
  - constructor.
Qed.

Lemma tidy_step (w : World) (occurrence : Host * Event) :
  Tidy w -> Tidy (step w occurrence).
Proof.
  intros [Honce Hknown Hcreated Hopen Hdiffer].
  destruct (step_contexts w occurrence) as [made [Hcalls [Hnext Heffect]]].
  destruct Heffect
    as [[Hcl [Hcr [Hin Hout]]]
       |[[Hcl [Hcr [Hin Hout]]]
        |[[Hcl [Hcr [Hin [Hout Hfresh]]]]
         |[Hcl [Hcr [Hin [Hout Hfresh]]]]]]].
  - (* nothing closed, nothing created *)
    split; rewrite ?Hcalls, ?closed_app, ?created_app, ?Hcl, ?Hcr, ?Hin,
             ?Hout, ?app_nil_r.
    + exact Honce.
    + intros h Hh. specialize (Hknown h Hh). lia.
    + exact Hcreated.
    + intros h Hh. destruct (Hopen h Hh) as [H1 [H2 H3]].
      repeat split; [lia | exact H2 | exact H3].
    + exact Hdiffer.
  - (* the contexts held are closed *)
    split; rewrite ?Hcalls, ?closed_app, ?created_app, ?Hcl, ?Hcr, ?Hin,
             ?Hout, ?app_nil_r.
    + apply NoDup_app; [exact Honce | exact Hdiffer |].
      intros h Hh Hheld. now destruct (Hopen h Hheld) as [_ [Hno _]].
    + intros h Hh. apply in_app_or in Hh. destruct Hh as [Hh|Hh].
      * specialize (Hknown h Hh). lia.
      * destruct (Hopen h Hh) as [H1 _]. lia.
    + intros h Hh. apply in_app_or in Hh. destruct Hh as [Hh|Hh].
      * now apply Hcreated.
      * now destruct (Hopen h Hh) as [_ [_ H3]].
    + intros h [].
    + constructor.
  - (* two contexts are created and held *)
    split; rewrite ?Hcalls, ?closed_app, ?created_app, ?Hcl, ?Hcr, ?Hin,
             ?Hout, ?app_nil_r; cbn [held app].
    + exact Honce.
    + intros h Hh. specialize (Hknown h Hh). lia.
    + intros h Hh. apply in_or_app. left. now apply Hcreated.
    + intros h Hh.
      assert (Hnew : h = nextHandle w \/ h = S (S (nextHandle w))).
      { destruct Hh as [E|[E|[]]]; [left | right]; now symmetry. }
      split; [destruct Hnew; lia|]. split.
      * intros Hc. specialize (Hknown h Hc). destruct Hnew; lia.
      * apply in_or_app. right. destruct Hnew as [-> | ->]; cbn; auto.
    + constructor; [intros [E|[]]; lia|].
      constructor; [intros [] | constructor].
  - (* two contexts are created and closed *)
    split; rewrite ?Hcalls, ?closed_app, ?created_app, ?Hcl, ?Hcr, ?Hin,
             ?Hout, ?app_nil_r; cbn [held app].
    + apply NoDup_app; [exact Honce | |].
      * constructor; [intros [E|[]]; lia|].
        constructor; [intros [] | constructor].
      * intros h Hh [E|[E|[]]]; subst h; specialize (Hknown _ Hh); lia.
    + intros h Hh. apply in_app_or in Hh. destruct Hh as [Hh|Hh].
      * specialize (Hknown h Hh). lia.
      * destruct Hh as [E|[E|[]]]; subst h; lia.
    + intros h Hh. apply in_or_app. apply in_app_or in Hh.
      destruct Hh as [Hh|Hh]; [left; now apply Hcreated | now right].
    + intros h [].
    + constructor.
Qed.

Lemma tidy_run (trace : list (Host * Event)) (w : World) :
  Tidy w -> Tidy (run trace w).
Proof.
  revert w. induction trace as [|occurrence later IH]; intros w Hw.
  - exact Hw.
  - unfold run. cbn [fold_left]. apply IH. now apply tidy_step.
Qed.

(** X9. In every state of a session, no audio context has been closed
    twice, and every context closed is one that [connect] created. *)
Theorem contexts_closed_once (trace : list (Host * Event)) :
  NoDup (closed (calls (run trace initial)))
  /\ incl (closed (calls (run trace initial)))
          (created (calls (run trace initial))).
Proof.
  destruct (tidy_run trace initial tidy_initial) as [Honce _ Hcreated _ _].
  split; assumption.
Qed.

Lemma orphaned_step (h : Handle) (w : World) (occurrence : Host * Event) :
  orphaned h w -> orphaned h (step w occurrence).
Proof.
  intros [Hknown [Hopen Hfree]].
  destruct (step_contexts w occurrence) as [made [Hcalls [Hnext Heffect]]].
  unfold orphaned. rewrite Hcalls, closed_app.
  destruct Heffect
    as [[Hcl [Hcr [Hin Hout]]]
       |[[Hcl [Hcr [Hin Hout]]]
        |[[Hcl [Hcr [Hin [Hout Hfresh]]]]
         |[Hcl [Hcr [Hin [Hout Hfresh]]]]]]];
    rewrite Hcl, Hin, Hout; cbn [held app]; rewrite ?app_nil_r;
    (split; [lia|]).
  - split; assumption.
  - split; [|intros []]. intros Hc. apply in_app_or in Hc. tauto.
  - split; [assumption|]. intros [E|[E|[]]]; lia.
  - split; [|intros []]. intros Hc. apply in_app_or in Hc.
    destruct Hc as [Hc|[E|[E|[]]]]; [tauto | lia | lia].
Qed.

Lemma orphaned_run (h : Handle) (trace : list (Host * Event)) (w : World) :
  orphaned h w -> orphaned h (run trace w).
Proof.
  revert w. induction trace as [|occurrence later IH]; intros w Hw.
  - exact Hw.
  - unfold run. cbn [fold_left]. apply IH. now apply orphaned_step.
Qed.

(** With a key configured, [connect] takes new contexts whatever the refs
    hold. *)
Lemma connect_contexts (host : Host) (apiKey : string) (w : World) :
  truthy (API_KEY host) = Some apiKey ->
  exists made,
    calls (step w (host, Connect)) = calls w ++ made
    /\ (closed made = [] \/ closed made = [nextHandle w; S (S (nextHandle w))])
    /\ (S (S (nextHandle w)) < nextHandle (step w (host, Connect)))%nat
    /\ incl (held (inputContextRef (step w (host, Connect)))
             ++ held (outputContextRef (step w (host, Connect))))
            [nextHandle w; S (S (nextHandle w))].
Proof.
  intros Hkey. unfold step. cbn [fst snd dispatch]. unfold connect.
  rewrite Hkey. unfold try_catch.
  destruct (microphone host) as [[]|err] eqn:Emic.
  - destruct w. cbn. repeat rewrite <- app_assoc. cbn [app].
    eexists. split; [made_so_far|]. cbn.
    split; [now left|]. split; [lia|]. apply incl_refl.
  - destruct w. cbn -[cleanup]. rewrite cleanup_spec. cbn [state_of snd].
    unfold cleaned, releases.
    destruct scriptProcessorRef0, sourceNodeRef0, audioStreamRef0;
      cbn; repeat rewrite <- app_assoc; cbn [app];
      (eexists; split; [made_so_far|]);
      cbn; rewrite ?closed_app, ?closed_stops; cbn;
      (split; [now right|]); (split; [lia|]); intros x [].
Qed.

(** X10. [connect] does not release what the refs hold: when it runs
    (with a key configured) in a state of a session that holds audio
    contexts, it overwrites the refs, and whatever happens afterwards
    none of these contexts is ever closed. *)
Theorem connect_orphans_contexts
        (before later : list (Host * Event)) (host : Host)
        (apiKey : string) (h : Handle) :
  truthy (API_KEY host) = Some apiKey ->
  In h (held (inputContextRef (run before initial))
        ++ held (outputContextRef (run before initial))) ->
  ~ In h (closed (calls (run later
                             (step (run before initial) (host, Connect))))).
Proof.
  intros Hkey Hheld.
  destruct (tidy_run before initial tidy_initial) as [_ _ _ Hopen _].
  destruct (Hopen h Hheld) as [Hknown [Hnot _]].
  apply (orphaned_run h later). clear Hopen Hheld.
  destruct (connect_contexts host apiKey (run before initial) Hkey)
    as [made [Hcalls [Hclosed [Hnext Hrefs]]]].
  unfold orphaned. rewrite Hcalls, closed_app. split; [lia|]. split.
  - intros Hc. apply in_app_or in Hc. destruct Hc as [Hc|Hc]; [tauto|].
    destruct Hclosed as [E|E]; rewrite E in Hc.
    + destruct Hc.
    + destruct Hc as [E'|[E'|[]]]; lia.
  - intros Hin. destruct (Hrefs h Hin) as [E'|[E'|[]]]; lia.
Qed.

(** The user presses Connect twice before the session opens: the first
    pair of contexts is still open after Disconnect. *)
Lemma connect_orphans_contexts_witness :
  ~ In 0%nat
       (closed (calls (run [(browser 0, OnOpen); (browser 0, Disconnect)]
                           (step (run [(browser 0, Connect)] initial)
                                 (browser 0, Connect))))).
Proof.
  assert (Hheld : In 0%nat
                     (held (inputContextRef
                              (run [(browser 0, Connect)] initial))
                      ++ held (outputContextRef
                                 (run [(browser 0, Connect)] initial))))
    by (vm_compute; auto).
  exact (connect_orphans_contexts
           [(browser 0, Connect)]
           [(browser 0, OnOpen); (browser 0, Disconnect)]
           (browser 0) "key" 0%nat eq_refl Hheld).
Defined.

End SessionExtras.


(** ** The volume: its ceiling *)

Module VolumeExtras.

Import Stdlib.Reals.Reals Stdlib.Reals.Qreals.
Import Num JsMonad Audio LiveSession SessionTraces.
Import NumFacts NumberFacts SessionFacts VolumeFacts.
Local Open Scope string_scope.
Local Open Scope list_scope.
Local Open Scope R_scope.

Lemma squares_at_most_length (inputData : AudioFrame) :
  within_unit inputData ->
  (fold_right Qplus 0 (map (fun x => x * x) inputData)
   <= inject_Z (Z.of_nat (List.length inputData)))%Q.
Proof.
  induction 1 as [|x rest Hx Hrest IH].
  - cbn [map fold_right List.length Z.of_nat].
    change (inject_Z 0) with 0%Q. lra.
  - cbn [map fold_right List.length]. rewrite Nat2Z.inj_succ.
    unfold Z.succ. rewrite inject_Z_plus. change (inject_Z 1) with 1%Q.
    assert (Hsq : (x * x <= 1)%Q) by nra. lra.
Qed.

(** The loudness of a block of samples within -1 and 1 is at most 1. *)
Lemma block_rms_at_most_one (inputData : AudioFrame) :
  inputData <> [] ->
  within_unit inputData ->
  exists rms : R, block_rms inputData = Some rms /\ 0 <= rms <= 1.
Proof.
  intros Hne Hunit.
  destruct (block_rms_spec inputData Hne) as [rms [Hrms [Hrms0 Hsq]]].
  exists rms. split; [exact Hrms|]. split; [exact Hrms0|].
  assert (Hmean : Q2R (fold_right Qplus 0%Q
                                  (map (fun x => (x * x)%Q) inputData)
                       / inject_Z (Z.of_nat (List.length inputData)))
                  <= 1).
  { rewrite <- RMicromega.Q2R_1. apply Qle_Rle.
    apply Qle_shift_div_r.
    - change 0%Q with (inject_Z 0). rewrite <- Zlt_Qlt.
      destruct inputData; [contradiction | cbn [List.length]; lia].
    - pose proof (squares_at_most_length inputData Hunit). lra. }
  rewrite <- Hsq in Hmean. Lra.nra.
Qed.

Lemma volume_bounded_run (trace : list (Host * Event)) (w : World) :
  Forall capture_within_unit trace ->
  (exists v, volume w = Some v /\ 0 <= v < 10) ->
  exists v, volume (run trace w) = Some v /\ 0 <= v < 10.
Proof.
  intros Hunit. revert w.
  induction Hunit as [|occurrence later Hocc Hlater IH]; intros w Hw.
  - exact Hw.
  - unfold run. cbn [fold_left]. apply IH.
    destruct (volume_step w occurrence)
      as [E|[E|[inputData [Hev E]]]]; rewrite E.
    + exact Hw.
    + exists 0. split; [reflexivity | Lra.lra].
    + unfold capture_within_unit in Hocc. rewrite Hev in Hocc.
      destruct Hocc as [Hne Hin].
      destruct (block_rms_at_most_one inputData Hne Hin)
        as [rms [Hrms [Hrms0 Hrms1]]].
      destruct Hw as [v [Hv [Hv0 Hv10]]]. rewrite Hv, Hrms. cbn [raised].
      eexists. split; [reflexivity|].
      unfold Rmax. destruct (Rle_dec (1 / 10) (v * (8 / 10) + rms * 2));
        Lra.lra.
Qed.

(** X8. As long as the captured blocks have samples and every sample is
    within -1 and 1, the volume is a number below 10 in every state of a
    session: [max(0.1, 0.8 * v + 2 * rms)] is below 10 when [v] is and
    [rms], the square root of a mean of squares that are at most 1, is at
    most 1. *)
Theorem volume_below_ten (trace : list (Host * Event)) :
  Forall capture_within_unit trace ->
  exists v : R, volume (run trace initial) = Some v /\ 0 <= v < 10.
Proof.
  intros Hunit. apply volume_bounded_run; [exact Hunit|].
  exists 0. split; [reflexivity | Lra.lra].
Qed.

(** Three full-scale blocks in a row. *)
Lemma volume_below_ten_witness :
  exists v : R,
    volume (run [(browser 0, Connect); (browser 0, OnOpen);
                 (browser 0, AudioProcess [1; -1]%Q);
                 (browser 0, AudioProcess [1; 1]%Q);
                 (browser 0, AudioProcess [-1; -1]%Q)] initial) = Some v
    /\ 0 <= v < 10.
Proof.
  apply volume_below_ten.
  unfold capture_within_unit, within_unit.
  repeat (apply Forall_cons; cbn [snd]); try apply Forall_nil;
    try exact I;
    (split; [discriminate|]);
    repeat (apply Forall_cons; [split; vm_compute; discriminate|]);
    apply Forall_nil.
Defined.

End VolumeExtras.


(** ** Handlers that overlap at an [await] *)

Module OverlapFacts.

Import Num JsMonad Audio LiveSession SessionTraces Overlap.
Import NumFacts AudioFacts SessionFacts SessionExtras.
Local Open Scope string_scope.
Local Open Scope list_scope.
Local Open Scope Q_scope.

(** *** The two halves, run at once, are the handler *)

Lemma enqueue_split (host : Host) (payload : string) (ctx : Handle)
      (w : World) :
  enqueue host payload ctx w
  = bind (enqueue_begin host) (fun _ => enqueue_resume payload ctx) w.
Proof. reflexivity. Qed.

Lemma onmessage_split (host : Host) (message : LiveServerMessage)
      (w : World) :
  onmessage host message w = at_once (onmessage_begin host message) host w.
Proof.
  unfold onmessage, at_once, onmessage_begin, bind, gets.
  destruct (truthy (base64Audio_of message)) as [payload|];
    [destruct (outputContextRef w) as [ctx|]|].
  - reflexivity.
  - unfold ret, when. destruct (interrupted_of message);
      [rewrite interrupt_spec|]; reflexivity.
  - unfold ret, when. destruct (interrupted_of message);
      [rewrite interrupt_spec|]; reflexivity.
Qed.

Lemma connect_split (host : Host) (w : World) :
  connect host w = at_once (connect_begin host) host w.
Proof.
  unfold connect, at_once, connect_begin.
  destruct (truthy (API_KEY host)) as [apiKey|]; [|now destruct w].
  destruct w. unfold try_catch. cbn -[cleanup].
  unfold connect_resume, try_catch. cbn -[cleanup].
  destruct (microphone host) as [[]|err]; reflexivity.
Qed.

(** *** The second half of the audio branch *)




(** *** The timeline under moments that do not reset it *)





(** An interruption during the await: the message arrived when the
    output clock read 1, and its node is started at 0. *)
Lemma start_in_the_past :
  start_times
    (calls_since
       (after_await (browser 1) (audio_message silence_payload None)
                    interrupted_meanwhile open_session)
       (moment (after_await (browser 1)
                            (audio_message silence_payload None)
                            interrupted_meanwhile open_session)
               (browser 1,
                Resumes (message_decode
                           (audio_message silence_payload None)
                           silence_payload 2%nat))))
  = [0]
  /\ 0 < currentTime (browser 1).
Proof. split; vm_compute; reflexivity. Qed.

(** *** [connect] and the microphone prompt *)

Lemma connect_begin_keyed (host : Host) (apiKey : string) (w : World) :
  truthy (API_KEY host) = Some apiKey ->
  outcome_of (connect_begin host w) = Returned (Some microphone_prompt)
  /\ calls (state_of (connect_begin host w))
     = calls w ++ acquisition (nextHandle w)
  /\ releases (state_of (connect_begin host w)) = held_then_made w.
Proof.
  intros Hkey. unfold connect_begin. rewrite Hkey. destruct w.
  unfold outcome_of, state_of, releases, held_then_made, acquisition.
  cbn. repeat rewrite <- app_assoc. repeat split.
Qed.

(** X5. With [connect] split at [await getUserMedia]: called with a key
    configured, it creates the two contexts and their analysers, asks for
    the microphone and suspends.  When the microphone is refused,
    whatever ran in between, it returns normally; the error is the
    rejection's message, or "Failed to connect microphone" when it has
    none; it logs the rejection and then releases what the refs hold at
    that time, neither more nor less, after which nothing is held and
    the hook is not connected.  If nothing ran in between, what it
    releases is what the session held before the call and the two
    contexts just created. *)
Theorem microphone_refused
        (asking answering : Host) (apiKey err : string)
        (during : list (Host * Moment)) (w : World) :
  truthy (API_KEY asking) = Some apiKey ->
  microphone answering = Thrown err ->
  outcome_of (connect_begin asking w) = Returned (Some microphone_prompt)
  /\ calls_since w (after_prompt asking [] w) = acquisition (nextHandle w)
  /\ releases (after_prompt asking [] w) = held_then_made w
  /\ outcome_of (connect_resume answering (after_prompt asking during w))
     = Returned tt
  /\ calls_since
       (after_prompt asking during w)
       (state_of (connect_resume answering (after_prompt asking during w)))
     = console_error [err] :: releases (after_prompt asking during w)
  /\ error (state_of (connect_resume answering
                                     (after_prompt asking during w)))
     = Some (message_or_default err)
  /\ isConnected (state_of (connect_resume answering
                                           (after_prompt asking during w)))
     = false
  /\ releases (state_of (connect_resume answering
                                        (after_prompt asking during w)))
     = [].
Proof.
  intros Hkey Hmic.
  destruct (connect_begin_keyed asking apiKey w Hkey) as [Hout [Hcalls Hrel]].
  split; [exact Hout|]. split; [now apply calls_since_app|].
  split; [exact Hrel|].
  generalize (after_prompt asking during w). intros w2.
  assert (E : connect_resume answering w2
              = (Returned tt,
                 cleaned
                   (with_error
                      (Some (message_or_default err))
                      (with_calls (calls w2 ++ [console_error [err]])
                                  w2)))).
  { unfold connect_resume, try_catch. rewrite Hmic.
    unfold bind at 1. unfold throw, bind, call, modify.
    now rewrite cleanup_spec. }
  rewrite E. unfold outcome_of, state_of. cbn [fst snd].
  split; [reflexivity|]. split; [|destruct w2; repeat split].
  apply calls_since_app. destruct w2. unfold cleaned, releases. cbn.
  now rewrite <- app_assoc.
Qed.

(** The user refuses the microphone, having pressed the button a second
    time while the prompt was open: what is released then are the
    contexts of the second call. *)
Lemma microphone_refused_witness :
  calls_since
    (after_prompt browser_without_microphone pressed_again initial)
    (state_of (connect_resume
                 browser_without_microphone
                 (after_prompt browser_without_microphone pressed_again
                               initial)))
  = console_error ["Permission denied"]
    :: releases (after_prompt browser_without_microphone pressed_again
                              initial)
  /\ releases (after_prompt browser_without_microphone pressed_again
                            initial)
     = [context_close 4%nat; context_close 6%nat].
Proof.
  pose proof (microphone_refused
                browser_without_microphone browser_without_microphone
                "key" "Permission denied" pressed_again initial
                eq_refl eq_refl) as H.
  split.
  - exact (proj1 (proj2 (proj2 (proj2 (proj2 H))))).
  - vm_compute. reflexivity.
Defined.

End OverlapFacts.


(** ** The visualizer: the loop over time, and the bands *)

Module VisualizerExtras.
Import Num JsMonad Visualizer VisualizerLoop NumFacts VisualizerFacts.
Local Open Scope string_scope.
Local Open Scope list_scope.
Local Open Scope Q_scope.

Lemma paints_ret {A} (a : A) : paints (ret a).
Proof. intros s. exists a, []. rewrite app_nil_r. now destruct s. Qed.

Lemma paints_bind {A B} (m : Js Screen A) (k : A -> Js Screen B) :
  paints m -> (forall a, paints (k a)) -> paints (bind m k).
Proof.
  intros Hm Hk s. unfold bind.
  destruct (Hm s) as [a [made E]]. rewrite E.
  destruct (Hk a {| animationRef := animationRef s; timeRef := timeRef s;
                    pendingFrame := pendingFrame s;
                    nextRequest := nextRequest s;
                    drawn := drawn s ++ made |}) as [b [made' E']].
  rewrite E'. exists b, (made ++ made'). cbn. now rewrite app_assoc.
Qed.

Lemma paints_canvas (host : Host) (c : CanvasCall) :
  steady host -> paints (canvas host c).
Proof.
  intros Hsteady s. unfold canvas. rewrite (Hsteady c).
  exists tt, [c]. reflexivity.
Qed.

Lemma paints_for_each {A} (l : list A) (body : A -> Js Screen unit) :
  (forall x, paints (body x)) -> paints (for_each l body).
Proof.
  intros Hbody. induction l as [|x l IH]; cbn [for_each].
  - apply paints_ret.
  - apply paints_bind; [apply Hbody | intros _; exact IH].
Qed.

Lemma paints_trace_curve (host : Host) (stride : nat) :
  steady host -> paints (trace_curve host stride).
Proof.
  intros Hsteady. apply paints_for_each. intros i.
  destruct (Nat.eqb i 0); now apply paints_canvas.
Qed.

Ltac paints_steps :=
  repeat first
    [ apply paints_canvas; assumption
    | apply paints_ret
    | apply paints_trace_curve; assumption
    | apply paints_bind; [|intros ?] ].

Lemma paints_drawBlob (host : Host) : steady host -> paints (drawBlob host).
Proof. intros Hsteady. unfold drawBlob. paints_steps. Qed.

(** On a steady canvas a tick's drawing returns, and moves the clock of the
    animation by 0.01. *)
Lemma draw_steady (host : Host) (props : Props) (s : Screen) :
  steady host ->
  exists made,
    draw host props s
    = (Returned tt,
       {| animationRef := animationRef s;
          timeRef := timeRef s + (1 # 100);
          pendingFrame := pendingFrame s;
          nextRequest := nextRequest s;
          drawn := drawn s ++ made |}).
Proof.
  intros Hsteady. unfold draw.
  assert (Hbody : forall body : Js Screen unit,
             paints body ->
             exists made,
               bind (canvas host set_canvas_size)
                    (fun _ =>
                       bind (canvas host clearRect)
                            (fun _ =>
                               bind (modify
                                       (fun s0 =>
                                          {| animationRef := animationRef s0;
                                             timeRef := timeRef s0 + (1 # 100);
                                             pendingFrame := pendingFrame s0;
                                             nextRequest := nextRequest s0;
                                             drawn := drawn s0 |}))
                                    (fun _ => body))) s
               = (Returned tt,
                  {| animationRef := animationRef s;
                     timeRef := timeRef s + (1 # 100);
                     pendingFrame := pendingFrame s;
                     nextRequest := nextRequest s;
                     drawn := drawn s ++ made |})).
  { intros body Hpaints. unfold bind, canvas, modify.
    rewrite !Hsteady. cbn.
    match goal with
    | |- context [body ?s0] => destruct (Hpaints s0) as [[] [made E]]
    end.
    rewrite E. cbn. repeat rewrite <- app_assoc. cbn [app].
    eexists. reflexivity. }
  apply Hbody.
  destruct (isConnected props); [|paints_steps].
  apply paints_bind.
  - destruct (if isSpeaking props then outputAnalyser props
              else inputAnalyser props); paints_steps.
  - intros dataArray. destruct (bands dataArray) as [[nBass nMids] nTreble].
    repeat (apply paints_bind;
            [first [apply paints_canvas; assumption
                   | apply paints_drawBlob; assumption
                   | apply paints_trace_curve; assumption] | intros _]).
    now apply paints_canvas.
Qed.

Lemma render_steady (host : Host) (props : Props) (s : Screen) :
  steady host ->
  exists made,
    render host props s
    = (Returned tt,
       {| animationRef := nextRequest s;
          timeRef := timeRef s + (1 # 100);
          pendingFrame := Some (nextRequest s);
          nextRequest := S (nextRequest s);
          drawn := drawn s ++ made |}).
Proof.
  intros Hsteady. unfold render, bind.
  destruct (draw_steady host props s Hsteady) as [made E]. rewrite E.
  unfold request_next_frame, bind, gets, canvas, modify.
  rewrite Hsteady. cbn. repeat rewrite <- app_assoc. cbn [app].
  eexists. reflexivity.
Qed.

Lemma refresh_steady (host : Host) (props : Props) (s : Screen)
      (request : nat) :
  steady host ->
  pendingFrame s = Some request ->
  pendingFrame (refresh props s host) = Some (nextRequest s)
  /\ animationRef (refresh props s host) = nextRequest s
  /\ nextRequest (refresh props s host) = S (nextRequest s)
  /\ timeRef (refresh props s host) = timeRef s + (1 # 100).
Proof.
  intros Hsteady Hreq. unfold refresh.
  rewrite (frame_with_request host props s request Hreq).
  match goal with
  | |- context [render host props ?s0] =>
      destruct (render_steady host props s0 Hsteady) as [made E]
  end.
  rewrite E. cbn. repeat split.
Qed.

(** X11. While no canvas call throws, the loop keeps itself going: after
    any number of display refreshes a frame is still requested, each
    refresh has asked for exactly one new frame, and the clock of the
    animation has advanced by 0.01 per refresh. *)
Theorem steady_loop_keeps_running
        (props : Props) (hosts : list Host) (s : Screen) (request : nat) :
  Forall steady hosts ->
  pendingFrame s = Some request ->
  pendingFrame (refreshes props hosts s) <> None
  /\ nextRequest (refreshes props hosts s)
     = (nextRequest s + List.length hosts)%nat
  /\ timeRef (refreshes props hosts s)
     == timeRef s + inject_Z (Z.of_nat (List.length hosts)) * (1 # 100).
Proof.
  intros Hsteady. revert s request.
  induction Hsteady as [|host later Hhost Hlater IH]; intros s request Hreq.
  - cbn. rewrite Hreq. split; [discriminate|]. split; [lia|].
    unfold inject_Z. ring.
  - cbn [refreshes fold_left List.length].
    destruct (refresh_steady host props s request Hhost Hreq)
      as [Hp [Ha [Hn Ht]]].
    destruct (IH (refresh props s host) (nextRequest s) Hp)
      as [IHp [IHn IHt]].
    unfold refreshes in *. split; [exact IHp|]. split.
    + rewrite IHn, Hn. lia.
    + rewrite IHt, Ht. rewrite Nat2Z.inj_succ. unfold Z.succ.
      rewrite inject_Z_plus. change (inject_Z 1) with 1. ring.
Qed.

(** Three refreshes of the loop once started. *)
Lemma steady_loop_keeps_running_witness :
  pendingFrame
    (refreshes listening [sound_canvas; sound_canvas; sound_canvas] started)
  <> None
  /\ timeRef
       (refreshes listening [sound_canvas; sound_canvas; sound_canvas]
                  started)
     == timeRef started + inject_Z 3 * (1 # 100).
Proof.
  assert (Hsteady : Forall steady [sound_canvas; sound_canvas; sound_canvas])
    by (repeat constructor).
  assert (Hpending : pendingFrame started = Some 1%nat)
    by (vm_compute; reflexivity).
  pose proof (steady_loop_keeps_running
                listening [sound_canvas; sound_canvas; sound_canvas]
                started 1%nat Hsteady Hpending) as H.
  split.
  - exact (proj1 H).
  - exact (proj2 (proj2 H)).
Defined.

(** *** Cancelling the loop *)

Lemma keeps_ref_ret {A} (a : A) : keeps_ref (ret a).
Proof. intros s. reflexivity. Qed.

Lemma keeps_ref_bind {A B} (m : Js Screen A) (k : A -> Js Screen B) :
  keeps_ref m -> (forall a, keeps_ref (k a)) -> keeps_ref (bind m k).
Proof.
  intros Hm Hk s. unfold bind. specialize (Hm s).
  destruct (m s) as [[a|e] s1]; cbn [state_of snd] in *.
  - now rewrite (Hk a s1).
  - exact Hm.
Qed.

Lemma keeps_ref_canvas (host : Host) (c : CanvasCall) :
  keeps_ref (canvas host c).
Proof.
  intros s. unfold canvas. destruct (throws host c); reflexivity.
Qed.

Lemma keeps_ref_for_each {A} (l : list A) (body : A -> Js Screen unit) :
  (forall x, keeps_ref (body x)) -> keeps_ref (for_each l body).
Proof.
  intros Hbody. induction l as [|x l IH]; cbn [for_each].
  - apply keeps_ref_ret.
  - apply keeps_ref_bind; [apply Hbody | intros _; exact IH].
Qed.

Lemma keeps_ref_trace_curve (host : Host) (stride : nat) :
  keeps_ref (trace_curve host stride).
Proof.
  apply keeps_ref_for_each. intros i.
  destruct (Nat.eqb i 0); apply keeps_ref_canvas.
Qed.

Ltac keeps_ref_steps :=
  repeat first
    [ apply keeps_ref_canvas
    | apply keeps_ref_ret
    | apply keeps_ref_trace_curve
    | apply keeps_ref_bind; [|intros ?] ].

Lemma keeps_ref_drawBlob (host : Host) : keeps_ref (drawBlob host).
Proof. unfold drawBlob. keeps_ref_steps. Qed.

Lemma keeps_ref_draw (host : Host) (props : Props) :
  keeps_ref (draw host props).
Proof.
  unfold draw.
  apply keeps_ref_bind; [apply keeps_ref_canvas | intros _].
  apply keeps_ref_bind; [apply keeps_ref_canvas | intros _].
  apply keeps_ref_bind; [intros s; reflexivity | intros _].
  destruct (isConnected props); [|keeps_ref_steps].
  apply keeps_ref_bind.
  - destruct (if isSpeaking props then outputAnalyser props
              else inputAnalyser props); keeps_ref_steps.
  - intros dataArray. destruct (bands dataArray) as [[nBass nMids] nTreble].
    repeat (apply keeps_ref_bind;
            [first [apply keeps_ref_canvas | apply keeps_ref_drawBlob
                   | apply keeps_ref_trace_curve] | intros _]).
    apply keeps_ref_canvas.
Qed.

(** [render] keeps [animationRef] in step with the frame requested,
    whether it returns or throws and whatever was requested before. *)
Lemma synced_render (host : Host) (props : Props) (s : Screen) :
  synced s -> synced (state_of (render host props s)).
Proof.
  intros Hs request. unfold render, bind.
  destruct (quiet_draw host props s) as [Hp Hn].
  pose proof (keeps_ref_draw host props s) as Ha.
  destruct (draw host props s) as [[[]|e] s1]; cbn [state_of snd] in *.
  - unfold request_next_frame, bind, gets, canvas.
    destruct (throws host (requestAnimationFrame (nextRequest s1))); cbn.
    + rewrite Hp, Ha. apply Hs.
    + congruence.
  - rewrite Hp, Ha. apply Hs.
Qed.

Lemma synced_refresh (props : Props) (s : Screen) (host : Host) :
  synced s -> synced (refresh props s host).
Proof.
  intros Hs. unfold refresh.
  destruct (pendingFrame s) as [request|] eqn:Hreq.
  - rewrite (frame_with_request host props s request Hreq).
    apply synced_render. intros r Hr. discriminate Hr.
  - now rewrite (frame_without_request host props s Hreq).
Qed.

Lemma synced_cancel (host : Host) (s : Screen) :
  synced s -> synced (state_of (cancel host s)).
Proof.
  intros Hs request. unfold cancel, bind, gets, canvas, modify.
  destruct (throws host (cancelAnimationFrame (animationRef s)));
    cbn; [apply Hs|].
  destruct (pendingFrame s) as [r|] eqn:Hreq; [|discriminate].
  rewrite (Hs r Hreq), Nat.eqb_refl. discriminate.
Qed.

Lemma synced_looping (s : Screen) : looping s -> synced s.
Proof.
  intros [history ->].
  assert (Hstart : synced initial) by (intros r Hr; discriminate Hr).
  revert Hstart. generalize initial.
  induction history as [|[host b] later IH]; intros s Hs; [exact Hs|].
  unfold beats. cbn [fold_left]. apply IH. unfold beat. cbn [fst snd].
  destruct b as [props|props|].
  - now apply synced_render.
  - now apply synced_refresh.
  - now apply synced_cancel.
Qed.

(** X12. The effect's cleanup cancels the right request.  In every state
    of the visualizer, however often the effect has been set up again and
    whether or not ticks threw, [animationRef] names the frame request
    the window holds; so after
    [cancelAnimationFrame(animationRef.current)] no frame is requested,
    and later display refreshes neither draw nor change the screen. *)
Theorem cancel_stops_loop
        (props : Props) (s : Screen) (host : Host) (later : list Host) :
  looping s ->
  throws host (cancelAnimationFrame (animationRef s)) = false ->
  outcome_of (cancel host s) = Returned tt
  /\ pendingFrame (state_of (cancel host s)) = None
  /\ drawn (state_of (cancel host s))
     = drawn s ++ [cancelAnimationFrame (animationRef s)]
  /\ refreshes props later (state_of (cancel host s))
     = state_of (cancel host s).
Proof.
  intros Hloop Hthrows. apply synced_looping in Hloop.
  assert (Hnone : pendingFrame (state_of (cancel host s)) = None).
  { unfold cancel, bind, gets, canvas, modify. rewrite Hthrows. cbn.
    destruct (pendingFrame s) as [request|] eqn:Hreq; [|reflexivity].
    rewrite (Hloop request Hreq), Nat.eqb_refl. reflexivity. }
  split; [|split; [exact Hnone | split]].
  - unfold cancel, bind, gets, canvas, modify. now rewrite Hthrows.
  - unfold cancel, bind, gets, canvas, modify. now rewrite Hthrows.
  - now apply refreshes_without_request.
Qed.

(** The loop of a session that connected and began to speak, the effect
    having been set up three times, is cancelled; two more refreshes
    change nothing. *)
Lemma cancel_stops_loop_witness :
  pendingFrame
    (state_of (cancel sound_canvas (beats playing_history initial))) = None
  /\ refreshes speaking [sound_canvas; sound_canvas]
               (state_of (cancel sound_canvas
                                 (beats playing_history initial)))
     = state_of (cancel sound_canvas (beats playing_history initial)).
Proof.
  assert (Hloop : looping (beats playing_history initial))
    by (exists playing_history; reflexivity).
  pose proof (cancel_stops_loop
                speaking (beats playing_history initial)
                sound_canvas [sound_canvas; sound_canvas]
                Hloop eq_refl) as H.
  split.
  - exact (proj1 (proj2 H)).
  - exact (proj2 (proj2 (proj2 H))).
Defined.


(** *** The frequency bands *)

Lemma index_succ (i : nat) :
  inject_Z (Z.of_nat (S i)) == inject_Z (Z.of_nat i) + 1.
Proof.
  rewrite Nat2Z.inj_succ. unfold Z.succ. rewrite inject_Z_plus. reflexivity.
Qed.

Lemma byte_range (val : Z) :
  (0 <= val <= 255)%Z -> 0 <= inject_Z val /\ inject_Z val <= 255.
Proof.
  intros [H0 H1]. split.
  - change 0 with (inject_Z 0). now rewrite <- Zle_Qle.
  - change 255 with (inject_Z 255). now rewrite <- Zle_Qle.
Qed.

(** The sums only grow, and the treble sum grows by at most 255 per entry
    at or past the middle of the range. *)
Lemma band_sums_bounds (range : Q) (dataArray : list Z) :
  0 <= range ->
  all_bytes dataArray ->
  forall (i : nat) (bass mids treble : Q),
    bass <= fst (fst (band_sums range i dataArray (bass, mids, treble)))
    /\ mids <= snd (fst (band_sums range i dataArray (bass, mids, treble)))
    /\ treble <= snd (band_sums range i dataArray (bass, mids, treble))
    /\ snd (band_sums range i dataArray (bass, mids, treble))
       <= treble + 255 * inject_Z (Z.of_nat (List.length dataArray))
    /\ (inject_Z (Z.of_nat i) <= range * (1 # 2) ->
        range * (1 # 2)
        <= inject_Z (Z.of_nat i)
           + inject_Z (Z.of_nat (List.length dataArray)) ->
        snd (band_sums range i dataArray (bass, mids, treble))
        <= treble
           + 255 * (inject_Z (Z.of_nat i)
                    + inject_Z (Z.of_nat (List.length dataArray))
                    - range * (1 # 2))).
Proof.
  intros Hrange Hbytes.
  induction Hbytes as [|val rest Hval Hrest IH]; intros i bass mids treble.
  - cbn [band_sums fst snd List.length Z.of_nat].
    change (inject_Z 0) with 0. repeat split; try lra.
  - cbn [band_sums List.length].
    destruct (byte_range val Hval) as [Hv0 Hv1].
    pose proof (index_succ i) as Hi.
    pose proof (index_succ (List.length rest)) as Hlen.
    assert (Hlen0 : 0 <= inject_Z (Z.of_nat (List.length rest))).
    { change 0 with (inject_Z 0). rewrite <- Zle_Qle. lia. }
    set (x := inject_Z (Z.of_nat i)) in *.
    set (x' := inject_Z (Z.of_nat (S i))) in *.
    set (n := inject_Z (Z.of_nat (List.length rest))) in *.
    set (n' := inject_Z (Z.of_nat (S (List.length rest)))) in *.
    destruct (Qlt_le_dec x (range * (1 # 10))) as [Hbass|Hnot_bass];
      [|destruct (Qlt_le_dec x (range * (1 # 2))) as [Hmids|Htreble]].
    + destruct (IH (S i) (bass + inject_Z val) mids treble)
        as [H1 [H2 [H3 [H4 H5]]]]. fold x' in H5.
      repeat split; lra.
    + destruct (IH (S i) bass (mids + inject_Z val) treble)
        as [H1 [H2 [H3 [H4 H5]]]]. fold x' in H5.
      repeat split; lra.
    + destruct (IH (S i) bass mids (treble + inject_Z val))
        as [H1 [H2 [H3 [H4 H5]]]].
      repeat split; lra.
Qed.

Lemma Qdiv_nonneg (a b : Q) : 0 <= a -> 0 < b -> 0 <= a / b.
Proof. intros Ha Hb. apply Qle_shift_div_l; [exact Hb | lra]. Qed.

(** X13. For frequency data made of bytes, the three normalised bands are
    never negative and the treble band is at most 1.  (The bass and mids
    bands are divided by a tenth and by four tenths of the number of bins,
    which is not the number of bins they sum, and can exceed 1: see
    [bass_band_exceeds_one].) *)
Theorem bands_normalised (dataArray : list Z) :
  all_bytes dataArray ->
  0 <= fst (fst (bands dataArray))
  /\ 0 <= snd (fst (bands dataArray))
  /\ 0 <= snd (bands dataArray)
  /\ snd (bands dataArray) <= 1.
Proof.
  intros Hbytes. unfold bands.
  destruct dataArray as [|val rest] eqn:Edata.
  - cbn. repeat split; lra.
  - rewrite <- Edata in *.
    set (range := inject_Z (Z.of_nat (List.length dataArray))).
    assert (Hpos : 0 < range).
    { unfold range. change 0 with (inject_Z 0). rewrite <- Zlt_Qlt.
      rewrite Edata. cbn [List.length]. lia. }
    assert (Hrange : 0 <= range) by lra.
    destruct (band_sums_bounds range dataArray Hrange Hbytes 0 0 0 0)
      as [H1 [H2 [H3 [H4 H5]]]].
    fold range in H4, H5. change (inject_Z (Z.of_nat 0)) with 0 in H5.
    assert (H6 : snd (band_sums range 0 dataArray (0, 0, 0))
                 <= 0 + 255 * (0 + range - range * (1 # 2)))
      by (apply H5; lra).
    destruct (band_sums range 0 dataArray (0, 0, 0))
      as [[bass mids] treble].
    cbn [fst snd] in *.
    assert (H255 : 0 < 255) by reflexivity.
    repeat split.
    + apply Qdiv_nonneg; [|exact H255]. apply Qdiv_nonneg; lra.
    + apply Qdiv_nonneg; [|exact H255]. apply Qdiv_nonneg; lra.
    + apply Qdiv_nonneg; [|exact H255]. apply Qdiv_nonneg; lra.
    + apply Qle_shift_div_r; [exact H255|].
      apply Qle_shift_div_r; lra.
Qed.

(** 256 bins at full scale. *)
Lemma bands_normalised_witness : snd (bands full_scale) <= 1.
Proof.
  assert (Hbytes : all_bytes full_scale).
  { unfold all_bytes, full_scale. apply Forall_forall. intros val Hval.
    apply repeat_spec in Hval. subst val. lia. }
  exact (proj2 (proj2 (proj2 (bands_normalised full_scale Hbytes)))).
Defined.

(** With the 256 bins of this program's analysers at full scale, 26 bins
    are summed into the bass band and divided by 25.6: the band is 65/64. *)
Lemma bass_band_exceeds_one : fst (fst (bands full_scale)) == 65 # 64.
Proof. vm_compute. reflexivity. Qed.

End VisualizerExtras.


(** ** The text conversation *)

Module ChatFacts.
Import JsMonad JsText ChatView.
Local Open Scope string_scope.
Local Open Scope list_scope.
Local Open Scope nat_scope.

Lemma trim_guard (input : JsString) :
  negb (nonempty (trim input)) = false <-> trim input <> [].
Proof.
  destruct (trim input); cbn; split; intros H; congruence.
Qed.

(** [handleSend] when its guard lets it through. *)
Lemma handleSend_accepts (host : Host) (chat : Handle) (c : Chat) :
  chatSessionRef c = Some chat ->
  isLoading c = false ->
  trim (inputText c) <> [] ->
  handleSend host c
  = (Returned tt,
     {| messages := messages c
                    ++ [ {| role := user; text := inputText c;
                            timestamp := now host |} ];
        inputText := [];
        isLoading := true;
        chatSessionRef := Some chat;
        awaiting := S (awaiting c);
        nextHandle := nextHandle c;
        calls := calls c ++ [sendMessage chat (inputText c)] |}).
Proof.
  intros Hchat Hload Hinput. apply trim_guard in Hinput.
  destruct c. cbn in *. subst. unfold handleSend, bind, gets. cbn.
  rewrite Hinput. reflexivity.
Qed.

(** [handleSend] when its guard stops it. *)
Lemma handleSend_ignores (host : Host) (c : Chat) :
  chatSessionRef c = None \/ isLoading c = true \/ trim (inputText c) = [] ->
  handleSend host c = (Returned tt, c).
Proof.
  intros H. unfold handleSend, bind, gets.
  destruct (chatSessionRef c); [|reflexivity].
  destruct H as [H|[H|H]]; [discriminate | |].
  - rewrite H, orb_true_r. reflexivity.
  - rewrite H. reflexivity.
Qed.

Lemma resume_spec (host : Host) (result : Outcome JsString) (c : Chat) :
  resume host result c
  = (Returned tt,
     {| messages := messages c
                    ++ [ {| role := model; text := shown result;
                            timestamp := now host |} ];
        inputText := inputText c;
        isLoading := false;
        chatSessionRef := chatSessionRef c;
        awaiting := awaiting c;
        nextHandle := nextHandle c;
        calls := calls c ++ logged result |}).
Proof.
  destruct c, result; cbn; rewrite ?app_nil_r; reflexivity.
Qed.

Lemma create_session_cases (host : Host) (isActive : bool) (c : Chat) :
  state_of (create_session host isActive c) = c
  \/ (chatSessionRef c = None
      /\ truthy (API_KEY host) <> None
      /\ state_of (create_session host isActive c)
         = {| messages := messages c;
              inputText := inputText c;
              isLoading := isLoading c;
              chatSessionRef := Some (S (nextHandle c));
              awaiting := awaiting c;
              nextHandle := S (S (nextHandle c));
              calls := calls c
                       ++ [new_GoogleGenAI (nextHandle c);
                           chats_create (nextHandle c) (S (nextHandle c))
                             [(user, of_ascii "Hello"); (model, greeting)]]
           |}).
Proof.
  unfold create_session, bind, gets.
  destruct isActive; [|now left].
  destruct (chatSessionRef c) eqn:Hchat; [now left|].
  destruct (truthy (API_KEY host)) eqn:Hkey; [|now left].
  right. split; [reflexivity|]. split; [discriminate|].
  destruct c. cbn in *. rewrite <- app_assoc. reflexivity.
Qed.

Lemma handleSend_moves (host : Host) (c : Chat) :
  Move c (state_of (handleSend host c)).
Proof.
  destruct (chatSessionRef c) as [chat|] eqn:Hchat;
    [|rewrite handleSend_ignores by (now left); apply stays].
  destruct (isLoading c) eqn:Hload;
    [rewrite handleSend_ignores by (right; now left); apply stays|].
  destruct (trim (inputText c)) as [|u rest] eqn:Hinput;
    [rewrite handleSend_ignores by (right; now right); apply stays|].
  rewrite (handleSend_accepts host chat c Hchat Hload)
    by (rewrite Hinput; discriminate).
  cbn [state_of snd].
  replace (calls c ++ [sendMessage chat (inputText c)])
    with ((calls c ++ []) ++ [sendMessage chat (inputText c)])
    by now rewrite app_nil_r.
  apply (sends c host chat []); try assumption; try reflexivity.
  rewrite Hinput. discriminate.
Qed.

Lemma step_moves (c : Chat) (occurrence : Host * Event) :
  Move c (step c occurrence).
Proof.
  destruct occurrence as [host ev]. unfold step. cbn [fst snd].
  destruct ev; cbn [dispatch].
  - destruct (create_session_cases host isActive c) as [E|[Hchat [Hkey E]]];
      rewrite E; [apply stays | now apply (opens c host)].
  - apply types.
  - unfold bind, gets. destruct (button_disabled c); [apply stays|].
    apply handleSend_moves.
  - unfold handleKeyPress.
    destruct (same_text key (of_ascii "Enter") && negb shiftKey);
      [|apply stays].
    unfold bind at 1. unfold call, modify.
    set (c1 := with_calls (calls c ++ [preventDefault]) c).
    destruct (chatSessionRef c) as [chat|] eqn:Hchat;
      [|rewrite handleSend_ignores by (left; now destruct c); apply notes].
    destruct (isLoading c) eqn:Hload;
      [rewrite handleSend_ignores by (right; left; now destruct c);
       apply notes|].
    destruct (trim (inputText c)) as [|u rest] eqn:Hinput;
      [rewrite handleSend_ignores by (right; right; now destruct c);
       apply notes|].
    rewrite (handleSend_accepts host chat c1)
      by (subst c1; destruct c; cbn in *;
          first [assumption | rewrite Hinput; discriminate]).
    cbn [state_of snd].
    replace (messages c1) with (messages c) by now destruct c.
    replace (inputText c1) with (inputText c) by now destruct c.
    replace (awaiting c1) with (awaiting c) by now destruct c.
    replace (nextHandle c1) with (nextHandle c) by now destruct c.
    replace (calls c1) with (calls c ++ [preventDefault]) by now destruct c.
    apply (sends c host chat [preventDefault]);
      try assumption; try reflexivity.
    rewrite Hinput. discriminate.
  - unfold bind at 1. unfold gets.
    destruct (awaiting c) as [|n] eqn:Hwait; [apply stays|].
    unfold bind, modify. rewrite resume_spec. cbn [state_of snd].
    replace (messages (with_awaiting n c)) with (messages c)
      by now destruct c.
    replace (inputText (with_awaiting n c)) with (inputText c)
      by now destruct c.
    replace (chatSessionRef (with_awaiting n c)) with (chatSessionRef c)
      by now destruct c.
    replace (awaiting (with_awaiting n c)) with n by now destruct c.
    replace (nextHandle (with_awaiting n c)) with (nextHandle c)
      by now destruct c.
    replace (calls (with_awaiting n c)) with (calls c) by now destruct c.
    now apply (hears c host result n).
Qed.


Lemma sent_app (a b : list HostCall) : sent (a ++ b) = sent a ++ sent b.
Proof. apply flat_map_app. Qed.

Lemma chat_created_app (a b : list HostCall) :
  created (a ++ b) = created a ++ created b.
Proof. apply flat_map_app. Qed.

Lemma addressed_app (a b : list HostCall) :
  addressed (a ++ b) = addressed a ++ addressed b.
Proof. apply flat_map_app. Qed.

Lemma said_app (a b : list Message) : said (a ++ b) = said a ++ said b.
Proof. unfold said. now rewrite filter_app, map_app. Qed.

Lemma logged_silent (result : Outcome JsString) :
  sent (logged result) = [] /\ created (logged result) = []
  /\ addressed (logged result) = [].
Proof. destruct result; repeat split. Qed.

(** The role due after [ms], when the first is [expected]. *)
Lemma alternating_snoc (expected : Role) (ms : list Message) (m : Message) :
  alternating expected ms ->
  role m = (if Nat.even (List.length ms) then expected else other expected) ->
  alternating expected (ms ++ [m]).
Proof.
  revert expected. induction ms as [|m0 rest IH]; intros expected Halt Hrole.
  - cbn in *. now split.
  - destruct Halt as [H0 Hrest]. cbn [app alternating]. split; [exact H0|].
    apply IH; [exact Hrest|]. rewrite Hrole. cbn [List.length].
    rewrite Nat.even_succ, <- Nat.negb_even.
    destruct (Nat.even (List.length rest)), expected; reflexivity.
Qed.

Lemma alternating_last (expected : Role) (ms : list Message) :
  alternating expected ms ->
  ms <> [] ->
  last_role ms
  = if Nat.even (List.length ms) then other expected else expected.
Proof.
  unfold last_role. revert expected.
  induction ms as [|m0 rest IH]; intros expected Halt Hne;
    [contradiction|].
  destruct Halt as [H0 Hrest]. destruct rest as [|m1 rest'].
  - cbn. exact H0.
  - specialize (IH (other expected) Hrest ltac:(discriminate)).
    change (last (m0 :: m1 :: rest') ?d) with (last (m1 :: rest') d).
    rewrite IH.
    change (List.length (m0 :: m1 :: rest'))
      with (S (List.length (m1 :: rest'))).
    rewrite Nat.even_succ, <- Nat.negb_even.
    destruct (Nat.even (List.length (m1 :: rest'))), expected; reflexivity.
Qed.

Lemma orderly_initial (mounted : nat) : Orderly (initial mounted).
Proof.
  split; cbn.
  - split; exact I || reflexivity.
  - reflexivity.
  - reflexivity.
  - reflexivity.
  - constructor.
  - reflexivity.
  - intros chat [].
Qed.

Lemma orderly_move (c c' : Chat) : Move c c' -> Orderly c -> Orderly c'.
Proof.
  intros Hmove [Hturns Hparity Hone Hsent Hsaid Hsession Hsame].
  destruct Hmove
    as [|value| |host chat before Hchat Hload Hinput Hb1 Hb2 Hb3
       |host result n Hwait|host Hchat Hkey].
  - now split.
  - destruct c; now split.
  - destruct c; cbn in *. split; cbn;
      rewrite ?sent_app, ?chat_created_app, ?addressed_app, ?app_nil_r;
      assumption.
  - rewrite Hload in *. split; cbn [messages isLoading awaiting calls
                                    chatSessionRef].
    + apply alternating_snoc; [exact Hturns|]. now rewrite <- Hparity.
    + rewrite length_app. cbn [List.length]. rewrite Nat.add_1_r.
      rewrite Nat.even_succ, <- Nat.negb_even, <- Hparity. reflexivity.
    + now rewrite Hone.
    + rewrite !sent_app, Hb1, app_nil_r, said_app, Hsent. reflexivity.
    + rewrite said_app. apply Forall_app. split; [exact Hsaid|].
      cbn. constructor; [exact Hinput | constructor].
    + rewrite !chat_created_app, Hb2, !app_nil_r, Hsession, Hchat. reflexivity.
    + intros chat'. rewrite !addressed_app, Hb3, app_nil_r.
      intros Hin. apply in_app_or in Hin. destruct Hin as [Hin|[E|[]]].
      * rewrite <- Hchat. now apply Hsame.
      * now subst.
  - assert (Hload : isLoading c = true).
    { destruct (isLoading c); [reflexivity|]. rewrite Hwait in Hone.
      discriminate Hone. }
    rewrite Hload in *. destruct (logged_silent result) as [L1 [L2 L3]].
    split; cbn [messages isLoading awaiting calls chatSessionRef].
    + apply alternating_snoc; [exact Hturns|]. now rewrite <- Hparity.
    + rewrite length_app. cbn [List.length]. rewrite Nat.add_1_r.
      rewrite Nat.even_succ, <- Nat.negb_even, <- Hparity. reflexivity.
    + rewrite Hwait in Hone. now injection Hone.
    + rewrite sent_app, L1, app_nil_r, said_app, Hsent. cbn.
      now rewrite app_nil_r.
    + rewrite said_app. cbn. now rewrite app_nil_r.
    + now rewrite chat_created_app, L2, app_nil_r.
    + intros chat'. rewrite addressed_app, L3, app_nil_r. apply Hsame.
  - split; cbn [messages isLoading awaiting calls chatSessionRef];
      rewrite ?sent_app, ?chat_created_app, ?addressed_app; cbn;
      rewrite ?app_nil_r; try assumption.
    + rewrite Hsession, Hchat. reflexivity.
    + intros chat' Hin. specialize (Hsame chat' Hin). congruence.
Qed.

Lemma orderly_run (trace : list (Host * Event)) (c : Chat) :
  Orderly c -> Orderly (run trace c).
Proof.
  revert c. induction trace as [|occurrence later IH]; intros c Hc.
  - exact Hc.
  - unfold run. cbn [fold_left]. apply IH.
    apply (orderly_move c); [apply step_moves | exact Hc].
Qed.

Lemma messages_grow (c c' : Chat) :
  Move c c' -> exists more, messages c' = messages c ++ more.
Proof.
  intros []; try (exists []; rewrite app_nil_r; now destruct c);
    eexists; reflexivity.
Qed.

Lemma never_empty (trace : list (Host * Event)) (c : Chat) :
  messages c <> [] -> messages (run trace c) <> [].
Proof.
  revert c. induction trace as [|occurrence later IH]; intros c Hc.
  - exact Hc.
  - unfold run. cbn [fold_left]. apply IH.
    destruct (messages_grow c _ (step_moves c occurrence)) as [more E].
    rewrite E. destruct (messages c); [contradiction | discriminate].
Qed.

(** X14. In every state of the conversation the roles take turns,
    starting with the model's greeting; the view is loading exactly while
    the last message is the user's; and exactly then one request, and
    never more than one, awaits its reply. *)
Theorem conversation_takes_turns
        (mounted : nat) (trace : list (Host * Event)) :
  alternating model (messages (run trace (initial mounted)))
  /\ (isLoading (run trace (initial mounted)) = true
      <-> last_role (messages (run trace (initial mounted))) = user)
  /\ awaiting (run trace (initial mounted))
     = (if isLoading (run trace (initial mounted)) then 1 else 0).
Proof.
  destruct (orderly_run trace (initial mounted) (orderly_initial mounted))
    as [Hturns Hparity Hone _ _ _ _].
  split; [exact Hturns|]. split; [|exact Hone].
  rewrite (alternating_last model _ Hturns)
    by (apply never_empty; discriminate).
  rewrite Hparity.
  destruct (Nat.even (List.length (messages (run trace (initial mounted)))));
    cbn; split; congruence.
Qed.

(** X15. What the user's messages in the conversation say is what was
    passed to [sendMessage], message by message and in order; none of
    them is blank; and the text is sent as typed, not trimmed. *)
Theorem every_message_sent_once
        (mounted : nat) (trace : list (Host * Event)) :
  sent (calls (run trace (initial mounted)))
  = said (messages (run trace (initial mounted)))
  /\ Forall (fun t => trim t <> [])
            (said (messages (run trace (initial mounted)))).
Proof.
  destruct (orderly_run trace (initial mounted) (orderly_initial mounted))
    as [_ _ _ Hsent Hsaid _ _].
  split; assumption.
Qed.

(** X16. At most one chat session is ever created; the ref holds it from
    then on; and every request is addressed to it. *)
Theorem one_chat_session (mounted : nat) (trace : list (Host * Event)) :
  created (calls (run trace (initial mounted)))
  = held (chatSessionRef (run trace (initial mounted)))
  /\ List.length (created (calls (run trace (initial mounted)))) <= 1
  /\ forall chat,
      In chat (addressed (calls (run trace (initial mounted)))) ->
      created (calls (run trace (initial mounted))) = [chat].
Proof.
  destruct (orderly_run trace (initial mounted) (orderly_initial mounted))
    as [_ _ _ _ _ Hsession Hsame].
  split; [exact Hsession|]. split.
  - rewrite Hsession.
    destruct (chatSessionRef (run trace (initial mounted))); cbn; lia.
  - intros chat Hin. rewrite Hsession, (Hsame chat Hin). reflexivity.
Qed.


(** X17. A send and its reply: in a state of the conversation with a
    session, not loading, and with input that is not blank, a click on
    the send button followed by the settling of the request appends the
    user's message, with the input as typed, and then the model's
    message, which is the reply's text or, if the request failed, the
    fixed apology (the failure being logged); the input is cleared and
    the view is not loading any more.  Enter without Shift does the same
    after [preventDefault]. *)
Theorem send_and_reply
        (mounted : nat) (before : list (Host * Event))
        (asking answering : Host) (chat : Handle)
        (result : Outcome JsString) :
  chatSessionRef (run before (initial mounted)) = Some chat ->
  isLoading (run before (initial mounted)) = false ->
  trim (inputText (run before (initial mounted))) <> [] ->
  step (step (run before (initial mounted)) (asking, Click))
       (answering, Settled result)
  = {| messages :=
         messages (run before (initial mounted))
         ++ [ {| role := user;
                 text := inputText (run before (initial mounted));
                 timestamp := now asking |};
              {| role := model; text := shown result;
                 timestamp := now answering |} ];
       inputText := [];
       isLoading := false;
       chatSessionRef := Some chat;
       awaiting := 0;
       nextHandle := nextHandle (run before (initial mounted));
       calls := calls (run before (initial mounted))
                ++ sendMessage chat
                               (inputText (run before (initial mounted)))
                   :: logged result |}
  /\ step (step (run before (initial mounted))
                (asking, KeyDown (of_ascii "Enter") false))
          (answering, Settled result)
     = {| messages :=
            messages (run before (initial mounted))
            ++ [ {| role := user;
                    text := inputText (run before (initial mounted));
                    timestamp := now asking |};
                 {| role := model; text := shown result;
                    timestamp := now answering |} ];
          inputText := [];
          isLoading := false;
          chatSessionRef := Some chat;
          awaiting := 0;
          nextHandle := nextHandle (run before (initial mounted));
          calls := calls (run before (initial mounted))
                   ++ preventDefault
                      :: sendMessage
                           chat (inputText (run before (initial mounted)))
                      :: logged result |}.
Proof.
  destruct (orderly_run before (initial mounted) (orderly_initial mounted))
    as [_ _ Hone _ _ _ _].
  generalize dependent (run before (initial mounted)).
  intros c Hone Hchat Hload Hinput. rewrite Hload in Hone.
  pose proof (proj2 (trim_guard (inputText c)) Hinput) as Hguard.
  split.
  - unfold step at 2. cbn [fst snd dispatch]. unfold bind at 1.
    unfold gets, button_disabled. rewrite Hload, Hguard. cbn [orb].
    rewrite (handleSend_accepts asking chat c Hchat Hload Hinput).
    cbn [state_of snd]. unfold step. cbn [fst snd dispatch].
    unfold bind at 1. unfold gets. cbn [awaiting]. rewrite Hone.
    unfold bind, modify. rewrite resume_spec. cbn.
    rewrite <- !app_assoc. reflexivity.
  - unfold step at 2. cbn [fst snd dispatch]. unfold handleKeyPress.
    replace (same_text (of_ascii "Enter") (of_ascii "Enter")) with true
      by (vm_compute; reflexivity).
    cbn [negb andb]. unfold bind at 1. unfold call, modify.
    rewrite (handleSend_accepts
               asking chat (with_calls (calls c ++ [preventDefault]) c))
      by (destruct c; assumption).
    cbn [state_of snd]. unfold step. cbn [fst snd dispatch].
    unfold bind at 1. unfold gets. cbn [awaiting].
    replace (awaiting (with_calls (calls c ++ [preventDefault]) c))
      with 0 by (destruct c; cbn in *; congruence).
    unfold bind, modify. rewrite resume_spec. destruct c. cbn.
    rewrite <- !app_assoc. reflexivity.
Qed.

(** "hi " is sent and the request fails. *)
Lemma send_and_reply_witness :
  messages (step (step typed (keyed 3, Click))
                 (keyed 4, Settled (Thrown "offline")))
  = messages typed
    ++ [ {| role := user; text := of_ascii "hi "; timestamp := 3 |};
         {| role := model; text := apology; timestamp := 4 |} ].
Proof.
  assert (Hchat : chatSessionRef typed = Some 1) by (vm_compute; reflexivity).
  assert (Hload : isLoading typed = false) by (vm_compute; reflexivity).
  assert (Hinput : trim (inputText typed) <> [])
    by (vm_compute; discriminate).
  exact (f_equal messages
           (proj1 (send_and_reply
                     0
                     [(keyed 1, Effect true);
                      (keyed 2, Change (of_ascii "hi "))]
                     (keyed 3) (keyed 4) 1 (Thrown "offline")
                     Hchat Hload Hinput))).
Defined.

Lemma keyless_step (c : Chat) (occurrence : Host * Event) :
  truthy (API_KEY (fst occurrence)) = None ->
  chatSessionRef c = None ->
  awaiting c = 0 ->
  chatSessionRef (step c occurrence) = None
  /\ awaiting (step c occurrence) = 0
  /\ messages (step c occurrence) = messages c
  /\ sent (calls (step c occurrence)) = sent (calls c)
  /\ created (calls (step c occurrence)) = created (calls c).
Proof.
  destruct occurrence as [host ev]. cbn [fst]. intros Hkey Hchat Hwait.
  unfold step. cbn [fst snd].
  destruct ev; cbn [dispatch].
  - destruct (create_session_cases host isActive c) as [E|[_ [Hkey' _]]];
      [rewrite E; repeat split; assumption | contradiction].
  - destruct c; cbn in *. repeat split; assumption.
  - unfold bind, gets. destruct (button_disabled c);
      [|rewrite handleSend_ignores by now left];
      repeat split; assumption.
  - unfold handleKeyPress.
    destruct (same_text key (of_ascii "Enter") && negb shiftKey);
      [|repeat split; assumption].
    assert (E : state_of ((call preventDefault ;; handleSend host)%js c)
                = with_calls (calls c ++ [preventDefault]) c).
    { unfold bind at 1. unfold call, modify.
      now rewrite handleSend_ignores by (left; now destruct c). }
    rewrite E. destruct c; cbn -[sent created] in *.
    rewrite sent_app, chat_created_app. cbn [sent created flat_map app].
    rewrite !app_nil_r. repeat split; assumption.
  - unfold bind, gets. rewrite Hwait. repeat split; assumption.
Qed.

(** X18. Without a key no chat session is created, and then nothing the
    user does is sent: the conversation stays at the greeting, whatever
    is typed, clicked or pressed. *)
Theorem without_key_nothing_is_sent
        (mounted : nat) (trace : list (Host * Event)) :
  Forall (fun occurrence => truthy (API_KEY (fst occurrence)) = None)
         trace ->
  messages (run trace (initial mounted)) = messages (initial mounted)
  /\ sent (calls (run trace (initial mounted))) = []
  /\ created (calls (run trace (initial mounted))) = []
  /\ isLoading (run trace (initial mounted)) = false.
Proof.
  intros Hkeys.
  assert (Hrun : forall c,
             chatSessionRef c = None -> awaiting c = 0 ->
             chatSessionRef (run trace c) = None
             /\ awaiting (run trace c) = 0
             /\ messages (run trace c) = messages c
             /\ sent (calls (run trace c)) = sent (calls c)
             /\ created (calls (run trace c)) = created (calls c)).
  { induction Hkeys as [|occurrence later Hkey Hlater IH]; intros c Hc Hw.
    - repeat split; assumption.
    - unfold run. cbn [fold_left].
      destruct (keyless_step c occurrence Hkey Hc Hw)
        as [H1 [H2 [H3 [H4 H5]]]].
      destruct (IH (step c occurrence) H1 H2) as [I1 [I2 [I3 [I4 I5]]]].
      unfold run in *. repeat split; congruence. }
  destruct (Hrun (initial mounted) eq_refl eq_refl)
    as [_ [Hw [Hm [Hs Hc]]]].
  repeat split; try assumption.
  destruct (orderly_run trace (initial mounted) (orderly_initial mounted))
    as [_ _ Hone _ _ _ _].
  rewrite Hw in Hone.
  destruct (isLoading (run trace (initial mounted)));
    [discriminate | reflexivity].
Qed.

(** Typing and pressing Enter without a key. *)
Lemma without_key_nothing_is_sent_witness :
  messages (run [(keyless 1, Effect true);
                 (keyless 2, Change (of_ascii "hi"));
                 (keyless 3, KeyDown (of_ascii "Enter") false);
                 (keyless 4, Click)] (initial 0))
  = messages (initial 0).
Proof.
  apply without_key_nothing_is_sent.
  repeat (apply Forall_cons; [reflexivity|]). apply Forall_nil.
Defined.


(** X19. The send button and the Enter key do the same to the
    conversation, in every state: the button is disabled only where
    [handleSend] would return at its guard, so a click (delivered or not)
    and Enter without Shift leave the same messages, input, loading flag
    and requests; Enter also calls [preventDefault]. *)
Theorem click_is_enter (host : Host) (c : Chat) :
  messages (step c (host, KeyDown (of_ascii "Enter") false))
  = messages (step c (host, Click))
  /\ inputText (step c (host, KeyDown (of_ascii "Enter") false))
     = inputText (step c (host, Click))
  /\ isLoading (step c (host, KeyDown (of_ascii "Enter") false))
     = isLoading (step c (host, Click))
  /\ awaiting (step c (host, KeyDown (of_ascii "Enter") false))
     = awaiting (step c (host, Click))
  /\ sent (calls (step c (host, KeyDown (of_ascii "Enter") false)))
     = sent (calls (step c (host, Click)))
  /\ calls (step c (host, KeyDown (of_ascii "Enter") false))
     = calls c ++ preventDefault
                  :: skipn (List.length (calls c))
                           (calls (step c (host, Click))).
Proof.
  assert (Hclick : step c (host, Click) = state_of (handleSend host c)).
  { unfold step. cbn [fst snd dispatch]. unfold bind at 1. unfold gets.
    destruct (button_disabled c) eqn:Hdis; [|reflexivity].
    unfold button_disabled in Hdis. apply orb_true_iff in Hdis.
    rewrite handleSend_ignores; [reflexivity|].
    destruct Hdis as [Hload|Hblank]; right; [now left | right].
    destruct (trim (inputText c)); [reflexivity | discriminate]. }
  assert (Henter : step c (host, KeyDown (of_ascii "Enter") false)
                   = state_of
                       (handleSend host
                          (with_calls (calls c ++ [preventDefault]) c))).
  { unfold step. cbn [fst snd dispatch]. unfold handleKeyPress.
    replace (same_text (of_ascii "Enter") (of_ascii "Enter")) with true
      by (vm_compute; reflexivity).
    reflexivity. }
  rewrite Hclick, Henter. clear Hclick Henter.
  destruct (chatSessionRef c) as [chat|] eqn:Hchat.
  - destruct (isLoading c) eqn:Hload.
    + rewrite !handleSend_ignores
        by (right; left; destruct c; assumption).
      destruct c; cbn [state_of snd with_calls messages inputText isLoading
                       awaiting calls].
      rewrite sent_app, skipn_all, app_nil_r. repeat split.
    + destruct (trim (inputText c)) as [|u rest] eqn:Hinput.
      * rewrite !handleSend_ignores
          by (right; right; destruct c; assumption).
        destruct c; cbn [state_of snd with_calls messages inputText
                         isLoading awaiting calls].
        rewrite sent_app, skipn_all, app_nil_r. repeat split.
      * rewrite (handleSend_accepts host chat c Hchat Hload)
          by (rewrite Hinput; discriminate).
        rewrite (handleSend_accepts
                   host chat (with_calls (calls c ++ [preventDefault]) c))
          by (destruct c; cbn in *;
              first [assumption | rewrite Hinput; discriminate]).
        destruct c; cbn [state_of snd with_calls messages inputText
                         isLoading awaiting calls].
        rewrite !sent_app, skipn_app, skipn_all, Nat.sub_diag.
        cbn [skipn app]. repeat split.
        -- cbn. now rewrite app_nil_r.
        -- now rewrite <- app_assoc.
  - rewrite !handleSend_ignores by (left; destruct c; assumption).
    destruct c; cbn [state_of snd with_calls messages inputText isLoading
                     awaiting calls].
    rewrite sent_app, skipn_all, app_nil_r. repeat split.
Qed.

End ChatFacts.


(** ** The call view and the mode switch *)

Module AppFacts.
Import Num JsMonad Audio LiveSession.
Import NumFacts AudioFacts SessionFacts SessionExtras.
Local Open Scope string_scope.
Local Open Scope list_scope.

(** A handler leaves [isConnected] alone, or it is [onopen], or it ends
    with [cleanup]. *)
Lemma connection_step (w : World) (host : Host) (ev : Event) :
  isConnected (step w (host, ev)) = isConnected w
  \/ isConnected (step w (host, ev)) = true
  \/ exists w0, step w (host, ev) = cleaned w0.
Proof.
  unfold step. cbn [fst snd].
  destruct ev; cbn [dispatch].
  - unfold connect. destruct (truthy (API_KEY host)) as [apiKey|].
    + unfold try_catch.
      destruct (microphone host) as [[]|err] eqn:Emic.
      * left. destruct w. reflexivity.
      * right. right. destruct w. cbn -[cleanup].
        rewrite cleanup_spec. eexists. reflexivity.
    + left. destruct w. reflexivity.
  - right. right. rewrite cleanup_spec. now exists w.
  - right. left. destruct w. unfold onopen. cbn.
    destruct inputContextRef0, audioStreamRef0; cbn; try reflexivity.
    destruct inputAnalyserRef0; reflexivity.
  - left. rewrite onmessage_branches.
    assert (Haudio : isConnected (after_audio host message w)
                     = isConnected w).
    { destruct (after_audio_cases host message w)
        as [E|[[payload [ctx [buffer [Hctx [Hdec E]]]]]
              |[payload [ctx [err [Hctx [Hdec E]]]]]]]; rewrite E.
      - reflexivity.
      - rewrite (enqueue_decoded host payload ctx buffer w Hdec).
        destruct w; reflexivity.
      - rewrite (enqueue_failed host payload ctx err w Hdec).
        destruct w; reflexivity. }
    destruct (interrupted_of message); cbn [when].
    + rewrite interrupt_spec. rewrite <- Haudio.
      destruct (after_audio host message w); reflexivity.
    + exact Haudio.
  - right. right. unfold onclose, bind, call, modify.
    rewrite cleanup_spec. eexists. reflexivity.
  - right. right. unfold onerror, bind, call, modify.
    rewrite cleanup_spec. eexists. reflexivity.
  - left. destruct w. unfold onaudioprocess.
    cbn -[block_rms createPcmBlob Math_max].
    destruct sessionPromiseRef0; reflexivity.
  - left. destruct w. unfold onended. cbn -[Set_delete].
    destruct (Set_delete source scheduledSourcesRef0); reflexivity.
Qed.

Lemma same_deps_eq (a b : VoiceView.Closure) :
  VoiceView.same_deps a b = true <-> a = b.
Proof.
  destruct a as [a1 a2], b as [b1 b2]. unfold VoiceView.same_deps. cbn.
  rewrite andb_true_iff, !eqb_true_iff. split.
  - intros [-> ->]. reflexivity.
  - intros E. injection E. auto.
Qed.

Lemma commit_settled (host : Host) (v : VoiceView.View) :
  VoiceView.settled v -> VoiceView.commit host v = v.
Proof.
  intros Hs. unfold VoiceView.commit.
  replace (VoiceView.same_deps (VoiceView.deps v) (VoiceView.armed v))
    with true; [reflexivity|].
  symmetry. apply same_deps_eq. now symmetry.
Qed.

(** Two commits are enough: after them the effect is set up for what the
    component shows, and a third changes nothing. *)
Lemma rerender_settles (host : Host) (v : VoiceView.View) :
  VoiceView.settled (VoiceView.rerender host v).
Proof.
  unfold VoiceView.rerender.
  destruct (VoiceView.same_deps (VoiceView.deps v) (VoiceView.armed v))
    eqn:Hsame.
  - assert (Hv : VoiceView.settled v).
    { unfold VoiceView.settled. symmetry. now apply same_deps_eq. }
    rewrite !(commit_settled host v Hv). exact Hv.
  - assert (E : VoiceView.commit host v
                = {| VoiceView.props_isActive := VoiceView.props_isActive v;
                     VoiceView.session :=
                       state_of (VoiceView.auto_disconnect
                                   host (VoiceView.armed v)
                                   (VoiceView.session v));
                     VoiceView.armed := VoiceView.deps v |}).
    { unfold VoiceView.commit. now rewrite Hsame. }
    rewrite E. clear E. unfold VoiceView.commit.
    match goal with
    | |- context [VoiceView.same_deps ?d ?a] =>
        destruct (VoiceView.same_deps d a) eqn:Hsame'
    end.
    + unfold VoiceView.settled. symmetry. now apply same_deps_eq.
    + unfold VoiceView.settled, VoiceView.deps. cbn.
      unfold VoiceView.deps, VoiceView.auto_disconnect in *. cbn in Hsame'.
      destruct (negb (VoiceView.isActive (VoiceView.armed v))
                && VoiceView.isConnected (VoiceView.armed v)).
      * cbn [when] in *. rewrite cleanup_spec. cbn [state_of snd].
        cbn [VoiceView.isActive VoiceView.isConnected].
        destruct (negb (VoiceView.props_isActive v)
                  && isConnected (VoiceView.session v));
          cbn [when]; rewrite ?cleanup_spec; reflexivity.
      * exfalso. cbn [when] in Hsame'. unfold ret in Hsame'.
        cbn [state_of snd] in Hsame'.
        assert (Hrefl : VoiceView.same_deps
                          {| VoiceView.isActive := VoiceView.props_isActive v;
                             VoiceView.isConnected :=
                               isConnected (VoiceView.session v) |}
                          {| VoiceView.isActive := VoiceView.props_isActive v;
                             VoiceView.isConnected :=
                               isConnected (VoiceView.session v) |}
                        = true) by now apply same_deps_eq.
        congruence.
Qed.


(** A render after which the old cleanup, if it runs at all, finds
    nothing to do, leaves the session as it is. *)
Lemma rerender_session (host : Host) (v : VoiceView.View) :
  (negb (VoiceView.isActive (VoiceView.armed v))
   && VoiceView.isConnected (VoiceView.armed v) = true ->
   VoiceView.deps v <> VoiceView.armed v ->
   state_of (cleanup host (VoiceView.session v)) = VoiceView.session v) ->
  VoiceView.session (VoiceView.rerender host v) = VoiceView.session v.
Proof.
  intros Hidle. unfold VoiceView.rerender.
  destruct (VoiceView.same_deps (VoiceView.deps v) (VoiceView.armed v))
    eqn:Hsame.
  - assert (Hv : VoiceView.settled v).
    { unfold VoiceView.settled. symmetry. now apply same_deps_eq. }
    now rewrite !(commit_settled host v Hv).
  - assert (Hne : VoiceView.deps v <> VoiceView.armed v).
    { intros E. apply same_deps_eq in E. congruence. }
    assert (E : VoiceView.commit host v
                = {| VoiceView.props_isActive := VoiceView.props_isActive v;
                     VoiceView.session := VoiceView.session v;
                     VoiceView.armed := VoiceView.deps v |}).
    { unfold VoiceView.commit. rewrite Hsame. f_equal.
      unfold VoiceView.auto_disconnect.
      destruct (negb (VoiceView.isActive (VoiceView.armed v))
                && VoiceView.isConnected (VoiceView.armed v)) eqn:Hfire.
      - cbn [when]. now apply Hidle.
      - reflexivity. }
    rewrite E. rewrite commit_settled; reflexivity.
Qed.

Lemma consistent_mount (hosts : App.Hosts) : App.consistent (App.mount hosts).
Proof. split; reflexivity. Qed.

Lemma consistent_act (p : App.Page) (occurrence : App.Hosts * App.Action) :
  App.consistent p -> App.consistent (App.act p occurrence).
Proof.
  intros [Hprops Hsettled]. destruct occurrence as [hosts action].
  unfold App.act. cbn [fst snd]. destruct action as [m|ev|ev].
  - unfold App.setMode. destruct (App.same_mode m (App.mode p)) eqn:Hm;
      [now split|].
    split; [|apply rerender_settles]. cbn [App.voice App.mode].
    unfold VoiceView.act, VoiceView.rerender, VoiceView.commit.
    repeat match goal with
           | |- context [if ?b then _ else _] => destruct b
           end; reflexivity.
  - now split.
  - split; [|apply rerender_settles]. cbn [App.voice App.mode].
    rewrite <- Hprops.
    unfold VoiceView.act, VoiceView.rerender, VoiceView.commit.
    repeat match goal with
           | |- context [if ?b then _ else _] => destruct b
           end; reflexivity.
Qed.

Lemma consistent_run (trace : list (App.Hosts * App.Action)) (p : App.Page) :
  App.consistent p -> App.consistent (App.run trace p).
Proof.
  revert p. induction trace as [|occurrence later IH]; intros p Hp.
  - exact Hp.
  - unfold App.run. cbn [fold_left]. apply IH. now apply consistent_act.
Qed.

(** X20. The auto-disconnect runs when the user comes back, not when
    they leave: with a session connected in the call view, switching to
    the chat leaves the session exactly as it is (nothing is released),
    and switching back to the call view runs [cleanup] on it. *)
Theorem call_ends_on_return
        (before : list (App.Hosts * App.Action))
        (first leaving returning : App.Hosts) :
  App.mode (App.run before (App.mount first)) = App.VOICE ->
  isConnected (VoiceView.session
                 (App.voice (App.run before (App.mount first)))) = true ->
  VoiceView.session
    (App.voice (App.setMode leaving App.TEXT
                            (App.run before (App.mount first))))
  = VoiceView.session (App.voice (App.run before (App.mount first)))
  /\ VoiceView.session
       (App.voice
          (App.setMode returning App.VOICE
                       (App.setMode leaving App.TEXT
                                    (App.run before (App.mount first)))))
     = cleaned (VoiceView.session
                  (App.voice (App.run before (App.mount first)))).
Proof.
  pose proof (consistent_run before (App.mount first)
                             (consistent_mount first)) as [Hprops Hsettled].
  generalize dependent (App.run before (App.mount first)).
  intros p Hprops Hsettled Hmode Hconn.
  destruct p as [m ch [active s closure]].
  cbn [App.mode App.voice VoiceView.session VoiceView.props_isActive] in *.
  subst m. unfold VoiceView.settled, VoiceView.deps in Hsettled.
  cbn [VoiceView.armed VoiceView.props_isActive VoiceView.session]
    in Hsettled.
  cbn in Hprops. subst active closure. rewrite Hconn.
  unfold App.setMode. cbn [App.same_mode App.mode App.voice
                           App.voice_active].
  unfold VoiceView.act, VoiceView.rerender, VoiceView.commit,
    VoiceView.deps, VoiceView.same_deps, VoiceView.auto_disconnect.
  cbn -[cleanup cleaned]. rewrite !Hconn. cbn -[cleanup cleaned].
  rewrite ?Hconn. cbn -[cleanup cleaned].
  split; [reflexivity|]. rewrite !cleanup_spec. cbn -[cleaned].
  reflexivity.
Qed.

(** The call is open, the user reads the chat and comes back. *)
Lemma call_ends_on_return_witness :
  VoiceView.session
    (App.voice (App.setMode (App.desktop 4) App.TEXT App.in_call))
  = VoiceView.session (App.voice App.in_call)
  /\ VoiceView.session
       (App.voice (App.setMode (App.desktop 5) App.VOICE
                               (App.setMode (App.desktop 4) App.TEXT
                                            App.in_call)))
     = cleaned (VoiceView.session (App.voice App.in_call)).
Proof.
  assert (Hmode : App.mode App.in_call = App.VOICE)
    by (vm_compute; reflexivity).
  assert (Hconn : isConnected (VoiceView.session (App.voice App.in_call))
                  = true)
    by (vm_compute; reflexivity).
  exact (call_ends_on_return
           [(App.desktop 1, App.SetMode App.VOICE);
            (App.desktop 2, App.InVoice Connect);
            (App.desktop 3, App.InVoice OnOpen)]
           (App.desktop 0) (App.desktop 4) (App.desktop 5) Hmode Hconn).
Defined.

(** X21. Between mode switches the effect is invisible: in every state
    of the page, a handler of the hook leaves the session exactly as it
    would without the effect, whichever view is showing.  (When the
    session ends while the chat is showing, the cleanup does run
    [disconnect] once more, which finds nothing to release.) *)
Theorem effect_leaves_handlers_alone
        (before : list (App.Hosts * App.Action))
        (first hosts : App.Hosts) (ev : Event) :
  VoiceView.session
    (App.voice (App.act (App.run before (App.mount first))
                        (hosts, App.InVoice ev)))
  = step (VoiceView.session
            (App.voice (App.run before (App.mount first))))
         (App.voice_host hosts, ev).
Proof.
  pose proof (consistent_run before (App.mount first)
                             (consistent_mount first)) as [_ Hsettled].
  generalize dependent (App.run before (App.mount first)).
  intros p Hsettled. unfold App.act. cbn [fst snd App.voice].
  unfold VoiceView.act. rewrite rerender_session; [reflexivity|].
  cbn [VoiceView.armed VoiceView.session VoiceView.props_isActive].
  unfold VoiceView.deps.
  cbn [VoiceView.armed VoiceView.session VoiceView.props_isActive].
  rewrite Hsettled. unfold VoiceView.deps.
  cbn [VoiceView.isActive VoiceView.isConnected].
  intros Hfire Hchanged. apply andb_true_iff in Hfire.
  destruct Hfire as [_ Hwas].
  destruct (connection_step (VoiceView.session (App.voice p))
                            (App.voice_host hosts) ev)
    as [Hsame|[Hnow|[w0 Hcleaned]]].
  - rewrite Hsame in Hchanged. contradiction.
  - rewrite Hnow, Hwas in Hchanged. contradiction.
  - rewrite Hcleaned, cleanup_spec. cbn [state_of snd].
    apply cleaned_cleaned.
Qed.

End AppFacts.
